(** * Othello engine and search agents: a shallow embedding

    The development follows the Python sources:
    - [main.py]       the rules engine ([Othello.valid_moves], [Othello.apply_move],
                      [Othello.is_game_over], [Othello.copy]);
    - [utils.py]      the stand-alone board scans used by the heuristics;
    - [heuristics.py] the stability evaluator;
    - [minmax.py]     depth-limited minimax with alpha-beta pruning;
    - [mcts.py]       the Monte Carlo tree search agent.

    The board is the 8x8 integer array of the source, held as a list of rows;
    coordinates are Python integers ([Z]) and every bounds test of the source
    is written out.  Sets of moves are finite sets ([gset]). *)

From Stdlib Require Import ZArith Lia QArith.QArith_base QArith.Qcanon Orders OrdersTac.
From stdpp Require Import base option list gmap sets.

Open Scope Z_scope.

(** ** The board *)

Abbreviation Board := (list (list Z)).
Abbreviation Move := (Z * Z)%type.

(** [0 <= r < 8 and 0 <= c < 8] *)
Definition in_bounds (r c : Z) : bool :=
  (0 <=? r) && (r <? 8) && (0 <=? c) && (c <? 8).

(** [board[r, c]]; the source only reads inside the bounds test. *)
Definition cell (b : Board) (r c : Z) : Z :=
  default 0 (b !! Z.to_nat r ≫= λ row, row !! Z.to_nat c).

(** [board[r, c] = v]; the source only writes cells of legal moves and of
    collected runs, all of them inside the board. *)
Definition set_cell (b : Board) (r c v : Z) : Board :=
  alter (λ row, <[Z.to_nat c := v]> row) (Z.to_nat r) b.

(** The shape of [np.zeros((8, 8))], kept by every write. *)
Definition wf_board (b : Board) : Prop :=
  length b = 8%nat ∧ Forall (λ row, length row = 8%nat) b.

Definition directions : list (Z * Z) :=
  [(-1, -1); (-1, 0); (-1, 1); (0, -1); (0, 1); (1, -1); (1, 0); (1, 1)].

(** [range(8)] *)
Definition range8 : list Z := [0; 1; 2; 3; 4; 5; 6; 7].

(** [Othello.__init__] with the fixed opening. *)
Definition zeros : Board := replicate 8 (replicate 8 0).

Definition init_board : Board :=
  set_cell (set_cell (set_cell (set_cell zeros 3 3 (-1)) 4 4 (-1)) 3 4 1) 4 3 1.

(** ** [Othello.valid_moves] *)

(** The inner [while] of [valid_moves]: walk from [(nr, nc)] in direction
    [(dr, dc)]; the result is the cell added to [moves], if any.  A walk
    leaves the board after at most eight steps, which is the fuel used by
    [valid_moves]; [scan_fuel] shows that more fuel changes nothing. *)
Fixpoint scan (fuel : nat) (b : Board) (player nr nc dr dc : Z) (found_opponent : bool)
  : option Move :=
  match fuel with
  | O => None
  | S fuel' =>
    if in_bounds nr nc then
      if cell b nr nc =? - player then
        scan fuel' b player (nr + dr) (nc + dc) dr dc true
      else if (cell b nr nc =? 0) && found_opponent then Some (nr, nc)
      else None
    else None
  end.

Definition scan_from (b : Board) (player r c : Z) (moves : gset Move) (d : Z * Z)
  : gset Move :=
  match scan 8 b player (r + d.1) (c + d.2) d.1 d.2 false with
  | Some m => {[ m ]} ∪ moves
  | None => moves
  end.

Definition valid_moves (b : Board) (player : Z) : gset Move :=
  foldl (λ moves r,
    foldl (λ moves c,
      if negb (cell b r c =? player) then moves
      else foldl (scan_from b player r c) moves directions)
    moves range8) ∅ range8.

(** ** [Othello.apply_move] *)

(** The inner [while] of [apply_move] for one direction, on the board being
    mutated. *)
Fixpoint flip_walk (fuel : nat) (b : Board) (player nr nc dr dc : Z)
    (pieces_to_flip : list Move) : Board :=
  match fuel with
  | O => b
  | S fuel' =>
    if in_bounds nr nc then
      if cell b nr nc =? - player then
        flip_walk fuel' b player (nr + dr) (nc + dc) dr dc (pieces_to_flip ++ [(nr, nc)])
      else if cell b nr nc =? player then
        foldl (λ b' fl, set_cell b' fl.1 fl.2 player) b pieces_to_flip
      else b
    else b
  end.

Definition flip_direction (player r c : Z) (b : Board) (d : Z * Z) : Board :=
  flip_walk 8 b player (r + d.1) (c + d.2) d.1 d.2 [].

(** The success flag and the board after the call. *)
Definition apply_move (b : Board) (move : Move) (player : Z) : bool * Board :=
  if decide (move ∈ valid_moves b player) then
    let '(r, c) := move in
    (true, foldl (flip_direction player r c) (set_cell b r c player) directions)
  else (false, b).

(** [Othello.is_game_over] *)
Definition is_game_over (b : Board) : bool :=
  negb (negb (bool_decide (valid_moves b 1 = ∅))
        || negb (bool_decide (valid_moves b (-1) = ∅))).

(** [np.sum(board == v)] *)
Definition count_eq (b : Board) (v : Z) : Z :=
  foldr (λ row acc, foldr (λ x acc', (if x =? v then 1 else 0) + acc') acc row) 0 b.

(** ** Declarative reading of the rules *)

(** The [n] cells after [(r, c)] in direction [(dr, dc)] are on the board and
    hold opponent disks. *)
Definition opp_run (b : Board) (player r c dr dc n : Z) : Prop :=
  ∀ j, 1 ≤ j ≤ n →
    in_bounds (r + j * dr) (c + j * dc) = true ∧
    cell b (r + j * dr) (c + j * dc) = - player.

(** A run of [n >= 1] opponent disks closed by a disk of [player]. *)
Definition bracket (b : Board) (player r c dr dc n : Z) : Prop :=
  1 ≤ n ∧ opp_run b player r c dr dc n ∧
  in_bounds (r + (n + 1) * dr) (c + (n + 1) * dc) = true ∧
  cell b (r + (n + 1) * dr) (c + (n + 1) * dc) = player.

Definition legal (b : Board) (player : Z) (m : Move) : Prop :=
  player ≠ 0 ∧ in_bounds m.1 m.2 = true ∧ cell b m.1 m.2 = 0 ∧
  ∃ d n, d ∈ directions ∧ bracket b player m.1 m.2 d.1 d.2 n.

(** The cell [q] lies in a bracketed run that starts next to [m] in one of
    the directions [ds]. *)
Definition flipped_in (ds : list (Z * Z)) (b : Board) (player : Z) (m q : Move) : Prop :=
  ∃ d n j, d ∈ ds ∧ bracket b player m.1 m.2 d.1 d.2 n ∧
           1 ≤ j ≤ n ∧ q = (m.1 + j * d.1, m.2 + j * d.2).

Definition flipped : Board → Z → Move → Move → Prop := flipped_in directions.

(** The board [b'] is [b] with [player] on [m] and on the runs bracketed in
    the directions [ds]. *)
Definition placed_and_flipped (ds : list (Z * Z)) (b : Board) (player : Z) (m : Move)
    (b' : Board) : Prop :=
  wf_board b' ∧
  ∀ x y, 0 ≤ x → 0 ≤ y →
    ((x, y) = m → cell b' x y = player) ∧
    (flipped_in ds b player m (x, y) → cell b' x y = player) ∧
    ((x, y) ≠ m → ¬ flipped_in ds b player m (x, y) → cell b' x y = cell b x y).

(** Boards of a game: the fixed opening and whatever legal moves of either
    colour lead to ([create_random_opening] plays such moves too). *)
Inductive reachable : Board → Prop :=
  | reachable_init : reachable init_board
  | reachable_move b player m b' :
      reachable b → player = 1 ∨ player = -1 →
      m ∈ valid_moves b player →
      apply_move b m player = (true, b') →
      reachable b'.

(** ** [utils.py] *)

Definition utils_directions : list (Z * Z) :=
  [(-1, 0); (1, 0); (0, -1); (0, 1); (-1, -1); (-1, 1); (1, -1); (1, 1)].

(** The [while] of [find_valid_moves]: step over opponent disks; the result
    is the cell where the walk stops. *)
Fixpoint skip_opponent (fuel : nat) (b : Board) (opponent nr nc dr dc : Z) : Z * Z :=
  match fuel with
  | O => (nr, nc)
  | S fuel' =>
    if in_bounds nr nc && (cell b nr nc =? opponent) then
      skip_opponent fuel' b opponent (nr + dr) (nc + dc) dr dc
    else (nr, nc)
  end.

(** One direction of [find_valid_moves] from the empty cell [(r, c)]: does
    the body reach [valid_moves.add((r, c))]? *)
Definition captures (b : Board) (player r c : Z) (d : Z * Z) : bool :=
  let opponent := - player in
  let nr := r + d.1 in
  let nc := c + d.2 in
  if in_bounds nr nc && (cell b nr nc =? opponent) then
    let '(nr', nc') := skip_opponent 8 b opponent nr nc d.1 d.2 in
    in_bounds nr' nc' && (cell b nr' nc' =? player)
  else false.

(** The [for dr, dc in directions] loop with its [break]. *)
Fixpoint try_directions (b : Board) (player r c : Z) (ds : list (Z * Z))
    (valid : gset Move) : gset Move :=
  match ds with
  | [] => valid
  | d :: ds' =>
    if captures b player r c d then {[ (r, c) ]} ∪ valid
    else try_directions b player r c ds' valid
  end.

Definition find_valid_moves (b : Board) (player : Z) : gset Move :=
  foldl (λ valid r,
    foldl (λ valid c,
      if negb (cell b r c =? 0) then valid
      else try_directions b player r c utils_directions valid)
    valid range8) ∅ range8.

(** The first [n] cells of the walk that starts at [(nr, nc)]. *)
Fixpoint run_list (n : nat) (nr nc dr dc : Z) : list Move :=
  match n with
  | O => []
  | S n' => (nr, nc) :: run_list n' (nr + dr) (nc + dc) dr dc
  end.

(** The 64 coordinates of the board, row by row. *)
Definition all_cells : list Move :=
  r ← range8; c ← range8; [(r, c)].

(** The board whose cell [(r, c)] holds [f r c]. *)
Definition tabulate (f : Z → Z → Z) : Board :=
  (λ r, (λ c, f r c) <$> range8) <$> range8.

(** Disks of both colours: [np.sum(board == 1) + np.sum(board == -1)]. *)
Definition disks (b : Board) : Z := count_eq b 1 + count_eq b (-1).

(** [find_stable_disks]: the [for dr, dc in directions] loop with its
    [break]; the result is the flag [stable]. *)
Fixpoint no_empty_neighbour (b : Board) (r c : Z) (ds : list (Z * Z)) : bool :=
  match ds with
  | [] => true
  | d :: ds' =>
    if in_bounds (r + d.1) (c + d.2) && (cell b (r + d.1) (c + d.2) =? 0) then false
    else no_empty_neighbour b r c ds'
  end.

Definition find_stable_disks (b : Board) (player : Z) : Z :=
  foldl (λ stable_count r,
    foldl (λ stable_count c,
      if cell b r c =? player then
        if no_empty_neighbour b r c directions then stable_count + 1 else stable_count
      else stable_count)
    stable_count range8) 0 range8.

(** [find_unstable_disks]: one is added for every pair of an opponent move
    and a neighbouring cell that holds a disk of [player]. *)
Definition find_unstable_disks (b : Board) (player : Z) (opponent_moves : list Move) : Z :=
  foldl (λ unstable_count move,
    foldl (λ unstable_count d,
      if in_bounds (move.1 + d.1) (move.2 + d.2)
         && (cell b (move.1 + d.1) (move.2 + d.2) =? player)
      then unstable_count + 1 else unstable_count)
    unstable_count directions) 0 opponent_moves.

(** ** [heuristics.py] *)

(** Scores are Python floats; the quotients are taken in the rationals. *)
Definition normalized (x y : Z) : Qc :=
  if negb (x + y =? 0) then (Qc_of_Z (100 * (x - y)) / Qc_of_Z (x + y))%Qc else 0%Qc.

Definition STABLE_WEIGHT : Z := 2.
Definition UNSTABLE_WEIGHT : Z := 1.

Definition stability_heuristic (b : Board) (player : Z) : Qc :=
  let opponent := - player in
  let player_stable := find_stable_disks b player in
  let opponent_stable := find_stable_disks b opponent in
  let player_unstable :=
    find_unstable_disks b player (elements (valid_moves b opponent)) in
  let opponent_unstable :=
    find_unstable_disks b opponent (elements (valid_moves b player)) in
  let stable_diff := normalized player_stable opponent_stable in
  let unstable_diff :=
    if negb (player_unstable + opponent_unstable =? 0) then
      (Qc_of_Z (100 * (opponent_unstable - player_unstable))
       / Qc_of_Z (player_unstable + opponent_unstable))%Qc
    else 0%Qc in
  ((Qc_of_Z STABLE_WEIGHT * stable_diff + Qc_of_Z UNSTABLE_WEIGHT * unstable_diff)
   / Qc_of_Z (STABLE_WEIGHT + UNSTABLE_WEIGHT))%Qc.

(** The stability score as the specification words it. *)

(** A stable disk: a disk of [player] none of whose neighbouring cells is
    empty. *)
Definition spec_stable (b : Board) (player : Z) (q : Move) : bool :=
  (cell b q.1 q.2 =? player)
  && forallb (λ d, negb (in_bounds (q.1 + d.1) (q.2 + d.2)
                         && (cell b (q.1 + d.1) (q.2 + d.2) =? 0))) directions.

(** An unstable disk: a disk of [player] next to a cell the opponent could
    legally move into. *)
Definition spec_unstable (b : Board) (player : Z) (q : Move) : bool :=
  (cell b q.1 q.2 =? player)
  && existsb (λ d, bool_decide ((q.1 + d.1, q.2 + d.2) ∈ valid_moves b (- player)))
       directions.

Definition count_cells (f : Move → bool) : Z :=
  Z.of_nat (length (filter (λ q, f q = true) all_cells)).

Definition spec_stability (b : Board) (player : Z) : Qc :=
  let S := normalized (count_cells (spec_stable b player))
                      (count_cells (spec_stable b (- player))) in
  let U := normalized (count_cells (spec_unstable b (- player)))
                      (count_cells (spec_unstable b player)) in
  ((Qc_of_Z 2 * S + U) / Qc_of_Z 3)%Qc.

(** ** Game objects on the heap

    An [Othello] object holds a reference to its numpy board and the side to
    move; [apply_move] mutates the board in place, so two objects that shared
    a board would see each other's moves.  The heap keeps boards and objects
    apart to make that sharing expressible; references are indices, and a
    new object or board is appended. *)

Record Othello := { board_ref : nat; current_player : Z }.

Record Heap := { arrays : list Board; games : list Othello }.

(** What an agent can observe of a game: the grid and the side to move. *)
Record State := { grid : Board; to_move : Z }.

Definition board_of (h : Heap) (g : nat) : Board :=
  default [] (games h !! g ≫= λ o, arrays h !! board_ref o).

Definition player_of (h : Heap) (g : nat) : Z :=
  default 0 (current_player <$> games h !! g).

Definition snapshot (h : Heap) (g : nat) : State :=
  {| grid := board_of h g; to_move := player_of h g |}.

(** [Othello.copy]: a new object with [np.copy(self.board)] and the same
    side to move.  (The board the constructor first builds for the new object
    is dropped at once and is left out.) *)
Definition copy (g : nat) (h : Heap) : nat * Heap :=
  (length (games h),
   {| arrays := arrays h ++ [board_of h g];
      games := games h ++ [{| board_ref := length (arrays h);
                              current_player := player_of h g |}] |}).

(** [game.apply_move(move, player)] on the object [g]. *)
Definition apply_move_at (g : nat) (move : Move) (player : Z) (h : Heap) : bool * Heap :=
  match games h !! g with
  | Some o =>
    let '(ok, b') := apply_move (board_of h g) move player in
    (ok, {| arrays := <[board_ref o := b']> (arrays h); games := games h |})
  | None => (false, h)
  end.

(** [game.current_player *= -1] *)
Definition flip_player (g : nat) (h : Heap) : unit * Heap :=
  (tt, {| arrays := arrays h;
          games := alter (λ o, {| board_ref := board_ref o;
                                  current_player := current_player o * -1 |}) g (games h) |}).

(** Every object points to a board of the heap. *)
Definition heap_wf (h : Heap) : Prop :=
  ∀ g o, games h !! g = Some o → (board_ref o < length (arrays h))%nat.

(** The heap [h'] holds every board and object of [h] untouched, and
    possibly new ones. *)
Definition heap_extends (h h' : Heap) : Prop :=
  arrays h `prefix_of` arrays h' ∧ games h `prefix_of` games h'.

(** ** Scores

    Scores are Python floats compared with [<], [>], [<=], [>=], [max] and
    [min], and minimax starts from [float('-inf')] and [float('inf')]: a
    rational or one of the two infinities. *)
Inductive Score := NegInf | Fin (x : Qc) | PosInf.

Definition score_ltb (a b : Score) : bool :=
  match a, b with
  | NegInf, NegInf => false
  | NegInf, _ => true
  | Fin x, Fin y => (Qnum x * QDen y <? Qnum y * QDen x)
  | Fin _, PosInf => true
  | Fin _, NegInf => false
  | PosInf, _ => false
  end.

(** [a >= b] *)
Definition score_geb (a b : Score) : bool := negb (score_ltb a b).

(** [max(a, b)] and [min(a, b)]: the first argument wins a tie. *)
Definition score_max (a b : Score) : Score := if score_ltb a b then b else a.
Definition score_min (a b : Score) : Score := if score_ltb b a then b else a.

Definition score_lt (a b : Score) : Prop := score_ltb a b = true.
Definition score_le (a b : Score) : Prop := score_ltb b a = false.

(** What the Python runtime fixes and the sources do not: the order in which
    a set is iterated, and the floating-point UCB1 arg-max of [mcts.py]
    ([max(children, key=ucb1)] for the exploration constant, the parent's
    visit count, and every child's key, wins and visits). *)
Record Runtime := {
  list_of_set : gset Move → list Move;
  ucb1_best : Qc → Z → list (Board * (Qc * Z)) → Board
}.

Definition runtime_ok (R : Runtime) : Prop :=
  (∀ s x, x ∈ list_of_set R s ↔ x ∈ s) ∧
  (∀ c n l, l ≠ [] → ucb1_best R c n l ∈ l.*1).

(** A runtime to compute with: sets in the order of [elements], and the
    first child. *)
Definition simple_runtime : Runtime :=
  {| list_of_set := elements;
     ucb1_best := λ _ _ l, match l with [] => [] | kv :: _ => kv.1 end |}.

(** ** [minmax.py] *)

Record MinMaxPlayer := {
  color : Z;
  depth : nat;
  heuristic_function : State → Z → Score
}.

(** The state monad of code that works on the heap. *)
Definition St (A : Type) : Type := Heap → A * Heap.

Definition st_ret {A} (a : A) : St A := λ h, (a, h).

Definition st_bind {A B} (m : St A) (k : A → St B) : St B :=
  λ h, let '(a, h') := m h in k a h'.

Definition st_get {A} (f : Heap → A) : St A := λ h, (f h, h).

Notation "'let!' x ':=' m 'in' k" := (st_bind m (λ x, k))
  (at level 10, x name, m at level 100, k at level 200, only parsing).

(** [a <= b] *)
Definition score_leb (a b : Score) : bool := negb (score_ltb b a).

(** [for move in valid_moves] of the maximizing branch; [rec] is the call
    [self.minimax(new_game, depth - 1, alpha, beta, False)[0]].  With
    [prune = false] the [break] is removed. *)
Fixpoint max_loop (rec : nat → Score → Score → St Score) (prune : bool)
    (game : nat) (player : Z) (moves : list Move)
    (alpha beta max_eval : Score) (best_move : option Move)
  : St (Score * option Move) :=
  match moves with
  | [] => st_ret (max_eval, best_move)
  | move :: rest =>
    let! new_game := copy game in
    let! _ := apply_move_at new_game move player in
    let! eval_score := rec new_game alpha beta in
    let better := score_ltb max_eval eval_score in
    let max_eval' := if better then eval_score else max_eval in
    let best_move' := if better then Some move else best_move in
    let alpha' := score_max alpha eval_score in
    if prune && score_geb alpha' beta then st_ret (max_eval', best_move')
    else max_loop rec prune game player rest alpha' beta max_eval' best_move'
  end.

(** The minimizing branch. *)
Fixpoint min_loop (rec : nat → Score → Score → St Score) (prune : bool)
    (game : nat) (player : Z) (moves : list Move)
    (alpha beta min_eval : Score) (best_move : option Move)
  : St (Score * option Move) :=
  match moves with
  | [] => st_ret (min_eval, best_move)
  | move :: rest =>
    let! new_game := copy game in
    let! _ := apply_move_at new_game move player in
    let! eval_score := rec new_game alpha beta in
    let better := score_ltb eval_score min_eval in
    let min_eval' := if better then eval_score else min_eval in
    let best_move' := if better then Some move else best_move in
    let beta' := score_min beta eval_score in
    if prune && score_leb beta' alpha then st_ret (min_eval', best_move')
    else min_loop rec prune game player rest alpha beta' min_eval' best_move'
  end.

(** [MinMaxPlayer.minimax]; [prune = true] is the source, [prune = false]
    the same recursion without the two pruning [break]s. *)
Fixpoint minimax (R : Runtime) (P : MinMaxPlayer) (prune : bool) (depth : nat)
    (game : nat) (alpha beta : Score) (maximizing : bool)
  : St (Score * option Move) :=
  match depth with
  | O =>
    let! s := st_get (λ h, snapshot h game) in
    st_ret (heuristic_function P s (color P), None)
  | S depth' =>
    let! s := st_get (λ h, snapshot h game) in
    if is_game_over (grid s) then st_ret (heuristic_function P s (color P), None)
    else
      let valid :=
        list_of_set R (valid_moves (grid s) (if maximizing then color P else - color P)) in
      match valid with
      | [] =>
        let! r := minimax R P prune depth' game alpha beta (negb maximizing) in
        st_ret (r.1, None)
      | _ :: _ =>
        if maximizing then
          max_loop (λ g a b, let! r := minimax R P prune depth' g a b false in st_ret r.1)
                   prune game (color P) valid alpha beta NegInf None
        else
          min_loop (λ g a b, let! r := minimax R P prune depth' g a b true in st_ret r.1)
                   prune game (- color P) valid alpha beta PosInf None
      end
  end.

(** [MinMaxPlayer.get_move] *)
Definition minmax_get_move (R : Runtime) (P : MinMaxPlayer) (game : nat) : St (option Move) :=
  let! r := minimax R P true (depth P) game NegInf PosInf true in
  st_ret r.2.

(** The search on values: the state a copy would hold after the move. *)
Definition play (s : State) (move : Move) (player : Z) : State :=
  {| grid := (apply_move (grid s) move player).2; to_move := to_move s |}.

Fixpoint max_loop_val (rec : State → Score → Score → Score) (prune : bool)
    (s : State) (player : Z) (moves : list Move)
    (alpha beta max_eval : Score) (best_move : option Move) : Score * option Move :=
  match moves with
  | [] => (max_eval, best_move)
  | move :: rest =>
    let eval_score := rec (play s move player) alpha beta in
    let better := score_ltb max_eval eval_score in
    let max_eval' := if better then eval_score else max_eval in
    let best_move' := if better then Some move else best_move in
    let alpha' := score_max alpha eval_score in
    if prune && score_geb alpha' beta then (max_eval', best_move')
    else max_loop_val rec prune s player rest alpha' beta max_eval' best_move'
  end.

Fixpoint min_loop_val (rec : State → Score → Score → Score) (prune : bool)
    (s : State) (player : Z) (moves : list Move)
    (alpha beta min_eval : Score) (best_move : option Move) : Score * option Move :=
  match moves with
  | [] => (min_eval, best_move)
  | move :: rest =>
    let eval_score := rec (play s move player) alpha beta in
    let better := score_ltb eval_score min_eval in
    let min_eval' := if better then eval_score else min_eval in
    let best_move' := if better then Some move else best_move in
    let beta' := score_min beta eval_score in
    if prune && score_leb beta' alpha then (min_eval', best_move')
    else min_loop_val rec prune s player rest alpha beta' min_eval' best_move'
  end.

Fixpoint minimax_val (R : Runtime) (P : MinMaxPlayer) (prune : bool) (depth : nat)
    (s : State) (alpha beta : Score) (maximizing : bool) : Score * option Move :=
  match depth with
  | O => (heuristic_function P s (color P), None)
  | S depth' =>
    if is_game_over (grid s) then (heuristic_function P s (color P), None)
    else
      let valid :=
        list_of_set R (valid_moves (grid s) (if maximizing then color P else - color P)) in
      match valid with
      | [] => ((minimax_val R P prune depth' s alpha beta (negb maximizing)).1, None)
      | _ :: _ =>
        if maximizing then
          max_loop_val (λ s' a b, (minimax_val R P prune depth' s' a b false).1)
                       prune s (color P) valid alpha beta NegInf None
        else
          min_loop_val (λ s' a b, (minimax_val R P prune depth' s' a b true).1)
                       prune s (- color P) valid alpha beta PosInf None
      end
  end.

(** In the window [(a, b)] the pruned result [r] stands for the full value
    [v]: it is exact inside the window and lies on the same side outside. *)
Definition window_sound (a b r v : Score) : Prop :=
  (score_le v a → score_le r a) ∧
  (score_le b v → score_le b r) ∧
  (score_lt a v → score_lt v b → r = v).

(** The heap computation [m], run on [h], returns [v], touches no board or
    object of [h], and leaves a well-formed heap. *)
Definition refines {A} (m : St A) (h : Heap) (v : A) : Prop :=
  ∃ h', m h = (v, h') ∧ heap_extends h h' ∧ heap_wf h'.

(** ** [heuristics.py]: the evaluators as scores *)

Definition coin_parity_heuristic (s : State) (player : Z) : Score :=
  Fin (normalized (count_eq (grid s) player) (count_eq (grid s) (- player))).

(** ** [mcts.py] *)

Record MCTSAgent := {
  agent_id : Z;
  time_limit : option Qc;
  nb_iterations : nat;
  nb_rollouts : nat;
  c_param : Qc
}.

(** [get_node_key]: the grid as a tuple of tuples. *)
Definition get_node_key (s : State) : Board := grid s.

(** One entry of [node_info]: a dict with some of the keys ['visits'],
    ['wins'] and ['untried_moves'] (whose value may be [None]). *)
Record NodeInfo := {
  visits : option Z;
  wins : option Qc;
  untried_moves : option (option (list Move))
}.

Definition empty_info : NodeInfo :=
  {| visits := None; wins := None; untried_moves := None |}.

(** The heap, the agent's two dictionaries ([children] in insertion order,
    which [backpropagation] iterates), and the numbers [random.choice] will
    draw (zero once the list is used up). *)
Record World := {
  heap : Heap;
  children : list (Board * list Board);
  node_info : gmap Board NodeInfo;
  rng : list nat
}.

Inductive Exn := KeyError | ZeroDivisionError | IndexError.

Inductive Outcome (A : Type) :=
  | Done (a : A) (w : World)
  | Raised (e : Exn)
  | OutOfFuel.
Arguments Done {A} a w.
Arguments Raised {A} e.
Arguments OutOfFuel {A}.

Definition MM (A : Type) : Type := World → Outcome A.

Definition mm_ret {A} (a : A) : MM A := λ w, Done a w.

Definition mm_bind {A B} (m : MM A) (k : A → MM B) : MM B :=
  λ w, match m w with
       | Done a w' => k a w'
       | Raised e => Raised e
       | OutOfFuel => OutOfFuel
       end.

Notation "'let*' x ':=' m 'in' k" := (mm_bind m (λ x, k))
  (at level 10, x name, m at level 100, k at level 200, only parsing).

Definition raise {A} (e : Exn) : MM A := λ _, Raised e.

Definition require {A} (o : option A) : MM A :=
  match o with Some a => mm_ret a | None => raise KeyError end.

Definition lift {A} (m : St A) : MM A :=
  λ w, let '(a, h') := m (heap w) in
       Done a {| heap := h'; children := children w;
                 node_info := node_info w; rng := rng w |}.

Definition set_children (cs : list (Board * list Board)) : MM unit :=
  λ w, Done tt {| heap := heap w; children := cs; node_info := node_info w; rng := rng w |}.

Definition set_node_info (ni : gmap Board NodeInfo) : MM unit :=
  λ w, Done tt {| heap := heap w; children := children w; node_info := ni; rng := rng w |}.

(** An insertion-ordered dictionary. *)
Fixpoint dict_get {V} (k : Board) (d : list (Board * V)) : option V :=
  match d with
  | [] => None
  | (k', v) :: d' => if decide (k' = k) then Some v else dict_get k d'
  end.

Fixpoint dict_set {V} (k : Board) (v : V) (d : list (Board * V)) : list (Board * V) :=
  match d with
  | [] => [(k, v)]
  | (k', v') :: d' =>
    if decide (k' = k) then (k', v) :: d' else (k', v') :: dict_set k v d'
  end.

(** [self.children[k]] of a [defaultdict(list)]: a missing key is inserted. *)
Definition children_read (k : Board) : MM (list Board) :=
  λ w, match dict_get k (children w) with
       | Some kids => Done kids w
       | None =>
         Done [] {| heap := heap w; children := dict_set k [] (children w);
                    node_info := node_info w; rng := rng w |}
       end.

(** [self.children[k].append(c)] *)
Definition children_append (k c : Board) : MM unit :=
  let* kids := children_read k in
  λ w, set_children (dict_set k (kids ++ [c]) (children w)) w.

(** [self.node_info[k]] of a [defaultdict(dict)]. *)
Definition info_read (k : Board) : MM NodeInfo :=
  λ w, match node_info w !! k with
       | Some info => Done info w
       | None => Done empty_info
                   {| heap := heap w; children := children w;
                      node_info := <[k := empty_info]> (node_info w); rng := rng w |}
       end.

Definition info_write (k : Board) (info : NodeInfo) : MM unit :=
  λ w, set_node_info (<[k := info]> (node_info w)) w.

(** [random.choice(l)] *)
Definition random_choice {A} (l : list A) : MM A :=
  λ w, match l with
       | [] => Raised IndexError
       | x :: _ =>
         Done (nth (hd O (rng w) mod length l) l x)
              {| heap := heap w; children := children w;
                 node_info := node_info w; rng := tl (rng w) |}
       end.

Fixpoint mm_map {A B} (f : A → MM B) (l : list A) : MM (list B) :=
  match l with
  | [] => mm_ret []
  | x :: l' =>
    let* y := f x in
    let* ys := mm_map f l' in
    mm_ret (y :: ys)
  end.

(** [new_state = game_state.copy();
     new_state.apply_move(move, new_state.current_player);
     new_state.current_player *= -1] *)
Definition successor (game_state : nat) (move : Move) : MM nat :=
  let* new_state := lift (copy game_state) in
  let* player := lift (st_get (λ h, player_of h new_state)) in
  let* _ := lift (apply_move_at new_state move player) in
  let* _ := lift (flip_player new_state) in
  mm_ret new_state.

Definition key_of (game_state : nat) : MM Board :=
  lift (st_get (λ h, get_node_key (snapshot h game_state))).

(** The loop of [selection] that looks for the move to the best child;
    [rec] is [self.selection(new_state)], and the end of the list is the
    fallback [game_state.copy()]. *)
Fixpoint find_child (rec : nat → MM nat) (game_state : nat) (best_child_key : Board)
    (moves : list Move) : MM nat :=
  match moves with
  | [] => lift (copy game_state)
  | move :: rest =>
    let* new_state := successor game_state move in
    let* key := key_of new_state in
    if decide (key = best_child_key) then rec new_state
    else find_child rec game_state best_child_key rest
  end.

(** What [ucb1] reads of a child: [child_info['wins'] / child_info['visits']]
    raises on a missing key and on zero visits. *)
Definition child_stats (child_key : Board) : MM (Board * (Qc * Z)) :=
  let* child_info := info_read child_key in
  let* w := require (wins child_info) in
  let* v := require (visits child_info) in
  if v =? 0 then raise ZeroDivisionError else mm_ret (child_key, (w, v)).

(** [MCTSAgent.selection]; the recursion follows the tree, the fuel bounds
    its depth. *)
Fixpoint selection (fuel : nat) (R : Runtime) (A : MCTSAgent) (game_state : nat) : MM nat :=
  match fuel with
  | O => λ _, OutOfFuel
  | S fuel' =>
    let* s := lift (st_get (λ h, snapshot h game_state)) in
    let node_key := get_node_key s in
    let* known := λ w, Done (bool_decide (is_Some (node_info w !! node_key))) w in
    let* kids := if known then children_read node_key else mm_ret [] in
    if negb known || bool_decide (kids = []) then lift (copy game_state)
    else
      let* info := info_read node_key in
      let* parent_visits := require (visits info) in
      let* stats := mm_map child_stats kids in
      let best_child_key := ucb1_best R (c_param A) parent_visits stats in
      find_child (selection fuel' R A) game_state best_child_key
                 (list_of_set R (valid_moves (grid s) (to_move s)))
  end.

(** [list.remove(x)]: the first occurrence goes. *)
Fixpoint remove_first (x : Move) (l : list Move) : list Move :=
  match l with
  | [] => []
  | y :: l' => if decide (y = x) then l' else y :: remove_first x l'
  end.

(** [MCTSAgent.expansion] *)
Definition expansion (R : Runtime) (game_state : nat) : MM nat :=
  let* s := lift (st_get (λ h, snapshot h game_state)) in
  let node_key := get_node_key s in
  let* info := info_read node_key in
  let* _ :=
    match untried_moves info with
    | None =>
      info_write node_key
        {| visits := Some 0; wins := Some 0%Qc;
           untried_moves :=
             Some (Some (list_of_set R (valid_moves (grid s) (to_move s)))) |}
    | Some _ => mm_ret tt
    end in
  let* info := info_read node_key in
  match untried_moves info with
  | Some (Some (m0 :: ms)) =>
    let* move := random_choice (m0 :: ms) in
    let* _ := info_write node_key
                {| visits := visits info; wins := wins info;
                   untried_moves := Some (Some (remove_first move (m0 :: ms))) |} in
    let* new_state := successor game_state move in
    let* new_key := key_of new_state in
    let* _ := children_append node_key new_key in
    let* _ := info_read new_key in
    let* _ := info_write new_key
                {| visits := Some 0; wins := Some 0%Qc; untried_moves := Some None |} in
    mm_ret new_state
  | Some _ => lift (copy game_state)
  | None => raise KeyError
  end.

(** The [while] of [simulation]. *)
Fixpoint rollout (fuel : nat) (R : Runtime) (current_state : nat) : MM unit :=
  match fuel with
  | O => λ _, OutOfFuel
  | S fuel' =>
    let* s := lift (st_get (λ h, snapshot h current_state)) in
    if is_game_over (grid s) then mm_ret tt
    else
      let possible_moves := list_of_set R (valid_moves (grid s) (to_move s)) in
      let* _ :=
        match possible_moves with
        | [] => mm_ret tt
        | _ :: _ =>
          let* move := random_choice possible_moves in
          let* _ := lift (apply_move_at current_state move (to_move s)) in
          mm_ret tt
        end in
      let* _ := lift (flip_player current_state) in
      rollout fuel' R current_state
  end.

(** [MCTSAgent.simulation]: 1, 0.5 or 0 for the side to move at the start. *)
Definition simulation (fuel : nat) (R : Runtime) (game_state : nat) : MM Qc :=
  let* current_state := lift (copy game_state) in
  let* current_player := lift (st_get (λ h, player_of h current_state)) in
  let* _ := rollout fuel R current_state in
  let* b := lift (st_get (λ h, board_of h current_state)) in
  let black_count := count_eq b 1 in
  let white_count := count_eq b (-1) in
  mm_ret (if current_player =? 1 then
            if white_count <? black_count then 1%Qc
            else if black_count =? white_count then Q2Qc (1 # 2) else 0%Qc
          else
            if black_count <? white_count then 1%Qc
            else if white_count =? black_count then Q2Qc (1 # 2) else 0%Qc).

(** The parent of [node_key]: the first key of [children] whose list holds it. *)
Fixpoint find_parent (node_key : Board) (cs : list (Board * list Board)) : option Board :=
  match cs with
  | [] => None
  | (key, kids) :: cs' =>
    if bool_decide (node_key ∈ kids) then Some key else find_parent node_key cs'
  end.

(** [MCTSAgent.backpropagation] *)
Fixpoint backpropagation (fuel : nat) (node_key : option Board) (result : Qc) : MM unit :=
  match node_key with
  | None => mm_ret tt
  | Some key =>
    match fuel with
    | O => λ _, OutOfFuel
    | S fuel' =>
      let* info := info_read key in
      let* v := require (visits info) in
      let* _ := info_write key {| visits := Some (v + 1); wins := wins info;
                                  untried_moves := untried_moves info |} in
      let* info := info_read key in
      let* w := require (wins info) in
      let* _ := info_write key {| visits := visits info; wins := Some (w + result)%Qc;
                                  untried_moves := untried_moves info |} in
      let* parent_key := λ w, Done (find_parent key (children w)) w in
      backpropagation fuel' parent_key (1 - result)%Qc
    end
  end.

(** [for _ in range(self.nb_rollouts)] *)
Fixpoint rollouts (n : nat) (fuel : nat) (R : Runtime) (expanded_state : nat)
    (expanded_key : Board) : MM unit :=
  match n with
  | O => mm_ret tt
  | S n' =>
    let* g := lift (copy expanded_state) in
    let* result := simulation fuel R g in
    let* _ := backpropagation fuel (Some expanded_key) result in
    rollouts n' fuel R expanded_state expanded_key
  end.

(** One pass of the search loop: selection, expansion, rollouts. *)
Definition search_cycle (fuel : nat) (R : Runtime) (A : MCTSAgent) (game_state : nat)
  : MM unit :=
  let* g := lift (copy game_state) in
  let* selected_state := selection fuel R A g in
  let* g' := lift (copy selected_state) in
  let* expanded_state := expansion R g' in
  let* expanded_key := key_of expanded_state in
  rollouts (nb_rollouts A) fuel R expanded_state expanded_key.

Fixpoint search_cycles (n : nat) (fuel : nat) (R : Runtime) (A : MCTSAgent)
    (game_state : nat) : MM unit :=
  match n with
  | O => mm_ret tt
  | S n' =>
    let* _ := search_cycle fuel R A game_state in
    search_cycles n' fuel R A game_state
  end.

(** [max(l, key=...)]: the first of the largest. *)
Fixpoint first_max (best : Board * Z) (l : list (Board * Z)) : Board * Z :=
  match l with
  | [] => best
  | x :: l' => first_max (if best.2 <? x.2 then x else best) l'
  end.

Definition visit_count (k : Board) : MM (Board * Z) :=
  let* info := info_read k in
  let* v := require (visits info) in
  mm_ret (k, v).

(** The last loop of [timed_search]: the first move whose successor has the
    key of the best child. *)
Fixpoint find_move (game_state : nat) (best_child_key : Board) (moves : list Move)
  : MM (option Move) :=
  match moves with
  | [] => mm_ret None
  | move :: rest =>
    let* new_state := successor game_state move in
    let* key := key_of new_state in
    if decide (key = best_child_key) then mm_ret (Some move)
    else find_move game_state best_child_key rest
  end.

(** The choice after the budget: the most visited child of the root. *)
Definition most_visited_move (R : Runtime) (game_state : nat) (root_key : Board)
  : MM (option Move) :=
  let* entry := λ w, Done (dict_get root_key (children w)) w in
  match entry with
  | None | Some [] => mm_ret None
  | Some (k :: kids) =>
    let* first := visit_count k in
    let* others := mm_map visit_count kids in
    let best_child_key := (first_max first others).1 in
    let* s := lift (st_get (λ h, snapshot h game_state)) in
    find_move game_state best_child_key
              (list_of_set R (valid_moves (grid s) (to_move s)))
  end.

(** [MCTSAgent.timed_search]; [cycles] is the number of passes the clock
    allows before [time.time() - start_time < self.time_limit] fails. *)
Definition timed_search (cycles fuel : nat) (R : Runtime) (A : MCTSAgent) (game_state : nat)
  : MM (option Move) :=
  let* root_key := key_of game_state in
  let* _ := search_cycles cycles fuel R A game_state in
  most_visited_move R game_state root_key.

(** [MCTSAgent.get_move] *)
Definition mcts_get_move (cycles fuel : nat) (R : Runtime) (A : MCTSAgent) (game : nat)
  : MM (option Move) :=
  match time_limit A with
  | Some _ => timed_search cycles fuel R A game
  | None =>
    let* root_key := key_of game in
    let* _ := search_cycles (nb_iterations A) fuel R A game in
    most_visited_move R game root_key
  end.

(** The agent as [__init__] leaves it: both dictionaries empty. *)
Definition fresh_world (h : Heap) (numbers : list nat) : World :=
  {| heap := h; children := []; node_info := ∅; rng := numbers |}.

(** ** Heaps during a search

    Since the heap [h0] of the caller, [h] has only gained objects, each
    made by [copy] together with a board of its own: the i-th new object
    owns the i-th new board. *)
Definition aligned (h0 h : Heap) : Prop :=
  ∃ objs arrs,
    games h = games h0 ++ objs ∧ arrays h = arrays h0 ++ arrs ∧
    length objs = length arrs ∧
    ∀ i o, objs !! i = Some o → board_ref o = (length (arrays h0) + i)%nat.

(** Run on a world whose heap is aligned with [h0], the computation [m], if
    it returns, leaves such a world, with no object lost, and a result that
    satisfies [Q]. *)
Definition keeps (h0 : Heap) {A} (m : MM A) (Q : A → Prop) : Prop :=
  ∀ w a w', aligned h0 (heap w) → m w = Done a w' →
    aligned h0 (heap w') ∧ Q a.

(** The object [g] was made after [h0]. *)
Definition made_after (h0 : Heap) (g : nat) : Prop := (length (games h0) ≤ g)%nat.

(** ** Concrete positions and agents *)

(** A game object on the opening position, Black to move. *)
Definition opening_heap : Heap :=
  {| arrays := [init_board]; games := [{| board_ref := 0; current_player := 1 |}] |}.

(** The opening after Black's move to (2, 3). *)
Definition after_first_move : Board := (apply_move init_board (2, 3) 1).2.

(** Black on (0, 0), White on (0, 1): Black can move to (0, 2), White cannot
    move. *)
Definition pass_board : Board := set_cell (set_cell zeros 0 0 1) 0 1 (-1).

Definition pass_heap : Heap :=
  {| arrays := [pass_board]; games := [{| board_ref := 0; current_player := -1 |}] |}.

(** [MinMaxPlayer(1, heuristic_function=coin_parity_heuristic, depth=3)] and
    its White counterpart. *)
Definition black_minmax : MinMaxPlayer :=
  {| color := 1; depth := 3; heuristic_function := coin_parity_heuristic |}.

Definition white_minmax : MinMaxPlayer :=
  {| color := -1; depth := 3; heuristic_function := coin_parity_heuristic |}.

(** [MCTSAgent(1)] with the default parameters. *)
Definition black_mcts : MCTSAgent :=
  {| agent_id := 1; time_limit := Some (Qc_of_Z 3); nb_iterations := 1000;
     nb_rollouts := 1; c_param := Q2Qc (14 # 10) |}.

Definition is_done {A} (o : Outcome A) : bool :=
  match o with Done _ _ => true | _ => false end.

(** ** The tree of a search from a fresh agent *)

(** The state after [move] by the side to move, with the turn passed on. *)
Definition succ_state (s : State) (move : Move) : State :=
  {| grid := (apply_move (grid s) move (to_move s)).2; to_move := to_move s * -1 |}.

(** [node_info[k]['visits']], zero for a key that is not there. *)
Definition visits_of (w : World) (k : Board) : Z :=
  default 0 (node_info w !! k ≫= visits).

Definition kids_of (w : World) (k : Board) : list Board :=
  default [] (dict_get k (children w)).

(** The key [c] is the key of a successor of [s0]. *)
Definition is_succ (s0 : State) (c : Board) : Prop :=
  ∃ m, m ∈ valid_moves (grid s0) (to_move s0) ∧ c = get_node_key (succ_state s0 m).

(** The world with another heap. *)
Definition with_heap (H : Heap) (w : World) : World :=
  {| heap := H; children := children w; node_info := node_info w; rng := rng w |}.

Definition with_children (cs : list (Board * list Board)) (w : World) : World :=
  {| heap := heap w; children := cs; node_info := node_info w; rng := rng w |}.

Definition with_info (ni : gmap Board NodeInfo) (w : World) : World :=
  {| heap := heap w; children := children w; node_info := ni; rng := rng w |}.

(** The statistics of the root: moves still to try, all of them legal. *)
Definition root_info_ok (s0 : State) (info : NodeInfo) : Prop :=
  (∃ l, untried_moves info = Some (Some l) ∧
        ∀ m, m ∈ l → m ∈ valid_moves (grid s0) (to_move s0)) ∧
  (∃ v, visits info = Some v ∧ 0 ≤ v) ∧ is_Some (wins info).

(** The statistics of another node: ['untried_moves'] is [None]. *)
Definition other_info_ok (info : NodeInfo) : Prop :=
  untried_moves info = Some None ∧
  (∃ v, visits info = Some v ∧ 0 ≤ v) ∧ is_Some (wins info).

(** What a search from the root state [s0] keeps true of the two
    dictionaries of a fresh agent: only the root has children, they are keys
    of successors of the root and have statistics, and a key other than the
    root is never given moves to try. *)
Record tree_inv (s0 : State) (w : World) : Prop := {
  inv_leaf : ∀ k kids, (k, kids) ∈ children w → k ≠ get_node_key s0 → kids = [];
  inv_kids : ∀ kids c, (get_node_key s0, kids) ∈ children w → c ∈ kids →
    is_succ s0 c ∧ is_Some (node_info w !! c);
  inv_root_known : ∀ kids, (get_node_key s0, kids) ∈ children w → kids ≠ [] →
    is_Some (node_info w !! get_node_key s0);
  inv_root : ∀ info, node_info w !! get_node_key s0 = Some info → root_info_ok s0 info;
  inv_other : ∀ c info, c ≠ get_node_key s0 → node_info w !! c = Some info →
    other_info_ok info
}.

(** Every child of the root but [k] has been visited. *)
Definition kids_visited_but (s0 : State) (k : option Board) (w : World) : Prop :=
  ∀ kids c, (get_node_key s0, kids) ∈ children w → c ∈ kids → Some c ≠ k →
    1 ≤ visits_of w c.

Definition keeps_states (w w' : World) : Prop :=
  (length (games (heap w)) ≤ length (games (heap w')))%nat ∧
  ∀ l, (l < length (games (heap w)))%nat →
       snapshot (heap w') l = snapshot (heap w) l.

Definition same_tree (w w' : World) : Prop :=
  children w' = children w ∧ node_info w' = node_info w.

(** The heap after [successor l move]. *)
Definition succ_heap (l : nat) (move : Move) (H : Heap) : Heap :=
  let H1 := (copy l H).2 in
  let new := length (games H) in
  let H2 := (apply_move_at new move (player_of H1 new) H1).2 in
  (flip_player new H2).2.

(** What [selection] leaves behind: the heap has only grown, the statistics
    are untouched, and [children] has at most gained empty entries. *)
Definition selection_post (h : Heap) (s0 : State) (w : World) (loc : nat) (w' : World)
  : Prop :=
  aligned h (heap w') ∧ keeps_states w w' ∧ (loc < length (games (heap w')))%nat ∧
  tree_inv s0 w' ∧ kids_visited_but s0 None w' ∧ node_info w' = node_info w ∧
  (∀ k, kids_of w' k = kids_of w k).

(** What holds between two passes of the search from the root state [s0]. *)
Definition search_inv (h : Heap) (s0 : State) (w : World) : Prop :=
  aligned h (heap w) ∧ tree_inv s0 w ∧ kids_visited_but s0 None w.

(** The number of passes of [get_move]: what the clock allows, or
    [nb_iterations] when there is no time limit. *)
Definition passes (cycles : nat) (A : MCTSAgent) : nat :=
  match time_limit A with Some _ => cycles | None => nb_iterations A end.

(** ** [player.py] and the loop of [Othello.play] *)

(** [Player.get_move]: a random legal move for an ['ai'] player, [None] for a
    human one or when there is no move; [pick] is what [random.choice] draws. *)
Definition player_get_move (R : Runtime) (ai : bool) (color : Z) (s : State) (pick : nat)
  : option Move :=
  if ai then
    let valid := list_of_set R (valid_moves (grid s) color) in
    match valid with
    | [] => None
    | x :: _ => Some (nth (pick mod length valid) valid x)
    end
  else None.

(** The turn of an agent in [Othello.play]: an agent's move is applied, and
    the turn passes to the other side if it has a move. *)
Definition turn (move : option Move) (s : State) : State :=
  match move with
  | Some m =>
    let b' := (apply_move (grid s) m (to_move s)).2 in
    {| grid := b';
       to_move := if bool_decide (valid_moves b' (- to_move s) = ∅)
                  then to_move s else to_move s * -1 |}
  | None => s
  end.

(** The [while self.running] loop of [Othello.play] between two agents; the
    n-th turn asks [agent n] for a move, and the loop ends when the game is
    over after a turn. *)
Fixpoint play_loop (fuel : nat) (agent : nat → State → option Move) (n : nat) (s : State)
  : option State :=
  match fuel with
  | O => None
  | S fuel' =>
    let s' := turn (agent n s) s in
    if is_game_over (grid s') then Some s' else play_loop fuel' agent (S n) s'
  end.

(** What [Othello.play] returns: 0 for a draw, 1 if Black has more disks,
    -1 otherwise. *)
Definition play_result (s : State) : Z :=
  let black_count := count_eq (grid s) 1 in
  let white_count := count_eq (grid s) (-1) in
  if black_count =? white_count then 0
  else if white_count <? black_count then 1 else -1.

(** The opening of a game: the initial board, Black to move. *)
Definition opening : State := {| grid := init_board; to_move := 1 |}.

(** Two ['ai'] players of [player.py], one of each colour. *)
Definition random_players (R : Runtime) (picks : nat → nat) (n : nat) (s : State)
  : option Move :=
  player_get_move R true (to_move s) s (picks n).

(** * Proofs *)


Lemma in_bounds_iff r c : in_bounds r c = true ↔ 0 ≤ r < 8 ∧ 0 ≤ c < 8.
Proof. unfold in_bounds. rewrite !andb_true_iff, !Z.leb_le, !Z.ltb_lt. lia. Qed.

Lemma in_bounds_false_iff r c : in_bounds r c = false ↔ ¬ (0 ≤ r < 8 ∧ 0 ≤ c < 8).
Proof. rewrite <- in_bounds_iff. destruct (in_bounds r c); naive_solver. Qed.

Lemma elem_of_range8 r : r ∈ range8 ↔ 0 ≤ r < 8.
Proof.
  unfold range8. rewrite !elem_of_cons, elem_of_nil. lia.
Qed.

Lemma elem_of_directions d :
  d ∈ directions ↔ -1 ≤ d.1 ≤ 1 ∧ -1 ≤ d.2 ≤ 1 ∧ ¬ (d.1 = 0 ∧ d.2 = 0).
Proof.
  destruct d as [dr dc]. unfold directions.
  rewrite !elem_of_cons, elem_of_nil. simpl. split.
  - intros H. repeat destruct H as [H|H]; inversion H; subst; lia.
  - intros (Hr & Hc & Hne).
    assert (dr = -1 ∨ dr = 0 ∨ dr = 1) as Hdr by lia.
    assert (dc = -1 ∨ dc = 0 ∨ dc = 1) as Hdc by lia.
    destruct Hdr as [-> | [-> | ->]], Hdc as [-> | [-> | ->]]; try lia; tauto.
Qed.

Lemma directions_opp d : d ∈ directions → (- d.1, - d.2) ∈ directions.
Proof. rewrite !elem_of_directions. simpl. lia. Qed.

Lemma wf_set_cell b r c v : wf_board b → wf_board (set_cell b r c v).
Proof.
  intros [Hl Hr]. unfold set_cell. split.
  - by rewrite length_alter.
  - rewrite Forall_lookup in Hr |- *. intros i row Hi.
    rewrite list_lookup_alter in Hi. case_decide; subst.
    + destruct (b !! Z.to_nat r) as [row0|] eqn:E; simplify_eq/=.
      rewrite length_insert. eauto.
    + eauto.
Qed.

Lemma cell_set_cell b r c v r' c' :
  wf_board b → 0 ≤ r < 8 → 0 ≤ c < 8 → 0 ≤ r' → 0 ≤ c' →
  cell (set_cell b r c v) r' c' = if decide ((r', c') = (r, c)) then v else cell b r' c'.
Proof.
  intros [Hl Hr] Hrb Hcb Hr' Hc'. unfold cell, set_cell.
  rewrite list_lookup_alter.
  destruct (decide (Z.to_nat r = Z.to_nat r')) as [Heq|Hne].
  - assert (r' = r) as -> by lia.
    destruct (b !! Z.to_nat r) as [row|] eqn:E.
    2:{ apply lookup_ge_None in E. lia. }
    simpl. assert (length row = 8%nat) as Hrow.
    { rewrite Forall_lookup in Hr. eauto. }
    destruct (decide (c' = c)) as [-> | Hc].
    + rewrite list_lookup_insert_eq by lia. by rewrite decide_True.
    + rewrite list_lookup_insert_ne by lia. rewrite decide_False by congruence. done.
  - rewrite decide_False; [done|]. intros [= -> ->]. done.
Qed.

Lemma cell_set_cell_eq b r c v :
  wf_board b → 0 ≤ r < 8 → 0 ≤ c < 8 → cell (set_cell b r c v) r c = v.
Proof. intros. rewrite cell_set_cell by (done || lia). by rewrite decide_True. Qed.

Lemma cell_set_cell_ne b r c v r' c' :
  wf_board b → 0 ≤ r < 8 → 0 ≤ c < 8 → 0 ≤ r' → 0 ≤ c' → (r', c') ≠ (r, c) →
  cell (set_cell b r c v) r' c' = cell b r' c'.
Proof. intros. rewrite cell_set_cell by (done || lia). by rewrite decide_False. Qed.

Lemma wf_zeros : wf_board zeros.
Proof. split; [done|]. unfold zeros. repeat constructor. Qed.

Lemma wf_init_board : wf_board init_board.
Proof. unfold init_board. repeat apply wf_set_cell. apply wf_zeros. Qed.


Ltac coords :=
  match goal with
  | H : in_bounds ?x ?y = ?v |- in_bounds ?x' ?y' = ?v =>
      replace x' with x by lia; replace y' with y by lia; exact H
  | H : cell ?b ?x ?y = _ |- cell ?b ?x' ?y' = _ =>
      replace x' with x by lia; replace y' with y by lia; first [exact H | rewrite H; lia]
  | H : cell ?b ?x ?y ≠ _ |- cell ?b ?x' ?y' ≠ _ =>
      replace x' with x by lia; replace y' with y by lia; exact H
  end.

Lemma scan_spec f b p nr nc dr dc found m :
  p ≠ 0 →
  scan f b p nr nc dr dc found = Some m ↔
  ∃ n, 0 ≤ n < Z.of_nat f ∧
       (∀ j, 0 ≤ j < n →
          in_bounds (nr + j * dr) (nc + j * dc) = true ∧
          cell b (nr + j * dr) (nc + j * dc) = - p) ∧
       m = (nr + n * dr, nc + n * dc) ∧
       in_bounds (nr + n * dr) (nc + n * dc) = true ∧
       cell b (nr + n * dr) (nc + n * dc) = 0 ∧
       (found = true ∨ 1 ≤ n).
Proof.
  intros Hp. revert nr nc found. induction f as [|f IH]; intros nr nc found.
  { simpl. split; [done|]. intros (n & ? & _). lia. }
  cbn [scan].
  destruct (in_bounds nr nc) eqn:Hin.
  2:{ split; [done|]. intros (n & Hn & Hrun & _ & Hinm & _).
      destruct (decide (n = 0)) as [-> | Hn0].
      - assert (in_bounds nr nc = true) by coords. congruence.
      - destruct (Hrun 0) as [Hin0 _]; [lia|].
        assert (in_bounds nr nc = true) by coords. congruence. }
  destruct (cell b nr nc =? - p) eqn:Hopp.
  - apply Z.eqb_eq in Hopp. rewrite IH. split.
    + intros (n & Hn & Hrun & -> & Hinm & Hcell & _).
      exists (n + 1). split; [lia|]. split; [|split; [|split; [|split]]].
      * intros j Hj. destruct (decide (j = 0)) as [-> | Hj0].
        { split; coords. }
        destruct (Hrun (j - 1)) as [H1 H2]; [lia|]. split; coords.
      * f_equal; lia.
      * coords.
      * coords.
      * right; lia.
    + intros (n & Hn & Hrun & -> & Hinm & Hcell & _).
      assert (n ≠ 0) as Hn0.
      { intros ->. assert (cell b nr nc = 0) by coords. lia. }
      exists (n - 1). split; [lia|]. split; [|split; [|split; [|split]]].
      * intros j Hj. destruct (Hrun (j + 1)) as [H1 H2]; [lia|]. split; coords.
      * f_equal; lia.
      * coords.
      * coords.
      * by left.
  - apply Z.eqb_neq in Hopp.
    destruct (cell b nr nc =? 0) eqn:Hz; simpl.
    + apply Z.eqb_eq in Hz. destruct found; simpl.
      * split.
        { intros [= <-]. exists 0. split; [lia|]. split; [intros; lia|].
          split; [f_equal; lia|]. split; [coords|]. split; [coords|]. by left. }
        { intros (n & Hn & Hrun & -> & _).
          destruct (decide (n = 0)) as [-> | Hn0]; [f_equal; f_equal; lia|].
          destruct (Hrun 0) as [_ H0]; [lia|].
          assert (cell b nr nc = - p) by coords. lia. }
      * split; [done|]. intros (n & Hn & Hrun & _ & _ & _ & [?|Hn1]); [done|].
        destruct (Hrun 0) as [_ H0]; [lia|].
        assert (cell b nr nc = - p) by coords. lia.
    + apply Z.eqb_neq in Hz. split; [done|].
      intros (n & Hn & Hrun & _ & _ & Hc & _).
      destruct (decide (n = 0)) as [-> | Hn0].
      * assert (cell b nr nc = 0) by coords. lia.
      * destruct (Hrun 0) as [_ H0]; [lia|].
        assert (cell b nr nc = - p) by coords. lia.
Qed.

Lemma scan_player_0 f b nr nc dr dc found :
  scan f b 0 nr nc dr dc found = None.
Proof.
  revert nr nc found. induction f as [|f IH]; intros; [done|]. cbn [scan].
  destruct (in_bounds nr nc); [|done].
  change (- 0) with 0.
  destruct (cell b nr nc =? 0) eqn:E; [apply IH|done].
Qed.

(** More fuel than eight changes nothing: a walk in one of the eight
    directions has left the board by then. *)
Lemma scan_fuel f b p r c d found :
  d ∈ directions → 0 ≤ r < 8 → 0 ≤ c < 8 → (8 ≤ f)%nat →
  scan f b p (r + d.1) (c + d.2) d.1 d.2 found =
  scan 8 b p (r + d.1) (c + d.2) d.1 d.2 found.
Proof.
  intros Hd Hr Hc Hf.
  destruct (decide (p = 0)) as [-> | Hp]; [by rewrite !scan_player_0|].
  apply elem_of_directions in Hd. destruct d as [dr dc]; cbn [fst snd] in *.
  apply option_eq. intros m. rewrite !scan_spec by done.
  split; intros (n & Hn & Hrun & Hm & Hin & Hrest); exists n;
    (split; [|done]); apply in_bounds_iff in Hin; lia.
Qed.


Lemma elem_of_foldl_acc {A} (g : gset Move → A → gset Move) (P : A → Move → Prop)
    (l : list A) (s0 : gset Move) (x : Move) :
  (∀ s a y, y ∈ g s a ↔ y ∈ s ∨ P a y) →
  x ∈ foldl g s0 l ↔ x ∈ s0 ∨ ∃ a, a ∈ l ∧ P a x.
Proof.
  intros Hg. revert s0. induction l as [|a l IH]; intros s0; simpl.
  - split; [by left|]. intros [?|(a & Ha & _)]; [done|]. by apply elem_of_nil in Ha.
  - rewrite IH, Hg. setoid_rewrite elem_of_cons. naive_solver.
Qed.

Lemma elem_of_scan_from b p r c s d y :
  y ∈ scan_from b p r c s d ↔
  y ∈ s ∨ scan 8 b p (r + d.1) (c + d.2) d.1 d.2 false = Some y.
Proof.
  unfold scan_from. destruct (scan 8 b p _ _ _ _ false) as [m|].
  - rewrite elem_of_union, elem_of_singleton. naive_solver.
  - naive_solver.
Qed.

Lemma elem_of_valid_moves b p m :
  m ∈ valid_moves b p ↔
  ∃ r c d, 0 ≤ r < 8 ∧ 0 ≤ c < 8 ∧ cell b r c = p ∧ d ∈ directions ∧
           scan 8 b p (r + d.1) (c + d.2) d.1 d.2 false = Some m.
Proof.
  unfold valid_moves.
  rewrite (elem_of_foldl_acc _ (λ r y, ∃ c d, 0 ≤ c < 8 ∧ cell b r c = p ∧ d ∈ directions ∧
             scan 8 b p (r + d.1) (c + d.2) d.1 d.2 false = Some y)).
  - rewrite elem_of_empty. setoid_rewrite elem_of_range8. split; [intros [[]|(r & ? & c & d & ?)]; exists r, c, d; tauto | intros (r & c & d & ?); right; exists r; split; [tauto|]; exists c, d; tauto].
  - intros s r y.
    rewrite (elem_of_foldl_acc _ (λ c y, cell b r c = p ∧ ∃ d, d ∈ directions ∧
             scan 8 b p (r + d.1) (c + d.2) d.1 d.2 false = Some y)).
    + setoid_rewrite elem_of_range8. naive_solver.
    + intros s' c y'. destruct (cell b r c =? p) eqn:E; cbn [negb].
      * apply Z.eqb_eq in E.
        rewrite (elem_of_foldl_acc _ (λ d y,
                   scan 8 b p (r + d.1) (c + d.2) d.1 d.2 false = Some y)).
        { naive_solver. }
        intros. apply elem_of_scan_from.
      * apply Z.eqb_neq in E. naive_solver.
Qed.

Lemma valid_moves_player_0 b : valid_moves b 0 = ∅.
Proof.
  apply set_eq. intros m. rewrite elem_of_valid_moves, elem_of_empty.
  split; [|done]. intros (r & c & d & _ & _ & _ & _ & H).
  by rewrite scan_player_0 in H.
Qed.

Ltac dir_cases d Hd :=
  let dr := fresh "dr" in let dc := fresh "dc" in
  destruct d as [dr dc]; cbn [fst snd] in *;
  let H1 := fresh in let H2 := fresh in
  pose proof (proj1 (elem_of_directions _) Hd) as (H1 & H2 & ?); cbn [fst snd] in *;
  assert (dr = -1 ∨ dr = 0 ∨ dr = 1) as [-> | [-> | ->]] by lia;
  assert (dc = -1 ∨ dc = 0 ∨ dc = 1) as [-> | [-> | ->]] by lia;
  try lia.

(** [valid_moves] returns exactly the legal moves. *)
Lemma valid_moves_legal b p m : m ∈ valid_moves b p ↔ legal b p m.
Proof.
  destruct (decide (p = 0)) as [-> | Hp].
  { rewrite valid_moves_player_0, elem_of_empty. unfold legal. naive_solver. }
  rewrite elem_of_valid_moves. unfold legal, bracket, opp_run. split.
  - intros (r & c & d & Hr & Hc & Hcell & Hd & Hscan).
    apply scan_spec in Hscan; [|done].
    destruct Hscan as (n & Hn & Hrun & -> & Hin & Hz & [?|Hn1]); [done|].
    cbn [fst snd]. split; [done|]. split; [done|]. split; [done|].
    exists (- d.1, - d.2), n. split; [by apply directions_opp|]. cbn [fst snd].
    split; [lia|]. split; [|split].
    + intros j Hj. destruct (Hrun (n - j)) as [H1 H2]; [lia|]. split; coords.
    + apply in_bounds_iff. lia.
    + coords.
  - intros (_ & Hin & Hz & d & n & Hd & Hn & Hrun & Hin' & Hcell).
    destruct m as [mr mc]; cbn [fst snd] in *.
    exists (mr + (n + 1) * d.1), (mc + (n + 1) * d.2), (- d.1, - d.2).
    apply in_bounds_iff in Hin'. split; [lia|]. split; [lia|]. split; [done|].
    split; [by apply directions_opp|]. cbn [fst snd].
    apply scan_spec; [done|]. exists n.
    apply in_bounds_iff in Hin.
    split. { dir_cases d Hd. }
    split; [|split; [|split; [|split]]].
    + intros j Hj. destruct (Hrun (n - j)) as [H1 H2]; [lia|]. split; coords.
    + f_equal; lia.
    + apply in_bounds_iff. lia.
    + coords.
    + right; lia.
Qed.


Lemma skip_opponent_spec f b o nr nc dr dc :
  ∃ n, 0 ≤ n ≤ Z.of_nat f ∧
       (∀ j, 0 ≤ j < n →
          in_bounds (nr + j * dr) (nc + j * dc) = true ∧
          cell b (nr + j * dr) (nc + j * dc) = o) ∧
       skip_opponent f b o nr nc dr dc = (nr + n * dr, nc + n * dc) ∧
       (n < Z.of_nat f →
          ¬ (in_bounds (nr + n * dr) (nc + n * dc) = true ∧
             cell b (nr + n * dr) (nc + n * dc) = o)).
Proof.
  revert nr nc. induction f as [|f IH]; intros nr nc.
  { exists 0. split; [lia|]. split; [intros; lia|]. split; [|lia].
    cbn [skip_opponent]. f_equal; lia. }
  cbn [skip_opponent].
  destruct (in_bounds nr nc && (cell b nr nc =? o)) eqn:E.
  - apply andb_true_iff in E as [Hin Ho]. apply Z.eqb_eq in Ho.
    destruct (IH (nr + dr) (nc + dc)) as (n & Hn & Hrun & Heq & Hstop).
    exists (n + 1). split; [lia|]. split; [|split].
    + intros j Hj. destruct (decide (j = 0)) as [-> | Hj0]; [split; coords|].
      destruct (Hrun (j - 1)) as [H1 H2]; [lia|]. split; coords.
    + rewrite Heq. f_equal; lia.
    + intros Hlt [H1 H2]. apply Hstop; [lia|]. split; coords.
  - exists 0. split; [lia|]. split; [intros; lia|]. split; [f_equal; lia|].
    intros _ [H1 H2]. apply andb_false_iff in E.
    assert (in_bounds nr nc = true) as Hin by coords.
    assert (cell b nr nc = o) as Ho by coords.
    rewrite Hin in E. apply Z.eqb_eq in Ho. rewrite Ho in E. by destruct E.
Qed.

Lemma captures_bracket b p r c d :
  d ∈ directions → 0 ≤ r < 8 → 0 ≤ c < 8 →
  captures b p r c d = true ↔ p ≠ 0 ∧ ∃ n, bracket b p r c d.1 d.2 n.
Proof.
  intros Hd Hr Hc. unfold captures.
  destruct (skip_opponent_spec 8 b (- p) (r + d.1) (c + d.2) d.1 d.2)
    as (n & Hn & Hrun & Heq & Hstop).
  rewrite Heq. clear Heq. unfold bracket, opp_run. split.
  - destruct (in_bounds (r + d.1) (c + d.2) && (cell b (r + d.1) (c + d.2) =? - p)) eqn:E;
      [|done].
    apply andb_true_iff in E as [Hin1 Ho1]. apply Z.eqb_eq in Ho1.
    intros [Hin Hp]%andb_true_iff. apply Z.eqb_eq in Hp.
    assert (1 ≤ n) as Hn1.
    { destruct (decide (n = 0)) as [-> | ?]; [|lia].
      exfalso. apply Hstop; [lia|]. split; coords. }
    assert (p ≠ 0) as Hp0.
    { intros ->. destruct (decide (n = 8)) as [-> | ?].
      - apply in_bounds_iff in Hin. dir_cases d Hd.
      - apply Hstop; [lia|]. split; [done|]. rewrite Hp. lia. }
    split; [done|]. exists n. split; [done|]. split; [|split].
    + intros j Hj. destruct (Hrun (j - 1)) as [H1 H2]; [lia|]. split; coords.
    + coords.
    + coords.
  - intros (Hp0 & n' & Hn' & Hrun' & Hin' & Hp').
    destruct (Hrun' 1) as [Hin1 Ho1]; [lia|].
    assert (in_bounds (r + d.1) (c + d.2) = true) as -> by coords.
    assert (cell b (r + d.1) (c + d.2) = - p) as -> by coords.
    rewrite Z.eqb_refl. cbn [andb].
    assert (n' ≤ 7) as Hn7. { apply in_bounds_iff in Hin'. dir_cases d Hd. }
    assert (n = n') as ->.
    { destruct (Z.lt_trichotomy n n') as [Hlt | [-> | Hgt]]; [|done|].
      - exfalso. apply Hstop; [lia|].
        destruct (Hrun' (n + 1)) as [H1 H2]; [lia|]. split; coords.
      - exfalso. destruct (Hrun n') as [H1 H2]; [lia|].
        assert (cell b (r + (n' + 1) * d.1) (c + (n' + 1) * d.2) = - p) by coords. lia. }
    apply andb_true_iff. split; [coords|]. apply Z.eqb_eq. coords.
Qed.

Lemma elem_of_utils_directions d : d ∈ utils_directions ↔ d ∈ directions.
Proof.
  unfold utils_directions, directions. rewrite !elem_of_cons, !elem_of_nil. tauto.
Qed.

Lemma elem_of_try_directions b p r c ds s y :
  y ∈ try_directions b p r c ds s ↔
  y ∈ s ∨ (y = (r, c) ∧ ∃ d, d ∈ ds ∧ captures b p r c d = true).
Proof.
  induction ds as [|d ds IH]; cbn [try_directions].
  - split; [by left|]. intros [?|(_ & d & Hd & _)]; [done|]. by apply elem_of_nil in Hd.
  - destruct (captures b p r c d) eqn:E.
    + rewrite elem_of_union, elem_of_singleton. split.
      * intros [->|?]; [right|by left]. split; [done|]. exists d. split; [left|done].
      * intros [?|[-> _]]; [by right|by left].
    + rewrite IH. split.
      * intros [?|(-> & d' & Hd' & Hc')]; [by left|right]. split; [done|].
        exists d'. split; [by right|done].
      * intros [?|(-> & d' & Hd' & Hc')]; [by left|right]. split; [done|].
        exists d'. split; [|done]. apply elem_of_cons in Hd' as [-> | ?]; [congruence|done].
Qed.

Lemma elem_of_find_valid_moves b p m :
  m ∈ find_valid_moves b p ↔
  0 ≤ m.1 < 8 ∧ 0 ≤ m.2 < 8 ∧ cell b m.1 m.2 = 0 ∧
  ∃ d, d ∈ directions ∧ captures b p m.1 m.2 d = true.
Proof.
  unfold find_valid_moves.
  rewrite (elem_of_foldl_acc _ (λ r y, ∃ c, 0 ≤ c < 8 ∧ cell b r c = 0 ∧ y = (r, c) ∧
             ∃ d, d ∈ directions ∧ captures b p r c d = true)).
  - rewrite elem_of_empty. setoid_rewrite elem_of_range8. destruct m as [mr mc]. split.
    + intros [[]|(r & Hr & c & Hc & Hz & [= -> ->] & Hd)]. done.
    + cbn [fst snd]. intros (Hr & Hc & Hz & Hd). right. exists mr. split; [done|].
      by exists mc.
  - intros s r y.
    rewrite (elem_of_foldl_acc _ (λ c y, cell b r c = 0 ∧ y = (r, c) ∧
             ∃ d, d ∈ directions ∧ captures b p r c d = true)).
    + setoid_rewrite elem_of_range8. split.
      * intros [?|(c & ? & ? & ? & ?)]; [by left|right]. by exists c.
      * intros [?|(c & ? & ? & ? & ?)]; [by left|right]. by exists c.
    + intros s' c y'. destruct (cell b r c =? 0) eqn:E; cbn [negb].
      * apply Z.eqb_eq in E. rewrite elem_of_try_directions.
        setoid_rewrite elem_of_utils_directions. tauto.
      * apply Z.eqb_neq in E. tauto.
Qed.

Lemma find_valid_moves_legal b p m : m ∈ find_valid_moves b p ↔ legal b p m.
Proof.
  rewrite elem_of_find_valid_moves. unfold legal. rewrite in_bounds_iff. split.
  - intros (Hr & Hc & Hz & d & Hd & Hcap).
    apply captures_bracket in Hcap as [Hp [n Hn]]; [|done..].
    split; [done|]. split; [done|]. split; [done|]. by exists d, n.
  - intros (Hp & [Hr Hc] & Hz & d & n & Hd & Hb).
    split; [done|]. split; [done|]. split; [done|]. exists d. split; [done|].
    apply captures_bracket; [done..|]. split; [done|]. by exists n.
Qed.

(** C10 *)
Theorem find_valid_moves_eq_valid_moves (b : Board) (player : Z) :
  find_valid_moves b player = valid_moves b player.
Proof.
  apply set_eq. intros m. by rewrite find_valid_moves_legal, valid_moves_legal.
Qed.


Lemma elem_of_run_list n nr nc dr dc q :
  q ∈ run_list n nr nc dr dc ↔
  ∃ j, 0 ≤ j < Z.of_nat n ∧ q = (nr + j * dr, nc + j * dc).
Proof.
  revert nr nc. induction n as [|n IH]; intros nr nc; cbn [run_list].
  - rewrite elem_of_nil. split; [done|]. intros (j & ? & _). lia.
  - rewrite elem_of_cons, IH. split.
    + intros [-> | (j & Hj & ->)].
      * exists 0. split; [lia|]. f_equal; lia.
      * exists (j + 1). split; [lia|]. f_equal; lia.
    + intros (j & Hj & ->). destruct (decide (j = 0)) as [-> | ?].
      * left. f_equal; lia.
      * right. exists (j - 1). split; [lia|]. f_equal; lia.
Qed.

Lemma foldl_set_cell_spec (b : Board) (p : Z) (l : list Move) :
  wf_board b → Forall (λ q, in_bounds q.1 q.2 = true) l →
  wf_board (foldl (λ b' fl, set_cell b' fl.1 fl.2 p) b l) ∧
  ∀ x y, 0 ≤ x → 0 ≤ y →
    ((x, y) ∈ l → cell (foldl (λ b' fl, set_cell b' fl.1 fl.2 p) b l) x y = p) ∧
    ((x, y) ∉ l → cell (foldl (λ b' fl, set_cell b' fl.1 fl.2 p) b l) x y = cell b x y).
Proof.
  revert b. induction l as [|[r c] l IH]; intros b Hwf Hl; cbn [foldl fst snd].
  - split; [done|]. intros x y _ _. split; [by intros ?%elem_of_nil|done].
  - apply Forall_cons in Hl as [Hq Hl]. cbn [fst snd] in Hq.
    apply in_bounds_iff in Hq as [Hqr Hqc].
    destruct (IH (set_cell b r c p)) as [Hwf' Hcell]; [by apply wf_set_cell|done|].
    split; [done|]. intros x y Hx Hy. destruct (Hcell x y Hx Hy) as [Hin Hout].
    split.
    + intros Hel. destruct (decide ((x, y) ∈ l)) as [?|Hnl]; [by apply Hin|].
      rewrite Hout by done. apply elem_of_cons in Hel as [[= -> ->] | ?]; [|done].
      apply cell_set_cell_eq; (done || lia).
    + intros Hnel. apply not_elem_of_cons in Hnel as [Hne Hnl].
      rewrite Hout by done. apply cell_set_cell_ne; (done || lia).
Qed.

Lemma flip_walk_close f b p nr nc dr dc pieces (n : nat) :
  p ≠ 0 → (n < f)%nat →
  (∀ j, 0 ≤ j < Z.of_nat n →
     in_bounds (nr + j * dr) (nc + j * dc) = true ∧
     cell b (nr + j * dr) (nc + j * dc) = - p) →
  in_bounds (nr + Z.of_nat n * dr) (nc + Z.of_nat n * dc) = true →
  cell b (nr + Z.of_nat n * dr) (nc + Z.of_nat n * dc) = p →
  flip_walk f b p nr nc dr dc pieces =
  foldl (λ b' fl, set_cell b' fl.1 fl.2 p) b (pieces ++ run_list n nr nc dr dc).
Proof.
  intros Hp. revert n nr nc pieces.
  induction f as [|f IH]; intros n nr nc pieces Hn Hrun Hin Hc; [lia|].
  cbn [flip_walk]. destruct n as [|n].
  - assert (in_bounds nr nc = true) as -> by coords.
    assert (cell b nr nc = p) as -> by coords.
    replace (p =? - p) with false by (symmetry; apply Z.eqb_neq; lia).
    rewrite Z.eqb_refl. cbn [run_list]. by rewrite app_nil_r.
  - destruct (Hrun 0) as [H1 H2]; [lia|].
    assert (in_bounds nr nc = true) as -> by coords.
    assert (cell b nr nc = - p) as -> by coords.
    rewrite Z.eqb_refl. cbn [run_list]. rewrite (IH n); [by rewrite <- app_assoc|lia|..].
    + intros j Hj. destruct (Hrun (j + 1)) as [H3 H4]; [lia|]. split; coords.
    + coords.
    + coords.
Qed.

Lemma flip_walk_open f b p nr nc dr dc pieces :
  (∀ n : nat, (n < f)%nat →
     (∀ j, 0 ≤ j < Z.of_nat n →
        in_bounds (nr + j * dr) (nc + j * dc) = true ∧
        cell b (nr + j * dr) (nc + j * dc) = - p) →
     in_bounds (nr + Z.of_nat n * dr) (nc + Z.of_nat n * dc) = true →
     cell b (nr + Z.of_nat n * dr) (nc + Z.of_nat n * dc) = p → False) →
  flip_walk f b p nr nc dr dc pieces = b.
Proof.
  revert nr nc pieces. induction f as [|f IH]; intros nr nc pieces Hno; [done|].
  cbn [flip_walk]. destruct (in_bounds nr nc) eqn:Hin; [|done].
  destruct (cell b nr nc =? - p) eqn:Ho.
  - apply Z.eqb_eq in Ho. apply IH. intros n Hn Hrun Hin' Hc'.
    apply (Hno (S n)); [lia| |coords|coords].
    intros j Hj. destruct (decide (j = 0)) as [-> | ?]; [split; coords|].
    destruct (Hrun (j - 1)) as [H1 H2]; [lia|]. split; coords.
  - destruct (cell b nr nc =? p) eqn:Hp; [|done].
    apply Z.eqb_eq in Hp. exfalso. apply (Hno O); [lia| |coords|coords].
    intros; lia.
Qed.

(** One direction on the board [b]: the run is flipped when it is bracketed,
    and nothing happens otherwise. *)
Lemma flip_direction_bracket b p r c d (n : nat) :
  p ≠ 0 → d ∈ directions → 0 ≤ r < 8 → 0 ≤ c < 8 →
  bracket b p r c d.1 d.2 (Z.of_nat n) →
  flip_direction p r c b d =
  foldl (λ b' fl, set_cell b' fl.1 fl.2 p) b (run_list n (r + d.1) (c + d.2) d.1 d.2).
Proof.
  intros Hp Hd Hr Hc (Hn & Hrun & Hin & Hcell). unfold flip_direction.
  rewrite (flip_walk_close _ _ _ _ _ _ _ _ n); [done|done| | | |].
  - apply in_bounds_iff in Hin. dir_cases d Hd.
  - intros j Hj. destruct (Hrun (j + 1)) as [H1 H2]; [lia|]. split; coords.
  - coords.
  - coords.
Qed.

Lemma flip_walk_cases f b p nr nc dr dc :
  (∃ n : nat, (n < f)%nat ∧
     (∀ j, 0 ≤ j < Z.of_nat n →
        in_bounds (nr + j * dr) (nc + j * dc) = true ∧
        cell b (nr + j * dr) (nc + j * dc) = - p) ∧
     in_bounds (nr + Z.of_nat n * dr) (nc + Z.of_nat n * dc) = true ∧
     cell b (nr + Z.of_nat n * dr) (nc + Z.of_nat n * dc) = p) ∨
  (∀ n : nat, (n < f)%nat →
     (∀ j, 0 ≤ j < Z.of_nat n →
        in_bounds (nr + j * dr) (nc + j * dc) = true ∧
        cell b (nr + j * dr) (nc + j * dc) = - p) →
     in_bounds (nr + Z.of_nat n * dr) (nc + Z.of_nat n * dc) = true →
     cell b (nr + Z.of_nat n * dr) (nc + Z.of_nat n * dc) = p → False).
Proof.
  revert nr nc. induction f as [|f IH]; intros nr nc; [right; intros; lia|].
  destruct (in_bounds nr nc) eqn:Hin.
  2:{ right. intros n _ Hrun Hin' _. destruct n as [|n].
      - assert (in_bounds nr nc = true) by coords. congruence.
      - destruct (Hrun 0) as [H1 _]; [lia|].
        assert (in_bounds nr nc = true) by coords. congruence. }
  destruct (decide (cell b nr nc = p)) as [Hp|Hp].
  { left. exists O. split; [lia|]. split; [intros; lia|]. split; coords. }
  destruct (decide (cell b nr nc = - p)) as [Ho|Ho].
  - destruct (IH (nr + dr) (nc + dc)) as [(n & Hn & Hrun & Hin' & Hc')|Hno].
    + left. exists (S n). split; [lia|]. split; [|split; coords].
      intros j Hj. destruct (decide (j = 0)) as [-> | ?]; [split; coords|].
      destruct (Hrun (j - 1)) as [H1 H2]; [lia|]. split; coords.
    + right. intros n Hn Hrun Hin' Hc'. destruct n as [|n].
      * apply Hp. coords.
      * apply (Hno n); [lia| |coords|coords].
        intros j Hj. destruct (Hrun (j + 1)) as [H1 H2]; [lia|]. split; coords.
  - right. intros n Hn Hrun Hin' Hc'. destruct n as [|n].
    + apply Hp. coords.
    + destruct (Hrun 0) as [_ H2]; [lia|]. apply Ho. coords.
Qed.

Lemma bracket_unique b p r c dr dc n n' :
  p ≠ 0 → bracket b p r c dr dc n → bracket b p r c dr dc n' → n = n'.
Proof.
  intros Hp (Hn & Hrun & Hin & Hc) (Hn' & Hrun' & Hin' & Hc').
  destruct (Z.lt_trichotomy n n') as [Hlt | [-> | Hgt]]; [|done|]; exfalso.
  - destruct (Hrun' (n + 1)) as [_ H2]; [lia|]. rewrite Hc in H2. lia.
  - destruct (Hrun (n' + 1)) as [_ H2]; [lia|]. rewrite Hc' in H2. lia.
Qed.

Lemma bracket_bound b p r c d n :
  d ∈ directions → 0 ≤ r < 8 → 0 ≤ c < 8 → bracket b p r c d.1 d.2 n → 1 ≤ n ≤ 6.
Proof.
  intros Hd Hr Hc (Hn & _ & Hin & _). apply in_bounds_iff in Hin. dir_cases d Hd.
Qed.

(** One direction of [apply_move] on the board [b]: a bracketed run is
    flipped, and nothing is written otherwise. *)
Lemma flip_direction_cases b p r c d :
  p ≠ 0 → d ∈ directions → 0 ≤ r < 8 → 0 ≤ c < 8 →
  (∃ n : nat, bracket b p r c d.1 d.2 (Z.of_nat n) ∧
     flip_direction p r c b d =
     foldl (λ b' fl, set_cell b' fl.1 fl.2 p) b (run_list n (r + d.1) (c + d.2) d.1 d.2)) ∨
  ((∀ n, ¬ bracket b p r c d.1 d.2 n) ∧ flip_direction p r c b d = b).
Proof.
  intros Hp Hd Hr Hc.
  destruct (flip_walk_cases 8 b p (r + d.1) (c + d.2) d.1 d.2)
    as [(n & Hn & Hrun & Hin & Hcell)|Hno].
  - destruct n as [|n].
    + right. split.
      * intros n' (Hn' & Hrun' & _). destruct (Hrun' 1) as [_ H2]; [lia|].
        assert (cell b (r + d.1) (c + d.2) = - p) by coords.
        assert (cell b (r + d.1) (c + d.2) = p) by coords. lia.
      * unfold flip_direction.
        by rewrite (flip_walk_close _ _ _ _ _ _ _ _ O) by done.
    + left. exists (S n).
      assert (bracket b p r c d.1 d.2 (Z.of_nat (S n))) as Hb.
      { split; [lia|]. split; [|split; coords].
        intros j Hj. destruct (Hrun (j - 1)) as [H1 H2]; [lia|]. split; coords. }
      split; [done|]. by apply flip_direction_bracket.
  - right. split.
    + intros n Hb. pose proof (bracket_bound _ _ _ _ _ _ Hd Hr Hc Hb) as Hn6.
      destruct Hb as (Hn & Hrun & Hin & Hcell).
      apply (Hno (Z.to_nat n)); [lia| | |].
      * intros j Hj. destruct (Hrun (j + 1)) as [H1 H2]; [lia|]. split; coords.
      * rewrite Z2Nat.id by lia. coords.
      * rewrite Z2Nat.id by lia. coords.
    + unfold flip_direction. by apply flip_walk_open.
Qed.

Lemma rays_disjoint d d' j j' :
  d ∈ directions → d' ∈ directions → 1 ≤ j → 1 ≤ j' →
  j * d.1 = j' * d'.1 → j * d.2 = j' * d'.2 → d = d'.
Proof.
  intros Hd Hd' Hj Hj' H1 H2.
  dir_cases d Hd; dir_cases d' Hd'; f_equal; lia.
Qed.


Lemma flipped_in_app ds ds' b p m q :
  flipped_in (ds ++ ds') b p m q ↔ flipped_in ds b p m q ∨ flipped_in ds' b p m q.
Proof.
  unfold flipped_in. setoid_rewrite elem_of_app. split.
  - intros (d & n & j & [?|?] & ?); [left|right]; by exists d, n, j.
  - intros [(d & n & j & ? & ?)|(d & n & j & ? & ?)]; exists d, n, j; tauto.
Qed.

Lemma flipped_in_nil b p m q : ¬ flipped_in [] b p m q.
Proof. intros (d & n & j & Hd & _). by apply elem_of_nil in Hd. Qed.

Lemma flipped_in_not_origin ds b p m :
  ds ⊆ directions → ¬ flipped_in ds b p m m.
Proof.
  intros Hds (d & n & j & Hd & _ & Hj & Heq). apply Hds in Hd.
  destruct m as [r c]; cbn [fst snd] in *. injection Heq as H1 H2.
  dir_cases d Hd.
Qed.

(** Along a direction not processed yet the mutated board still shows the
    cells of the board before the call. *)
Lemma placed_and_flipped_ray ds b p m b' d j :
  ds ⊆ directions → d ∈ directions → d ∉ ds → 1 ≤ j →
  in_bounds (m.1 + j * d.1) (m.2 + j * d.2) = true →
  placed_and_flipped ds b p m b' →
  cell b' (m.1 + j * d.1) (m.2 + j * d.2) = cell b (m.1 + j * d.1) (m.2 + j * d.2).
Proof.
  intros Hds Hd Hnd Hj Hin [_ Hcells]. apply in_bounds_iff in Hin.
  destruct (Hcells (m.1 + j * d.1) (m.2 + j * d.2)) as (_ & _ & Hsame); [lia..|].
  apply Hsame.
  - destruct m as [r c]; cbn [fst snd] in *. intros [= H1 H2]. dir_cases d Hd.
  - intros (d' & n' & j' & Hd' & _ & Hj' & [= H1 H2]).
    assert (d = d') as ->; [|done].
    apply (rays_disjoint d d' j j'); [done|by apply Hds|lia..].
Qed.

Lemma placed_and_flipped_bracket ds b p m b' d n :
  ds ⊆ directions → d ∈ directions → d ∉ ds →
  placed_and_flipped ds b p m b' →
  bracket b' p m.1 m.2 d.1 d.2 n ↔ bracket b p m.1 m.2 d.1 d.2 n.
Proof.
  intros Hds Hd Hnd Hpf. unfold bracket, opp_run.
  split; intros (Hn & Hrun & Hin & Hc); (split; [done|]); (split; [|split; [done|]]).
  - intros j Hj. destruct (Hrun j Hj) as [H1 H2]. split; [done|].
    by rewrite <- (placed_and_flipped_ray ds b p m b' d j) by (done || lia).
  - by rewrite <- (placed_and_flipped_ray ds b p m b' d (n + 1)) by (done || lia).
  - intros j Hj. destruct (Hrun j Hj) as [H1 H2]. split; [done|].
    by rewrite (placed_and_flipped_ray ds b p m b' d j) by (done || lia).
  - by rewrite (placed_and_flipped_ray ds b p m b' d (n + 1)) by (done || lia).
Qed.

Lemma placed_and_flipped_step ds b p m b' d :
  p ≠ 0 → in_bounds m.1 m.2 = true →
  ds ⊆ directions → d ∈ directions → d ∉ ds →
  placed_and_flipped ds b p m b' →
  placed_and_flipped (ds ++ [d]) b p m (flip_direction p m.1 m.2 b' d).
Proof.
  intros Hp Hm Hds Hd Hnd Hpf. apply in_bounds_iff in Hm as [Hmr Hmc].
  pose proof Hpf as [Hwf Hcells].
  destruct (flip_direction_cases b' p m.1 m.2 d Hp Hd Hmr Hmc)
    as [(n & Hb & ->)|[Hno ->]].
  - pose proof Hb as Hb0.
    apply (placed_and_flipped_bracket ds b p m b' d) in Hb0; [|done..].
    destruct (foldl_set_cell_spec b' p (run_list n (m.1 + d.1) (m.2 + d.2) d.1 d.2))
      as [Hwf' Hnew]; [done| |].
    { apply Forall_forall. intros q (j & Hj & ->)%elem_of_run_list. cbn [fst snd].
      destruct Hb as (_ & Hrun & _). destruct (Hrun (j + 1)) as [H1 _]; [lia|]. coords. }
    split; [done|]. intros x y Hx Hy.
    destruct (Hnew x y Hx Hy) as [Hin Hout]. destruct (Hcells x y Hx Hy) as (H1 & H2 & H3).
    assert ((x, y) ∈ run_list n (m.1 + d.1) (m.2 + d.2) d.1 d.2 ↔
            flipped_in [d] b p m (x, y)) as Hrl.
    { rewrite elem_of_run_list. split.
      - intros (j & Hj & Heq). exists d, (Z.of_nat n), (j + 1).
        split; [by apply list_elem_of_singleton|]. split; [done|]. split; [lia|].
        rewrite Heq. f_equal; lia.
      - intros (d' & n' & j & ->%list_elem_of_singleton & Hb' & Hj & Heq).
        assert (Z.of_nat n = n') as <- by by eapply bracket_unique.
        exists (j - 1). split; [lia|]. rewrite Heq. f_equal; lia. }
    destruct (decide ((x, y) ∈ run_list n (m.1 + d.1) (m.2 + d.2) d.1 d.2)) as [Hel|Hel].
    + split; [|split].
      * intros Heq. exfalso. apply Hrl in Hel. rewrite Heq in Hel.
        by apply (flipped_in_not_origin [d] b p m); [set_solver|].
      * intros _. by apply Hin.
      * intros _ Hnf. exfalso. apply Hnf, flipped_in_app. right. by apply Hrl.
    + rewrite (Hout Hel). split; [done|split].
      * intros [?|?]%flipped_in_app; [by apply H2|]. exfalso. by apply Hel, Hrl.
      * intros Hne Hnf. apply H3; [done|]. intros ?. apply Hnf, flipped_in_app. by left.
  - split; [done|]. intros x y Hx Hy. destruct (Hcells x y Hx Hy) as (H1 & H2 & H3).
    assert (¬ flipped_in [d] b p m (x, y)) as Hnd'.
    { intros (d' & n' & j & ->%list_elem_of_singleton & Hb' & _).
      apply (Hno n'). by apply (placed_and_flipped_bracket ds b p m b' d). }
    split; [done|split].
    + intros [?|?]%flipped_in_app; [by apply H2|done].
    + intros Hne Hnf. apply H3; [done|]. intros ?. apply Hnf, flipped_in_app. by left.
Qed.

Lemma placed_and_flipped_foldl done_ds todo b p m b' :
  p ≠ 0 → in_bounds m.1 m.2 = true →
  NoDup (done_ds ++ todo) → done_ds ++ todo ⊆ directions →
  placed_and_flipped done_ds b p m b' →
  placed_and_flipped (done_ds ++ todo) b p m (foldl (flip_direction p m.1 m.2) b' todo).
Proof.
  intros Hp Hm. revert done_ds b'.
  induction todo as [|d todo IH]; intros done_ds b' Hnd Hsub Hpf.
  - by rewrite app_nil_r.
  - cbn [foldl]. replace (done_ds ++ d :: todo) with ((done_ds ++ [d]) ++ todo) in *
      by by rewrite <- app_assoc.
    apply IH; [done|done|].
    apply NoDup_app in Hnd as (Hnd1 & _ & _). apply NoDup_app in Hnd1 as (_ & Hnd1 & _).
    apply placed_and_flipped_step; [done|done|set_solver|set_solver|..|done].
    intros Hel. apply (Hnd1 d Hel). by apply list_elem_of_singleton.
Qed.

Lemma NoDup_directions : NoDup directions.
Proof. unfold directions. repeat (apply NoDup_cons; split; [set_solver|]). apply NoDup_nil_2. Qed.

Lemma apply_move_legal b move p :
  wf_board b → legal b p move →
  ∃ b', apply_move b move p = (true, b') ∧ placed_and_flipped directions b p move b'.
Proof.
  intros Hwf Hlegal. pose proof Hlegal as (Hp & Hin & Hz & _).
  unfold apply_move. rewrite decide_True by by apply valid_moves_legal.
  destruct move as [r c]. eexists. split; [done|].
  apply (placed_and_flipped_foldl [] directions b p (r, c));
    [done|done|apply NoDup_directions|done|].
  cbn [fst snd] in *. apply in_bounds_iff in Hin as [Hr Hc].
  split; [by apply wf_set_cell|]. intros x y Hx Hy. split; [|split].
  - intros [= -> ->]. by apply cell_set_cell_eq.
  - by intros ?%flipped_in_nil.
  - intros Hne _. apply cell_set_cell_ne; (done || lia).
Qed.

(** C1 *)
Theorem apply_move_spec (b : Board) (move : Move) (player : Z) :
  wf_board b →
  (move ∉ valid_moves b player → apply_move b move player = (false, b)) ∧
  (move ∈ valid_moves b player →
   ∃ b', apply_move b move player = (true, b') ∧ wf_board b' ∧
     in_bounds move.1 move.2 = true ∧
     cell b move.1 move.2 = 0 ∧ cell b' move.1 move.2 = player ∧
     ∀ x y, in_bounds x y = true → (x, y) ≠ move →
       (flipped b player move (x, y) →
          cell b x y = - player ∧ cell b' x y = player) ∧
       (¬ flipped b player move (x, y) → cell b' x y = cell b x y)).
Proof.
  intros Hwf. split.
  - intros Hnot. unfold apply_move. by rewrite decide_False.
  - intros Hlegal%valid_moves_legal.
    destruct (apply_move_legal b move player Hwf Hlegal) as (b' & Hap & Hwf' & Hcells).
    destruct Hlegal as (Hp & Hin & Hz & _).
    exists b'. split; [done|]. split; [done|]. split; [done|]. split; [done|].
    pose proof Hin as [Hr Hc]%in_bounds_iff. split.
    { destruct (Hcells move.1 move.2) as (H1 & _); [lia..|]. apply H1. by destruct move. }
    intros x y [Hx Hy]%in_bounds_iff Hne.
    destruct (Hcells x y) as (_ & H2 & H3); [lia..|]. split.
    + intros Hfl. split; [|by apply H2].
      destruct Hfl as (d & n & j & _ & (_ & Hrun & _) & Hj & [= -> ->]).
      by destruct (Hrun j Hj).
    + intros Hnf. by apply H3.
Qed.


Ltac list8 l H :=
  do 8 (destruct l as [|? l]; [discriminate H|]);
  destruct l; [clear H|discriminate H].

Lemma wf_tabulate b : wf_board b → b = tabulate (cell b).
Proof.
  intros [Hl Hrows].
  list8 b Hl.
  repeat match goal with
  | H : Forall _ (_ :: _) |- _ => apply Forall_cons in H as [? H]
  end.
  repeat match goal with
  | H : length ?l = 8%nat |- _ => list8 l H
  end.
  reflexivity.
Qed.

Lemma count_eq_cells b v :
  wf_board b →
  count_eq b v = foldr (λ q acc, (if cell b q.1 q.2 =? v then 1 else 0) + acc) 0 all_cells.
Proof.
  intros Hwf. rewrite (wf_tabulate b Hwf) at 1. cbv -[cell Z.add Z.eqb]. reflexivity.
Qed.

Lemma elem_of_all_cells q : q ∈ all_cells ↔ in_bounds q.1 q.2 = true.
Proof.
  unfold all_cells. rewrite in_bounds_iff, list_elem_of_bind.
  setoid_rewrite list_elem_of_bind. setoid_rewrite elem_of_range8.
  setoid_rewrite list_elem_of_singleton. destruct q as [r c]. cbn [fst snd]. split.
  - intros (r' & (c' & [= -> ->] & ?) & ?). done.
  - intros [? ?]. exists r. split; [|done]. by exists c.
Qed.

Lemma NoDup_all_cells : NoDup all_cells.
Proof. apply (bool_decide_unpack _). by vm_compute. Qed.

Lemma foldr_sum_point (g g' : Move → Z) (l : list Move) (q0 : Move) (k : Z) :
  NoDup l → q0 ∈ l → g' q0 = g q0 + k → (∀ q, q ∈ l → q ≠ q0 → g' q = g q) →
  foldr (λ q acc, g' q + acc) 0 l = foldr (λ q acc, g q + acc) 0 l + k.
Proof.
  intros Hnd Hin Hq0 Hsame. induction l as [|q l IH]; [by apply elem_of_nil in Hin|].
  apply NoDup_cons in Hnd as [Hq Hnd]. cbn [foldr].
  destruct (decide (q = q0)) as [-> | Hne].
  - rewrite Hq0. assert (foldr (λ q acc, g' q + acc) 0 l = foldr (λ q acc, g q + acc) 0 l) as ->; [|lia].
    clear IH Hin. induction l as [|q l IH]; [done|]. cbn [foldr].
    rewrite IH.
    + rewrite Hsame; [done|set_solver|]. intros ->. apply Hq. by left.
    + intros ?. apply Hq. by right.
    + by apply NoDup_cons in Hnd as [_ ?].
    + intros q' Hq' ?. apply Hsame; [|done]. set_solver.
  - rewrite (Hsame q); [|by left|done]. rewrite IH; [lia|done| |].
    + apply elem_of_cons in Hin as [?|?]; [congruence|done].
    + intros q' Hq' ?. apply Hsame; [by right|done].
Qed.

Lemma disks_cells b :
  wf_board b →
  disks b = foldr (λ q acc, ((if cell b q.1 q.2 =? 1 then 1 else 0) +
                             (if cell b q.1 q.2 =? -1 then 1 else 0)) + acc) 0 all_cells.
Proof.
  intros Hwf. unfold disks. rewrite !count_eq_cells by done.
  induction all_cells as [|q l IH]; [done|]. cbn [foldr]. lia.
Qed.

Lemma reachable_wf b : reachable b → wf_board b.
Proof.
  induction 1 as [|b p m b' _ IH Hp Hm Hap]; [apply wf_init_board|].
  destruct (apply_move_spec b m p IH) as [_ Hok].
  destruct (Hok Hm) as (b'' & Hap' & Hwf & _). congruence.
Qed.

(** A legal move of either colour turns at least one opposing disk and adds
    exactly one disk, on every 8x8 board. *)
Lemma apply_move_flips_and_counts b p m :
  wf_board b → p = 1 ∨ p = -1 → m ∈ valid_moves b p →
  ∃ b', apply_move b m p = (true, b') ∧
        (∃ x y, in_bounds x y = true ∧ cell b x y = - p ∧ cell b' x y = p) ∧
        disks b' = disks b + 1.
Proof.
  intros Hwf Hp Hm.
  destruct (apply_move_spec b m p Hwf) as [_ Hok].
  destruct (Hok Hm) as (b' & Hap & Hwf' & Hin & Hz & Hpl & Hcells).
  exists b'. split; [done|]. split.
  - apply valid_moves_legal in Hm as (_ & _ & _ & d & n & Hd & Hb).
    pose proof Hb as (Hn & Hrun & _). destruct (Hrun 1) as [Hin1 Ho1]; [lia|].
    exists (m.1 + 1 * d.1), (m.2 + 1 * d.2). split; [done|]. split; [done|].
    apply Hcells; [done| |].
    + destruct m as [r c]; cbn [fst snd] in *. intros [= H1 H2]. dir_cases d Hd.
    + exists d, n, 1. split; [done|]. split; [done|]. split; [lia|done].
  - rewrite !disks_cells by done.
    apply (foldr_sum_point _ _ all_cells m 1).
    + apply NoDup_all_cells.
    + by apply elem_of_all_cells.
    + rewrite Hz, Hpl. destruct Hp as [-> | ->]; reflexivity.
    + intros q Hq Hne. apply elem_of_all_cells in Hq.
      destruct (Hcells q.1 q.2 Hq) as [Hfl Hnf]; [by destruct q|].
      match goal with |- ?lhs = ?rhs => destruct (decide (lhs = rhs)) as [?|Hdiff] end;
        [done|exfalso].
      apply Hdiff. rewrite Hnf; [done|]. intros Hf. apply Hdiff.
      destruct (Hfl Hf) as [-> ->]. destruct Hp as [-> | ->]; reflexivity.
Qed.

(** C2 *)
Theorem legal_move_flips_and_adds_one_disk (b : Board) (player : Z) (m : Move) :
  reachable b → player = 1 ∨ player = -1 → m ∈ valid_moves b player →
  ∃ b', apply_move b m player = (true, b') ∧
        (∃ x y, in_bounds x y = true ∧ cell b x y = - player ∧ cell b' x y = player) ∧
        count_eq b' 1 + count_eq b' (-1) = count_eq b 1 + count_eq b (-1) + 1.
Proof.
  intros Hr Hp Hm. apply apply_move_flips_and_counts; [by apply reachable_wf|done..].
Qed.

Lemma legal_move_flips_and_adds_one_disk_witness :
  ∃ b', apply_move init_board (2, 3) 1 = (true, b') ∧
        (∃ x y, in_bounds x y = true ∧ cell init_board x y = - 1 ∧ cell b' x y = 1) ∧
        count_eq b' 1 + count_eq b' (-1) = count_eq init_board 1 + count_eq init_board (-1) + 1.
Proof.
  apply (legal_move_flips_and_adds_one_disk init_board 1 (2, 3)).
  - apply reachable_init.
  - left; reflexivity.
  - vm_compute. reflexivity.
Defined.

(** C9 *)
Theorem valid_moves_opening :
  valid_moves init_board 1 = {[ (2, 3); (3, 2); (4, 5); (5, 4) ]}.
Proof. vm_compute. reflexivity. Qed.

Lemma apply_move_spec_witness :
  (((0, 0) : Move) ∉ valid_moves init_board 1 →
     apply_move init_board (0, 0) 1 = (false, init_board)) ∧
  (((2, 3) : Move) ∈ valid_moves init_board 1 →
   ∃ b', apply_move init_board (2, 3) 1 = (true, b') ∧ wf_board b').
Proof.
  split.
  - apply (apply_move_spec init_board (0, 0) 1 wf_init_board).
  - intros H.
    destruct (proj2 (apply_move_spec init_board (2, 3) 1 wf_init_board) H)
      as (b' & ? & ? & _).
    by exists b'.
Defined.


(** ** The order on scores *)

Lemma score_ltb_irrefl a : score_ltb a a = false.
Proof. destruct a; simpl; [done| |done]. apply Z.ltb_irrefl. Qed.

Lemma score_ltb_trans a b c :
  score_ltb a b = true → score_ltb b c = true → score_ltb a c = true.
Proof.
  destruct a as [|x|], b as [|y|], c as [|z|]; simpl; try done.
  rewrite !Z.ltb_lt. intros H1 H2.
  change (x < z)%Qc. by apply Qclt_trans with y.
Qed.

Lemma score_ltb_total a b : score_ltb a b = true ∨ a = b ∨ score_ltb b a = true.
Proof.
  destruct a as [|x|], b as [|y|]; simpl; auto.
  rewrite !Z.ltb_lt.
  destruct (Qc_dec x y) as [[H|H]|H];
    [left; exact H|right; right; exact H|right; left; by f_equal].
Qed.

Module ScoreOrder.
Definition t := Score.
Definition eq := @eq Score.
Definition lt := score_lt.
Definition le := score_le.
#[global] Instance eq_equiv : Equivalence eq := _.
#[global] Instance lt_strorder : StrictOrder lt.
Proof.
  split.
  - intros a H. unfold lt, score_lt in H. by rewrite score_ltb_irrefl in H.
  - intros a b c. apply score_ltb_trans.
Qed.
#[global] Instance lt_compat : Proper (eq ==> eq ==> iff) lt.
Proof. by intros ? ? -> ? ? ->. Qed.
Lemma le_lteq x y : le x y ↔ lt x y ∨ eq x y.
Proof.
  unfold le, lt, eq, score_le, score_lt. split.
  - intros H. destruct (score_ltb_total x y) as [?|[?|?]]; [by left|by right|congruence].
  - intros [H| ->]; [|apply score_ltb_irrefl].
    destruct (score_ltb y x) eqn:E; [|done].
    pose proof (score_ltb_trans _ _ _ H E) as H'. by rewrite score_ltb_irrefl in H'.
Qed.
Lemma lt_total x y : lt x y ∨ eq x y ∨ lt y x.
Proof. apply score_ltb_total. Qed.
End ScoreOrder.

Module ScoreTac := MakeOrderTac ScoreOrder ScoreOrder.

Ltac sorder := ScoreTac.order.

Lemma score_ltb_true a b : score_ltb a b = true ↔ score_lt a b.
Proof. done. Qed.

Lemma score_ltb_false a b : score_ltb a b = false ↔ score_le b a.
Proof. done. Qed.

Lemma NegInf_le a : score_le NegInf a.
Proof. by destruct a. Qed.

Lemma le_PosInf a : score_le a PosInf.
Proof. by destruct a. Qed.

(** Case analysis on every comparison of the goal, as order facts. *)
Ltac score_case a b :=
  let E := fresh "E" in
  destruct (score_ltb a b) eqn:E; rewrite ?E in *;
  [change (score_lt a b) in E | change (score_le b a) in E].

Ltac score_cases :=
  repeat match goal with
  | |- context [score_ltb ?a ?b] => score_case a b
  | H : context [score_ltb ?a ?b] |- _ => score_case a b
  end.

Section AlphaBeta.
Context (R : Runtime) (P : MinMaxPlayer).

  (** Without pruning the window plays no role. *)
Lemma max_loop_val_window rec s player moves a b a' b' M bm :
    (∀ c x y x' y', rec c x y = rec c x' y') →
    max_loop_val rec false s player moves a b M bm =
    max_loop_val rec false s player moves a' b' M bm.
  Proof.
    intros Hrec. revert a a' M bm. induction moves as [|m ms IH]; intros a a' M bm; [done|].
    cbn [max_loop_val andb]. rewrite (Hrec _ a b a' b'). apply IH.
  Qed.

Lemma min_loop_val_window rec s player moves a b a' b' M bm :
    (∀ c x y x' y', rec c x y = rec c x' y') →
    min_loop_val rec false s player moves a b M bm =
    min_loop_val rec false s player moves a' b' M bm.
  Proof.
    intros Hrec. revert b b' M bm. induction moves as [|m ms IH]; intros b b' M bm; [done|].
    cbn [min_loop_val andb]. rewrite (Hrec _ a b a' b'). apply IH.
  Qed.

Lemma minimax_val_window d s a b a' b' mx :
    minimax_val R P false d s a b mx = minimax_val R P false d s a' b' mx.
  Proof.
    revert s a b a' b' mx. induction d as [|d IH]; intros s a b a' b' mx; [done|].
    cbn [minimax_val]. destruct (is_game_over (grid s)); [done|].
    destruct (list_of_set R _) as [|m ms]; [by rewrite (IH s a b a' b')|].
    destruct mx.
    - apply max_loop_val_window. intros. by rewrite (IH c x y x' y').
    - apply min_loop_val_window. intros. by rewrite (IH c x y x' y').
  Qed.

  (** The unpruned loops return at least (at most) the running best. *)
Lemma max_loop_val_ge rec s player moves a b M bm :
    score_le M (max_loop_val rec false s player moves a b M bm).1.
  Proof.
    revert a M bm. induction moves as [|m ms IH]; intros a M bm; cbn [max_loop_val andb fst].
    - sorder.
    - match goal with |- score_le _ (max_loop_val _ _ _ _ _ ?a' _ ?M' ?bm').1 =>
        pose proof (IH a' M' bm') as H end.
      score_cases; sorder.
  Qed.

Lemma min_loop_val_le rec s player moves a b M bm :
    score_le (min_loop_val rec false s player moves a b M bm).1 M.
  Proof.
    revert b M bm. induction moves as [|m ms IH]; intros b M bm; cbn [min_loop_val andb fst].
    - sorder.
    - match goal with |- score_le (min_loop_val _ _ _ _ _ _ ?b' ?M' ?bm').1 _ =>
        pose proof (IH b' M' bm') as H end.
      score_cases; sorder.
  Qed.
End AlphaBeta.


Ltac sfin := first [done | sorder | (exfalso; sorder)].

Ltac score_simpl := repeat (score_cases; cbn [negb andb fst snd] in * ).

(** Split a [window_sound] hypothesis by the position of the full value. *)
Ltac use_sound H a b v :=
  let H1 := fresh "Hlo" in let H2 := fresh "Hhi" in let H3 := fresh "Hin" in
  destruct H as (H1 & H2 & H3);
  let E := fresh "E" in let E' := fresh "E" in
  destruct (score_ltb a v) eqn:E;
  [ change (score_lt a v) in E;
    destruct (score_ltb v b) eqn:E';
    [ change (score_lt v b) in E'; specialize (H3 E E'); clear H1 H2; rename H3 into H
    | change (score_le b v) in E'; specialize (H2 E'); clear H1 H3; rename H2 into H ]
  | change (score_le v a) in E; specialize (H1 E); clear H2 H3; rename H1 into H ].

Section AlphaBetaSound.
Context (R : Runtime) (P : MinMaxPlayer).

Lemma max_loop_sound rec_p rec_f s player moves a0 a b M F bm bm' af bf :
    (∀ c x y x' y', rec_f c x y = rec_f c x' y') →
    (∀ c x y, score_lt x y → window_sound x y (rec_p c x y) (rec_f c x y)) →
    score_lt a b →
    score_le a0 a → score_le M a → (a = a0 ∨ a = M) →
    score_le F a → (a = a0 ∨ a = F) →
    window_sound a0 b (max_loop_val rec_p true s player moves a b M bm).1
                      (max_loop_val rec_f false s player moves af bf F bm').1.
  Proof.
    intros Hindep Hsound. revert a M F bm bm' af.
    induction moves as [|m ms IH]; intros a M F bm bm' af Hab Ha0 HM HaM HF HaF.
    { cbn [max_loop_val fst]. unfold window_sound.
      destruct HaM as [-> | ->], HaF as [HaF | HaF]; repeat split; intros; sorder. }
    cbn [max_loop_val andb]. rewrite (Hindep _ af bf a b).
    rewrite (max_loop_val_window rec_f s player ms _ bf NegInf PosInf) by done.
    pose proof (Hsound (play s m player) a b Hab) as Hs.
    set (e := rec_p (play s m player) a b) in *.
    set (v := rec_f (play s m player) a b) in *.
    match goal with |- window_sound _ _ _ (max_loop_val _ _ _ _ _ ?x ?y ?z ?w).1 =>
      pose proof (max_loop_val_ge rec_f s player ms x y z w) as Hge end.
    unfold score_geb, score_max.
    use_sound Hs a b v; try rewrite Hs in *; score_simpl; try (exfalso; sorder);
      first
        [ solve [unfold window_sound; repeat split; intros; sfin]
        | solve [rewrite (max_loop_val_window rec_f s player ms NegInf PosInf NegInf bf) by done;
                 apply IH; try sfin;
                 destruct HaM as [HaM | HaM], HaF as [HaF | HaF];
                 first [left; sfin | right; sfin]] ].
  Qed.

Lemma min_loop_sound rec_p rec_f s player moves a b0 b M F bm bm' af bf :
    (∀ c x y x' y', rec_f c x y = rec_f c x' y') →
    (∀ c x y, score_lt x y → window_sound x y (rec_p c x y) (rec_f c x y)) →
    score_lt a b →
    score_le b b0 → score_le b M → (b = b0 ∨ b = M) →
    score_le b F → (b = b0 ∨ b = F) →
    window_sound a b0 (min_loop_val rec_p true s player moves a b M bm).1
                      (min_loop_val rec_f false s player moves af bf F bm').1.
  Proof.
    intros Hindep Hsound. revert b M F bm bm' bf.
    induction moves as [|m ms IH]; intros b M F bm bm' bf Hab Hb0 HM HbM HF HbF.
    { cbn [min_loop_val fst]. unfold window_sound.
      destruct HbM as [-> | ->], HbF as [HbF | HbF]; repeat split; intros; sorder. }
    cbn [min_loop_val andb]. rewrite (Hindep _ af bf a b).
    rewrite (min_loop_val_window rec_f s player ms af _ NegInf PosInf) by done.
    pose proof (Hsound (play s m player) a b Hab) as Hs.
    set (e := rec_p (play s m player) a b) in *.
    set (v := rec_f (play s m player) a b) in *.
    match goal with |- window_sound _ _ _ (min_loop_val _ _ _ _ _ ?x ?y ?z ?w).1 =>
      pose proof (min_loop_val_le rec_f s player ms x y z w) as Hle end.
    unfold score_leb, score_min.
    use_sound Hs a b v; try rewrite Hs in *; score_simpl; try (exfalso; sorder);
      first
        [ solve [unfold window_sound; repeat split; intros; sfin]
        | solve [rewrite (min_loop_val_window rec_f s player ms NegInf PosInf af PosInf) by done;
                 apply IH; try sfin;
                 destruct HbM as [HbM | HbM], HbF as [HbF | HbF];
                 first [left; sfin | right; sfin]] ].
  Qed.

  (** Alpha-beta is sound in its window at every node. *)
Lemma minimax_val_sound d s a b mx :
    score_lt a b →
    window_sound a b (minimax_val R P true d s a b mx).1
                     (minimax_val R P false d s a b mx).1.
  Proof.
    revert s a b mx. induction d as [|d IH]; intros s a b mx Hab.
    { cbn [minimax_val fst]. unfold window_sound. repeat split; intros; sfin. }
    cbn [minimax_val]. destruct (is_game_over (grid s)).
    { cbn [fst]. unfold window_sound. repeat split; intros; sfin. }
    destruct (list_of_set R _) as [|m ms]; [by apply IH|].
    destruct mx.
    - apply max_loop_sound;
        first [ done | by left | apply NegInf_le | sorder
              | intros; by rewrite (minimax_val_window R P d c x y x' y')
              | intros; by apply IH ].
    - apply min_loop_sound;
        first [ done | by left | apply le_PosInf | sorder
              | intros; by rewrite (minimax_val_window R P d c x y x' y')
              | intros; by apply IH ].
  Qed.

  (** From the root window nothing is cut that matters. *)
Lemma minimax_val_root d s mx :
    (minimax_val R P true d s NegInf PosInf mx).1 =
    (minimax_val R P false d s NegInf PosInf mx).1.
  Proof.
    destruct (minimax_val_sound d s NegInf PosInf mx) as (Hlo & Hhi & Hin); [done|].
    set (r := (minimax_val R P true d s NegInf PosInf mx).1) in *.
    set (v := (minimax_val R P false d s NegInf PosInf mx).1) in *.
    pose proof (NegInf_le r). pose proof (NegInf_le v).
    pose proof (le_PosInf r). pose proof (le_PosInf v).
    destruct (score_ltb NegInf v) eqn:E1; [change (score_lt NegInf v) in E1|
                                           change (score_le v NegInf) in E1].
    - destruct (score_ltb v PosInf) eqn:E2; [change (score_lt v PosInf) in E2|
                                             change (score_le PosInf v) in E2].
      + by apply Hin.
      + specialize (Hhi E2). sorder.
    - specialize (Hlo E1). sorder.
  Qed.
End AlphaBetaSound.


(** ** The heap *)

Lemma heap_extends_refl h : heap_extends h h.
Proof. by split. Qed.

Lemma heap_extends_trans h1 h2 h3 :
  heap_extends h1 h2 → heap_extends h2 h3 → heap_extends h1 h3.
Proof. intros [? ?] [? ?]. split; by etrans. Qed.

Lemma snapshot_extends h h' g :
  heap_wf h → (g < length (games h))%nat → heap_extends h h' →
  snapshot h' g = snapshot h g.
Proof.
  intros Hwf Hg [[xs Ha] [ys Hg']].
  destruct (lookup_lt_is_Some_2 (games h) g Hg) as [o Ho].
  pose proof (Hwf g o Ho) as Hr.
  destruct (lookup_lt_is_Some_2 (arrays h) (board_ref o) Hr) as [b Hb].
  unfold snapshot, board_of, player_of. rewrite Ha, Hg'.
  rewrite !(lookup_app_l_Some _ _ _ _ Ho), Ho. cbn [mbind option_bind].
  by rewrite !(lookup_app_l_Some _ _ _ _ Hb), Hb.
Qed.

(** [new_game = game.copy(); new_game.apply_move(move, player)] *)
Lemma copy_apply_move g move player h :
  let h1 := (copy g h).2 in
  (copy g h).1 = length (games h) ∧
  (apply_move_at (length (games h)) move player h1).2 =
    {| arrays := arrays h ++ [(apply_move (board_of h g) move player).2];
       games := games h ++ [{| board_ref := length (arrays h);
                               current_player := player_of h g |}] |}.
Proof.
  split; [done|]. unfold apply_move_at, copy. cbn [snd games arrays].
  rewrite lookup_app_r, Nat.sub_diag by done. cbn [lookup list_lookup].
  unfold board_of at 1. cbn [games arrays].
  rewrite lookup_app_r, Nat.sub_diag by done. cbn [lookup list_lookup mbind option_bind board_ref].
  rewrite lookup_app_r, Nat.sub_diag by done. cbn [lookup list_lookup default].
  unfold id. destruct (apply_move (board_of h g) move player) as [ok b'] eqn:E. cbn [snd].
  f_equal. rewrite insert_app_r_alt, Nat.sub_diag by done. done.
Qed.

Lemma heap_after_copy_apply g h b' :
  heap_wf h →
  let h2 := {| arrays := arrays h ++ [b'];
               games := games h ++ [{| board_ref := length (arrays h);
                                       current_player := player_of h g |}] |} in
  heap_extends h h2 ∧ heap_wf h2 ∧
  (length (games h) < length (games h2))%nat ∧
  snapshot h2 (length (games h)) = {| grid := b'; to_move := player_of h g |}.
Proof.
  intros Hwf h2. split; [|split; [|split]].
  - split; by apply prefix_app_r.
  - intros g' o Ho. cbn [games arrays h2] in *. rewrite length_app. cbn [length].
    apply lookup_app_Some in Ho as [Ho | [_ Ho]].
    + pose proof (Hwf g' o Ho). lia.
    + destruct (g' - length (games h))%nat; [|done]. injection Ho as <-. cbn [board_ref]. lia.
  - cbn [games h2]. rewrite length_app. cbn [length]. lia.
  - unfold snapshot, board_of, player_of. cbn [games arrays h2].
    rewrite lookup_app_r, Nat.sub_diag by done. cbn [lookup list_lookup mbind option_bind board_ref fmap option_fmap option_map current_player default].
    rewrite lookup_app_r, Nat.sub_diag by done. done.
Qed.

Lemma copy_apply_move_bind {A} g move player (k : nat → bool → St A) h :
  (let! new_game := copy g in
   let! ok := apply_move_at new_game move player in
   k new_game ok) h =
  k (length (games h)) (apply_move (board_of h g) move player).1
    {| arrays := arrays h ++ [(apply_move (board_of h g) move player).2];
       games := games h ++ [{| board_ref := length (arrays h);
                               current_player := player_of h g |}] |}.
Proof.
  unfold st_bind. cbn [copy].
  pose proof (copy_apply_move g move player h) as [_ H2]. cbn [copy snd] in H2.
  destruct (apply_move_at _ _ _ _) as [ok h2] eqn:E. cbn [snd] in H2. subst h2.
  f_equal. unfold apply_move_at in E. cbn [games] in E.
  rewrite lookup_app_r, Nat.sub_diag in E by done. cbn [lookup list_lookup] in E.
  destruct (apply_move (board_of _ _) move player) as [ok' b''] eqn:E' in E.
  injection E as <- _.
  assert (board_of {| arrays := arrays h ++ [board_of h g];
                      games := games h ++ [{| board_ref := length (arrays h);
                                              current_player := player_of h g |}] |}
                   (length (games h)) = board_of h g) as Hb.
  { unfold board_of at 1. cbn [games arrays].
    rewrite lookup_app_r, Nat.sub_diag by done.
    cbn [lookup list_lookup mbind option_bind board_ref].
    by rewrite lookup_app_r, Nat.sub_diag by done. }
  rewrite Hb in E'. by rewrite E'.
Qed.

Lemma refines_ret {A} (v : A) h : heap_wf h → refines (st_ret v) h v.
Proof. intros. exists h. split; [done|]. split; [apply heap_extends_refl|done]. Qed.

Lemma refines_get {A B} (f : Heap → A) (k : A → St B) h v :
  refines (k (f h)) h v → refines (let! x := st_get f in k x) h v.
Proof. done. Qed.

Section Refinement.
Context (R : Runtime) (P : MinMaxPlayer).

Lemma max_loop_refines rec rec_val prune g player moves a b M bm h :
    (∀ g' x y h1, heap_wf h1 → (g' < length (games h1))%nat →
       refines (rec g' x y) h1 (rec_val (snapshot h1 g') x y)) →
    heap_wf h → (g < length (games h))%nat →
    refines (max_loop rec prune g player moves a b M bm) h
            (max_loop_val rec_val prune (snapshot h g) player moves a b M bm).
  Proof.
    intros Hrec. revert h a M bm.
    induction moves as [|m ms IH]; intros h a M bm Hwf Hg; [by apply refines_ret|].
    cbn [max_loop max_loop_val]. unfold refines.
    rewrite copy_apply_move_bind.
    set (b' := (apply_move (board_of h g) m player).2).
    destruct (heap_after_copy_apply g h b' Hwf) as (Hext & Hwf2 & Hnew & Hsnap).
    set (h2 := {| arrays := arrays h ++ [b']; games := _ |}) in *.
    destruct (Hrec (length (games h)) a b h2 Hwf2 Hnew) as (h3 & Hrun & Hext3 & Hwf3).
    unfold st_bind at 1. rewrite Hrun, Hsnap.
    change {| grid := b'; to_move := player_of h g |} with (play (snapshot h g) m player).
    set (e := rec_val (play (snapshot h g) m player) a b).
    pose proof (heap_extends_trans _ _ _ Hext Hext3) as Hext'.
    destruct (prune && score_geb (score_max a e) b).
    - exists h3. by split.
    - assert (g < length (games h3))%nat as Hg3.
      { destruct Hext' as [_ [ys ->]]. rewrite length_app. lia. }
      destruct (IH h3 (score_max a e) (if score_ltb M e then e else M)
                  (if score_ltb M e then Some m else bm) Hwf3 Hg3)
        as (h4 & Hrun4 & Hext4 & Hwf4).
      exists h4. rewrite Hrun4, (snapshot_extends h h3 g) by done.
      split; [done|]. split; [|done]. by eapply heap_extends_trans.
  Qed.

Lemma min_loop_refines rec rec_val prune g player moves a b M bm h :
    (∀ g' x y h1, heap_wf h1 → (g' < length (games h1))%nat →
       refines (rec g' x y) h1 (rec_val (snapshot h1 g') x y)) →
    heap_wf h → (g < length (games h))%nat →
    refines (min_loop rec prune g player moves a b M bm) h
            (min_loop_val rec_val prune (snapshot h g) player moves a b M bm).
  Proof.
    intros Hrec. revert h b M bm.
    induction moves as [|m ms IH]; intros h b M bm Hwf Hg; [by apply refines_ret|].
    cbn [min_loop min_loop_val]. unfold refines.
    rewrite copy_apply_move_bind.
    set (b' := (apply_move (board_of h g) m player).2).
    destruct (heap_after_copy_apply g h b' Hwf) as (Hext & Hwf2 & Hnew & Hsnap).
    set (h2 := {| arrays := arrays h ++ [b']; games := _ |}) in *.
    destruct (Hrec (length (games h)) a b h2 Hwf2 Hnew) as (h3 & Hrun & Hext3 & Hwf3).
    unfold st_bind at 1. rewrite Hrun, Hsnap.
    change {| grid := b'; to_move := player_of h g |} with (play (snapshot h g) m player).
    set (e := rec_val (play (snapshot h g) m player) a b).
    pose proof (heap_extends_trans _ _ _ Hext Hext3) as Hext'.
    destruct (prune && score_leb (score_min b e) a).
    - exists h3. by split.
    - assert (g < length (games h3))%nat as Hg3.
      { destruct Hext' as [_ [ys ->]]. rewrite length_app. lia. }
      destruct (IH h3 (score_min b e) (if score_ltb e M then e else M)
                  (if score_ltb e M then Some m else bm) Hwf3 Hg3)
        as (h4 & Hrun4 & Hext4 & Hwf4).
      exists h4. rewrite Hrun4, (snapshot_extends h h3 g) by done.
      split; [done|]. split; [|done]. by eapply heap_extends_trans.
  Qed.

  (** The search on the heap computes the search on values and writes only
      to copies. *)
Lemma minimax_refines prune d g a b mx h :
    heap_wf h → (g < length (games h))%nat →
    refines (minimax R P prune d g a b mx) h
            (minimax_val R P prune d (snapshot h g) a b mx).
  Proof.
    revert g a b mx h. induction d as [|d IH]; intros g a b mx h Hwf Hg.
    { cbn [minimax minimax_val]. apply refines_get. by apply refines_ret. }
    cbn [minimax minimax_val]. apply refines_get.
    destruct (is_game_over (grid (snapshot h g))); [by apply refines_ret|].
    destruct (list_of_set R _) as [|m ms].
    - destruct (IH g a b (negb mx) h Hwf Hg) as (h' & Hrun & Hext & Hwf').
      exists h'. unfold st_bind. rewrite Hrun. by split.
    - assert (∀ flag g' x y h1, heap_wf h1 → (g' < length (games h1))%nat →
                refines (let! r := minimax R P prune d g' x y flag in st_ret r.1) h1
                        (minimax_val R P prune d (snapshot h1 g') x y flag).1) as Hrec.
      { intros flag g' x y h1 Hwf1 Hg1.
        destruct (IH g' x y flag h1 Hwf1 Hg1) as (h' & Hrun & Hext & Hwf').
        exists h'. unfold st_bind. rewrite Hrun. by split. }
      destruct mx.
      + apply (max_loop_refines _ (λ s' x y, (minimax_val R P prune d s' x y false).1));
          [apply Hrec|done..].
      + apply (min_loop_refines _ (λ s' x y, (minimax_val R P prune d s' x y true).1));
          [apply Hrec|done..].
  Qed.
End Refinement.


(** ** Searches write to their own copies *)

Lemma aligned_refl h : aligned h h.
Proof.
  exists [], []. rewrite !app_nil_r. repeat split. intros i o Hi. by destruct i.
Qed.

Lemma aligned_extends h0 h : aligned h0 h → heap_extends h0 h.
Proof. intros (objs & arrs & Hg & Ha & _). split; [by exists arrs|by exists objs]. Qed.

Lemma aligned_copy h0 h g : aligned h0 h → aligned h0 (copy g h).2.
Proof.
  intros (objs & arrs & Hg & Ha & Hlen & Href).
  exists (objs ++ [{| board_ref := length (arrays h); current_player := player_of h g |}]),
         (arrs ++ [board_of h g]).
  cbn [copy snd games arrays]. rewrite Hg, Ha, <- !app_assoc.
  split; [done|]. split; [done|]. split; [rewrite !length_app; cbn [length]; lia|].
  intros i o Hi. apply lookup_app_Some in Hi as [Hi | [Hge Hi]]; [by apply Href|].
  destruct (i - length objs)%nat eqn:E; [|by destruct n].
  injection Hi as <-. cbn [board_ref]. rewrite length_app. lia.
Qed.

Lemma copy_made_after h0 h g : aligned h0 h → made_after h0 (copy g h).1.
Proof.
  intros (objs & arrs & Hg & _). unfold made_after. cbn [copy fst].
  rewrite Hg, length_app. lia.
Qed.

Lemma aligned_apply_move_at h0 h g move player :
  made_after h0 g → aligned h0 h → aligned h0 (apply_move_at g move player h).2.
Proof.
  intros Hfresh (objs & arrs & Hg & Ha & Hlen & Href). unfold apply_move_at.
  destruct (games h !! g) as [o|] eqn:Ho; [|by exists objs, arrs].
  destruct (apply_move (board_of h g) move player) as [ok b']. cbn [snd].
  rewrite Hg in Ho. apply lookup_app_Some in Ho as [Ho | [_ Ho]].
  { apply lookup_lt_Some in Ho. unfold made_after in Hfresh. lia. }
  pose proof (Href _ _ Ho) as Hr.
  exists objs, (<[(g - length (games h0))%nat := b']> arrs). cbn [games arrays].
  split; [done|]. split; [|split; [by rewrite length_insert|done]].
  rewrite Ha, Hr. rewrite insert_app_r_alt by lia. f_equal. f_equal. lia.
Qed.

Lemma aligned_flip_player h0 h g :
  made_after h0 g → aligned h0 h → aligned h0 (flip_player g h).2.
Proof.
  intros Hfresh (objs & arrs & Hg & Ha & Hlen & Href). unfold flip_player, made_after in *.
  cbn [snd]. set (f := λ o, {| board_ref := board_ref o; current_player := _ |}).
  exists (alter f (g - length (games h0))%nat objs), arrs. cbn [games arrays].
  split; [|split; [done|split; [by rewrite length_alter|]]].
  - rewrite Hg. by rewrite alter_app_r_alt by lia.
  - intros i o Hi. rewrite list_lookup_alter in Hi.
    destruct (decide (_ = i)) as [->|Hne].
    + destruct (objs !! _) as [o'|] eqn:Ho'; [|done]. injection Hi as <-.
      cbn [board_ref f]. by apply Href.
    + by apply Href.
Qed.

(** *** The rules of [keeps] *)

Lemma keeps_ret h0 {A} (a : A) (Q : A → Prop) : Q a → keeps h0 (mm_ret a) Q.
Proof. intros HQ w a' w' Hal [= <- <-]. by split. Qed.

Lemma keeps_bind h0 {A B} (m : MM A) (k : A → MM B) (Q : A → Prop) (Q' : B → Prop) :
  keeps h0 m Q → (∀ a, Q a → keeps h0 (k a) Q') → keeps h0 (mm_bind m k) Q'.
Proof.
  intros Hm Hk w b w' Hal Hrun. unfold mm_bind in Hrun.
  destruct (m w) as [a w1| |] eqn:E; [|done..].
  destruct (Hm w a w1 Hal E) as [Hal1 HQ]. by apply (Hk a HQ w1).
Qed.

Lemma keeps_weaken h0 {A} (m : MM A) (Q Q' : A → Prop) :
  keeps h0 m Q → (∀ a, Q a → Q' a) → keeps h0 m Q'.
Proof. intros Hm HQ w a w' Hal Hrun. destruct (Hm w a w' Hal Hrun). split; auto. Qed.

(** A computation that leaves the heap alone. *)
Lemma keeps_same_heap h0 {A} (m : MM A) :
  (∀ w a w', m w = Done a w' → heap w' = heap w) → keeps h0 m (λ _, True).
Proof. intros Hm w a w' Hal Hrun. by rewrite (Hm w a w' Hrun). Qed.

Lemma keeps_get h0 {A} (f : Heap → A) : keeps h0 (lift (st_get f)) (λ _, True).
Proof. apply keeps_same_heap. by intros w a w' [= <- <-]. Qed.

Lemma keeps_copy h0 g : keeps h0 (lift (copy g)) (made_after h0).
Proof.
  intros w a w' Hal [= <- <-]. cbn [heap].
  split; [by apply (aligned_copy h0 (heap w) g)|by apply (copy_made_after h0 (heap w) g)].
Qed.

Lemma keeps_apply_move_at h0 g move player :
  made_after h0 g → keeps h0 (lift (apply_move_at g move player)) (λ _, True).
Proof.
  intros Hg w a w' Hal Hrun. unfold lift in Hrun.
  pose proof (aligned_apply_move_at h0 (heap w) g move player Hg Hal) as H.
  destruct (apply_move_at g move player (heap w)) as [ok h']. injection Hrun as <- <-.
  by split.
Qed.

Lemma keeps_flip_player h0 g :
  made_after h0 g → keeps h0 (lift (flip_player g)) (λ _, True).
Proof.
  intros Hg w a w' Hal [= <- <-]. split; [|done].
  by apply (aligned_flip_player h0 (heap w) g).
Qed.

Lemma keeps_raise h0 {A} e (Q : A → Prop) : keeps h0 (raise e) Q.
Proof. by intros w a w' _ H. Qed.

Lemma keeps_out_of_fuel h0 {A} (Q : A → Prop) : keeps h0 (λ _, OutOfFuel) Q.
Proof. by intros w a w' _ H. Qed.

Lemma keeps_require h0 {A} (o : option A) : keeps h0 (require o) (λ _, True).
Proof. destruct o; [by apply keeps_ret|apply keeps_raise]. Qed.

Lemma keeps_children_read h0 k : keeps h0 (children_read k) (λ _, True).
Proof.
  apply keeps_same_heap. intros w a w' H. unfold children_read in H.
  by destruct (dict_get k (children w)); injection H as <- <-.
Qed.

Lemma keeps_children_append h0 k c : keeps h0 (children_append k c) (λ _, True).
Proof.
  eapply keeps_bind; [apply keeps_children_read|]. intros kids _.
  apply keeps_same_heap. by intros w a w' [= <- <-].
Qed.

Lemma keeps_info_read h0 k : keeps h0 (info_read k) (λ _, True).
Proof.
  apply keeps_same_heap. intros w a w' H. unfold info_read in H.
  by destruct (node_info w !! k); injection H as <- <-.
Qed.

Lemma keeps_info_write h0 k i : keeps h0 (info_write k i) (λ _, True).
Proof. apply keeps_same_heap. by intros w a w' [= <- <-]. Qed.

Lemma keeps_random_choice h0 {A} (l : list A) : keeps h0 (random_choice l) (λ _, True).
Proof.
  apply keeps_same_heap. intros w a w' H. unfold random_choice in H.
  destruct l; [done|]. by injection H as <- <-.
Qed.

Lemma keeps_mm_map h0 {A B} (f : A → MM B) (l : list A) :
  (∀ x, keeps h0 (f x) (λ _, True)) → keeps h0 (mm_map f l) (λ _, True).
Proof.
  intros Hf. induction l as [|x l IH]; cbn [mm_map]; [by apply keeps_ret|].
  eapply keeps_bind; [apply Hf|]. intros y _.
  eapply keeps_bind; [apply IH|]. intros ys _. by apply keeps_ret.
Qed.

(** Step through a computation with the rules above. *)
Ltac keeps_step :=
  lazymatch goal with
  | |- keeps _ (mm_bind _ _) _ => eapply keeps_bind; [|intros ? ?]
  | |- keeps _ (mm_ret _) _ => apply keeps_ret
  | |- keeps _ (lift (st_get _)) _ => apply keeps_get
  | |- keeps _ (lift (copy _)) _ => apply keeps_copy
  | |- keeps _ (lift (apply_move_at _ _ _)) _ => apply keeps_apply_move_at
  | |- keeps _ (lift (flip_player _)) _ => apply keeps_flip_player
  | |- keeps _ (raise _) _ => apply keeps_raise
  | |- keeps _ (require _) _ => apply keeps_require
  | |- keeps _ (children_read _) _ => apply keeps_children_read
  | |- keeps _ (children_append _ _) _ => apply keeps_children_append
  | |- keeps _ (info_read _) _ => apply keeps_info_read
  | |- keeps _ (info_write _ _) _ => apply keeps_info_write
  | |- keeps _ (random_choice _) _ => apply keeps_random_choice
  | |- keeps _ (λ _, OutOfFuel) _ => apply keeps_out_of_fuel
  end.

Ltac keeps_auto := repeat (keeps_step; try done).

Lemma keeps_successor h0 g move : keeps h0 (successor g move) (made_after h0).
Proof. unfold successor. keeps_auto. Qed.

Lemma keeps_key_of h0 g : keeps h0 (key_of g) (λ _, True).
Proof. unfold key_of. keeps_auto. Qed.

Lemma keeps_find_child h0 rec g best moves :
  (∀ g', keeps h0 (rec g') (made_after h0)) →
  keeps h0 (find_child rec g best moves) (made_after h0).
Proof.
  intros Hrec. induction moves as [|m ms IH]; cbn [find_child]; [apply keeps_copy|].
  eapply keeps_bind; [apply keeps_successor|]. intros new Hnew.
  eapply keeps_bind; [apply keeps_key_of|]. intros key _.
  destruct (decide (key = best)); [apply Hrec|apply IH].
Qed.

Lemma keeps_child_stats h0 k : keeps h0 (child_stats k) (λ _, True).
Proof. unfold child_stats. keeps_auto. destruct (_ =? _); keeps_auto. Qed.

Lemma keeps_selection h0 fuel R A g :
  keeps h0 (selection fuel R A g) (made_after h0).
Proof.
  revert g. induction fuel as [|fuel IH]; intros g; cbn [selection]; [keeps_auto|].
  eapply keeps_bind; [apply keeps_get|]. intros s _.
  eapply keeps_bind; [apply keeps_same_heap; by intros w a w' [= <- <-]|]. intros known _.
  eapply keeps_bind with (Q := λ _, True).
  { destruct known; [apply keeps_children_read|by apply keeps_ret]. }
  intros kids _. destruct (negb known || bool_decide (kids = [])); [apply keeps_copy|].
  eapply keeps_bind; [apply keeps_info_read|]. intros info _.
  eapply keeps_bind; [apply keeps_require|]. intros pv _.
  eapply keeps_bind; [apply keeps_mm_map, keeps_child_stats|]. intros stats _.
  by apply keeps_find_child.
Qed.

Lemma keeps_expansion h0 R g : keeps h0 (expansion R g) (made_after h0).
Proof.
  unfold expansion.
  eapply keeps_bind; [apply keeps_get|]. intros s _.
  eapply keeps_bind; [apply keeps_info_read|]. intros info _.
  eapply keeps_bind with (Q := λ _, True).
  { destruct (untried_moves info); [by apply keeps_ret|apply keeps_info_write]. }
  intros _ _.
  eapply keeps_bind; [apply keeps_info_read|]. intros info' _.
  destruct (untried_moves info') as [[[|m0 ms]|]|];
    [apply keeps_copy| |apply keeps_copy|apply keeps_raise].
  eapply keeps_bind; [apply keeps_random_choice|]. intros move _.
  eapply keeps_bind; [apply keeps_info_write|]. intros _ _.
  eapply keeps_bind; [apply keeps_successor|]. intros new Hnew.
  eapply keeps_bind; [apply keeps_key_of|]. intros key _.
  eapply keeps_bind; [apply keeps_children_append|]. intros _ _.
  eapply keeps_bind; [apply keeps_info_read|]. intros _ _.
  eapply keeps_bind; [apply keeps_info_write|]. intros _ _.
  by apply keeps_ret.
Qed.

Lemma keeps_rollout h0 fuel R g :
  made_after h0 g → keeps h0 (rollout fuel R g) (λ _, True).
Proof.
  intros Hg. induction fuel as [|fuel IH]; cbn [rollout]; [keeps_auto|].
  eapply keeps_bind; [apply keeps_get|]. intros s _.
  destruct (is_game_over (grid s)); [by apply keeps_ret|].
  eapply keeps_bind with (Q := λ _, True).
  { destruct (list_of_set R _) as [|m ms]; [by apply keeps_ret|].
    eapply keeps_bind; [apply keeps_random_choice|]. intros move _.
    eapply keeps_bind; [by apply keeps_apply_move_at|]. intros _ _. by apply keeps_ret. }
  intros _ _.
  eapply keeps_bind; [by apply keeps_flip_player|]. intros _ _. apply IH.
Qed.

Lemma keeps_simulation h0 fuel R g : keeps h0 (simulation fuel R g) (λ _, True).
Proof.
  unfold simulation.
  eapply keeps_bind; [apply keeps_copy|]. intros cur Hcur.
  eapply keeps_bind; [apply keeps_get|]. intros p _.
  eapply keeps_bind; [by apply keeps_rollout|]. intros _ _.
  eapply keeps_bind; [apply keeps_get|]. intros b _.
  by apply keeps_ret.
Qed.

Lemma keeps_backpropagation h0 fuel key result :
  keeps h0 (backpropagation fuel key result) (λ _, True).
Proof.
  revert key result. induction fuel as [|fuel IH]; intros [key|] result;
    cbn [backpropagation]; try (by apply keeps_ret); [apply keeps_out_of_fuel|].
  eapply keeps_bind; [apply keeps_info_read|]. intros info _.
  eapply keeps_bind; [apply keeps_require|]. intros v _.
  eapply keeps_bind; [apply keeps_info_write|]. intros _ _.
  eapply keeps_bind; [apply keeps_info_read|]. intros info' _.
  eapply keeps_bind; [apply keeps_require|]. intros w _.
  eapply keeps_bind; [apply keeps_info_write|]. intros _ _.
  eapply keeps_bind; [apply keeps_same_heap; by intros w0 a w' [= <- <-]|]. intros parent _.
  apply IH.
Qed.

Lemma keeps_rollouts h0 n fuel R g key : keeps h0 (rollouts n fuel R g key) (λ _, True).
Proof.
  induction n as [|n IH]; cbn [rollouts]; [by apply keeps_ret|].
  eapply keeps_bind; [apply keeps_copy|]. intros g' _.
  eapply keeps_bind; [apply keeps_simulation|]. intros result _.
  eapply keeps_bind; [apply keeps_backpropagation|]. intros _ _.
  apply IH.
Qed.

Lemma keeps_search_cycle h0 fuel R A g : keeps h0 (search_cycle fuel R A g) (λ _, True).
Proof.
  unfold search_cycle.
  eapply keeps_bind; [apply keeps_copy|]. intros g0 _.
  eapply keeps_bind; [apply keeps_selection|]. intros sel _.
  eapply keeps_bind; [apply keeps_copy|]. intros g1 _.
  eapply keeps_bind; [apply keeps_expansion|]. intros ex _.
  eapply keeps_bind; [apply keeps_key_of|]. intros key _.
  apply keeps_rollouts.
Qed.

Lemma keeps_search_cycles h0 n fuel R A g :
  keeps h0 (search_cycles n fuel R A g) (λ _, True).
Proof.
  induction n as [|n IH]; cbn [search_cycles]; [by apply keeps_ret|].
  eapply keeps_bind; [apply keeps_search_cycle|]. intros _ _. apply IH.
Qed.

Lemma keeps_find_move h0 g best moves : keeps h0 (find_move g best moves) (λ _, True).
Proof.
  induction moves as [|m ms IH]; cbn [find_move]; [by apply keeps_ret|].
  eapply keeps_bind; [apply keeps_successor|]. intros new _.
  eapply keeps_bind; [apply keeps_key_of|]. intros key _.
  destruct (decide (key = best)); [by apply keeps_ret|apply IH].
Qed.

Lemma keeps_visit_count h0 k : keeps h0 (visit_count k) (λ _, True).
Proof. unfold visit_count. keeps_auto. Qed.

Lemma keeps_most_visited_move h0 R g root_key :
  keeps h0 (most_visited_move R g root_key) (λ _, True).
Proof.
  unfold most_visited_move.
  eapply keeps_bind; [apply keeps_same_heap; by intros w0 a w' [= <- <-]|]. intros entry _.
  destruct entry as [[|k kids]|]; try (by apply keeps_ret).
  eapply keeps_bind; [apply keeps_visit_count|]. intros first _.
  eapply keeps_bind; [apply keeps_mm_map, keeps_visit_count|]. intros others _.
  eapply keeps_bind; [apply keeps_get|]. intros s _.
  apply keeps_find_move.
Qed.

Lemma keeps_mcts_get_move h0 cycles fuel R A g :
  keeps h0 (mcts_get_move cycles fuel R A g) (λ _, True).
Proof.
  unfold mcts_get_move, timed_search. destruct (time_limit A).
  - eapply keeps_bind; [apply keeps_key_of|]. intros key _.
    eapply keeps_bind; [apply keeps_search_cycles|]. intros _ _.
    apply keeps_most_visited_move.
  - eapply keeps_bind; [apply keeps_key_of|]. intros key _.
    eapply keeps_bind; [apply keeps_search_cycles|]. intros _ _.
    apply keeps_most_visited_move.
Qed.


Lemma runtime_ok_simple : runtime_ok simple_runtime.
Proof.
  split.
  - intros s x. cbn [list_of_set simple_runtime]. apply elem_of_elements.
  - intros c n [|kv l] Hl; [done|]. cbn [ucb1_best simple_runtime]. left.
Qed.

Lemma list_of_set_empty R : runtime_ok R → list_of_set R ∅ = [].
Proof.
  intros [Hl _]. destruct (list_of_set R ∅) as [|x l] eqn:E; [done|].
  assert (x ∈ (∅ : gset Move)) as H; [|by apply elem_of_empty in H].
  apply Hl. rewrite E. left.
Qed.

Lemma heap_wf_opening : heap_wf opening_heap.
Proof. intros [|g] o Ho; [injection Ho as <-; cbn; lia|done]. Qed.

Lemma heap_wf_pass : heap_wf pass_heap.
Proof. intros [|g] o Ho; [injection Ho as <-; cbn; lia|done]. Qed.

(** C3 *)
Theorem alpha_beta_same_score (R : Runtime) (P : MinMaxPlayer) (d : nat)
    (g : nat) (h : Heap) (maximizing : bool) :
  heap_wf h → (g < length (games h))%nat →
  (minimax R P true d g NegInf PosInf maximizing h).1.1 =
  (minimax R P false d g NegInf PosInf maximizing h).1.1.
Proof.
  intros Hwf Hg.
  destruct (minimax_refines R P true d g NegInf PosInf maximizing h Hwf Hg) as (h1 & -> & _).
  destruct (minimax_refines R P false d g NegInf PosInf maximizing h Hwf Hg) as (h2 & -> & _).
  cbn [fst]. apply minimax_val_root.
Qed.

Lemma alpha_beta_same_score_witness :
  (minimax simple_runtime black_minmax true 3 0 NegInf PosInf true opening_heap).1.1 =
  (minimax simple_runtime black_minmax false 3 0 NegInf PosInf true opening_heap).1.1.
Proof.
  apply (alpha_beta_same_score simple_runtime black_minmax 3 0 opening_heap true).
  - exact heap_wf_opening.
  - cbn. lia.
Defined.

(** C5 *)
Theorem minimax_forced_pass (R : Runtime) (P : MinMaxPlayer) (prune : bool) (d : nat)
    (g : nat) (alpha beta : Score) (maximizing : bool) (h : Heap) :
  runtime_ok R →
  is_game_over (board_of h g) = false →
  valid_moves (board_of h g) (if maximizing then color P else - color P) = ∅ →
  minimax R P prune (S d) g alpha beta maximizing h =
  (((minimax R P prune d g alpha beta (negb maximizing) h).1.1, None),
   (minimax R P prune d g alpha beta (negb maximizing) h).2).
Proof.
  intros HR Hover Hnone. cbn [minimax]. unfold st_bind at 1, st_get at 1.
  cbn [snapshot grid]. rewrite Hover, Hnone, (list_of_set_empty R HR).
  unfold st_bind, st_ret. by destruct (minimax R P prune d g alpha beta (negb maximizing) h).
Qed.

Lemma minimax_forced_pass_witness :
  minimax simple_runtime white_minmax true 3 0 NegInf PosInf true pass_heap =
  (((minimax simple_runtime white_minmax true 2 0 NegInf PosInf false pass_heap).1.1, None),
   (minimax simple_runtime white_minmax true 2 0 NegInf PosInf false pass_heap).2).
Proof.
  apply (minimax_forced_pass simple_runtime white_minmax true 2 0 NegInf PosInf true pass_heap).
  - exact runtime_ok_simple.
  - vm_compute. reflexivity.
  - vm_compute. reflexivity.
Defined.

(** C7 *)
Theorem get_move_leaves_game_unchanged (h : Heap) (g : nat) :
  heap_wf h → (g < length (games h))%nat →
  (∀ R P, let h' := (minmax_get_move R P g h).2 in
     (∀ r c, cell (board_of h' g) r c = cell (board_of h g) r c) ∧
     player_of h' g = player_of h g ∧ heap_extends h h') ∧
  (∀ cycles fuel R A w move w',
     heap w = h → mcts_get_move cycles fuel R A g w = Done move w' →
     (∀ r c, cell (board_of (heap w') g) r c = cell (board_of h g) r c) ∧
     player_of (heap w') g = player_of h g ∧ heap_extends h (heap w')).
Proof.
  intros Hwf Hg. split.
  - intros R P h'. subst h'. unfold minmax_get_move, st_bind.
    destruct (minimax_refines R P true (depth P) g NegInf PosInf true h Hwf Hg)
      as (h1 & -> & Hext & _).
    cbn [snd st_ret].
    pose proof (snapshot_extends h h1 g Hwf Hg Hext) as [= Hb Hp]. rewrite Hb. by split.
  - intros cycles fuel R A w move w' Hw Hrun. subst h.
    destruct (keeps_mcts_get_move (heap w) cycles fuel R A g w move w'
                (aligned_refl (heap w)) Hrun) as [Hal _].
    apply aligned_extends in Hal.
    pose proof (snapshot_extends (heap w) (heap w') g Hwf Hg Hal) as [= Hb Hp].
    rewrite Hb. by split.
Qed.

Lemma mcts_opening_returns :
  is_done (mcts_get_move 2 200 simple_runtime black_mcts 0
             (fresh_world opening_heap [1%nat])) = true.
Proof. vm_compute. reflexivity. Qed.

Lemma get_move_leaves_game_unchanged_witness :
  player_of (minmax_get_move simple_runtime black_minmax 0 opening_heap).2 0 =
    player_of opening_heap 0 ∧
  ∃ move w',
    mcts_get_move 2 200 simple_runtime black_mcts 0 (fresh_world opening_heap [1%nat]) =
      Done move w' ∧
    player_of (heap w') 0 = player_of opening_heap 0 ∧
    heap_extends opening_heap (heap w').
Proof.
  pose proof (get_move_leaves_game_unchanged opening_heap 0 heap_wf_opening
                ltac:(cbn; lia)) as [Hmm Hmcts].
  split; [apply (Hmm simple_runtime black_minmax)|].
  pose proof mcts_opening_returns as Hd.
  destruct (mcts_get_move 2 200 simple_runtime black_mcts 0
              (fresh_world opening_heap [1%nat])) as [move w'| |] eqn:E; [|done..].
  exists move, w'. split; [done|].
  by apply (Hmcts 2%nat 200%nat simple_runtime black_mcts
             (fresh_world opening_heap [1%nat]) move w' eq_refl) in E as (_ & ? & ?).
Defined.

Lemma tabulate_ext f f' :
  (∀ r c, in_bounds r c = true → f r c = f' r c) → tabulate f = tabulate f'.
Proof.
  intros H. unfold tabulate, range8. cbn [fmap list_fmap].
  by rewrite !H by reflexivity.
Qed.

(** C8 *)
Theorem node_key_ignores_mover (s1 s2 : State) :
  wf_board (grid s1) → wf_board (grid s2) →
  (∀ r c, in_bounds r c = true → cell (grid s1) r c = cell (grid s2) r c) →
  get_node_key s1 = get_node_key s2 ∧
  ∀ w, node_info w !! get_node_key s1 = node_info w !! get_node_key s2 ∧
       dict_get (get_node_key s1) (children w) = dict_get (get_node_key s2) (children w).
Proof.
  intros H1 H2 Hcells.
  assert (get_node_key s1 = get_node_key s2) as Heq.
  { unfold get_node_key. rewrite (wf_tabulate _ H1), (wf_tabulate _ H2).
    by apply tabulate_ext. }
  split; [done|]. intros w. by rewrite Heq.
Qed.

Lemma node_key_ignores_mover_witness :
  {| grid := init_board; to_move := 1 |} ≠ {| grid := init_board; to_move := -1 |} ∧
  get_node_key {| grid := init_board; to_move := 1 |} =
  get_node_key {| grid := init_board; to_move := -1 |}.
Proof.
  split; [intros [=]|].
  apply (node_key_ignores_mover {| grid := init_board; to_move := 1 |}
                                {| grid := init_board; to_move := -1 |});
    [apply wf_init_board..|done].
Defined.

(** C6 *)
Theorem stability_heuristic_counts_pairs :
  valid_moves after_first_move 1 = {[ (4, 5); (5, 4); (5, 5) ]} ∧
  count_eq after_first_move (-1) = 1 ∧
  find_unstable_disks after_first_move (-1) (elements (valid_moves after_first_move 1)) = 3 ∧
  count_cells (spec_unstable after_first_move (-1)) = 1 ∧
  find_unstable_disks after_first_move 1 (elements (valid_moves after_first_move (-1))) = 7 ∧
  count_cells (spec_unstable after_first_move 1) = 4 ∧
  stability_heuristic after_first_move 1 = Q2Qc (-40 # 3) ∧
  spec_stability after_first_move 1 = Q2Qc (-20 # 1) ∧
  stability_heuristic after_first_move 1 ≠ spec_stability after_first_move 1.
Proof.
  assert (stability_heuristic after_first_move 1 = Q2Qc (-40 # 3)) as H1.
  { apply Qc_is_canon. vm_compute. reflexivity. }
  assert (spec_stability after_first_move 1 = Q2Qc (-20 # 1)) as H2.
  { apply Qc_is_canon. vm_compute. reflexivity. }
  split; [vm_compute; reflexivity|]. split; [vm_compute; reflexivity|].
  split; [vm_compute; reflexivity|]. split; [vm_compute; reflexivity|].
  split; [vm_compute; reflexivity|]. split; [vm_compute; reflexivity|].
  split; [exact H1|]. split; [exact H2|].
  rewrite H1, H2. intros H. apply (f_equal this) in H. vm_compute in H. discriminate H.
Qed.


(** ** Heap steps of the tree search *)

Lemma aligned_wf h H : heap_wf h → aligned h H → heap_wf H.
Proof.
  intros Hwf (objs & arrs & Hg & Ha & Hlen & Href) l o Ho.
  rewrite Hg in Ho. rewrite Ha, length_app.
  apply lookup_app_Some in Ho as [Ho | [Hge Ho]].
  - pose proof (Hwf l o Ho). lia.
  - pose proof (lookup_lt_Some _ _ _ Ho). rewrite (Href _ _ Ho). lia.
Qed.

Lemma snapshot_lookup H l o b :
  games H !! l = Some o → arrays H !! board_ref o = Some b →
  snapshot H l = {| grid := b; to_move := current_player o |}.
Proof.
  intros Ho Hb. unfold snapshot, board_of, player_of. rewrite Ho. cbn. by rewrite Hb.
Qed.

Lemma snapshot_invalid H l : games H !! l = None → snapshot H l = {| grid := []; to_move := 0 |}.
Proof. intros Ho. unfold snapshot, board_of, player_of. by rewrite Ho. Qed.

(** A valid object of an aligned heap, with its board. *)
Lemma aligned_lookup h H l :
  heap_wf h → aligned h H → (l < length (games H))%nat →
  ∃ o b, games H !! l = Some o ∧ arrays H !! board_ref o = Some b ∧
         (board_ref o < length (arrays H))%nat.
Proof.
  intros Hwf Hal Hl. destruct (lookup_lt_is_Some_2 _ _ Hl) as [o Ho].
  pose proof (aligned_wf h H Hwf Hal l o Ho) as Hr.
  destruct (lookup_lt_is_Some_2 _ _ Hr) as [b Hb]. by exists o, b.
Qed.

(** Two objects of an aligned heap share no board, unless both are the
    caller's. *)
Lemma aligned_refs_differ h H l l' o o' :
  heap_wf h → aligned h H → (length (games h) ≤ l)%nat → l ≠ l' →
  games H !! l = Some o → games H !! l' = Some o' → board_ref o ≠ board_ref o'.
Proof.
  intros Hwf (objs & arrs & Hg & Ha & Hlen & Href) Hfresh Hne Ho Ho'.
  rewrite Hg in Ho, Ho'.
  apply lookup_app_Some in Ho as [Ho | [_ Ho]].
  { apply lookup_lt_Some in Ho. lia. }
  rewrite (Href _ _ Ho).
  apply lookup_app_Some in Ho' as [Ho' | [Hge' Ho']].
  - pose proof (Hwf _ _ Ho'). lia.
  - rewrite (Href _ _ Ho'). lia.
Qed.

Lemma copy_spec h H l :
  heap_wf h → aligned h H →
  snapshot (copy l H).2 (length (games H)) = snapshot H l ∧
  (∀ l0, (l0 < length (games H))%nat → snapshot (copy l H).2 l0 = snapshot H l0) ∧
  length (games (copy l H).2) = S (length (games H)).
Proof.
  intros Hwf Hal. cbn [copy snd]. split; [|split].
  - unfold snapshot at 2.
    apply (snapshot_lookup _ _ {| board_ref := length (arrays H);
                                  current_player := player_of H l |} (board_of H l));
      cbn [games arrays board_ref]; by rewrite lookup_app_r, Nat.sub_diag.
  - intros l0 Hl0. destruct (aligned_lookup h H l0 Hwf Hal Hl0) as (o & b & Ho & Hb & _).
    rewrite (snapshot_lookup H l0 o b) by done.
    apply snapshot_lookup; cbn [games arrays]; by apply lookup_app_l_Some.
  - cbn [games]. rewrite length_app. cbn [length]. lia.
Qed.

Lemma apply_move_at_spec h H cur move player :
  heap_wf h → aligned h H →
  (length (games h) ≤ cur)%nat → (cur < length (games H))%nat →
  let H' := (apply_move_at cur move player H).2 in
  aligned h H' ∧ length (games H') = length (games H) ∧
  snapshot H' cur = {| grid := (apply_move (grid (snapshot H cur)) move player).2;
                       to_move := to_move (snapshot H cur) |} ∧
  ∀ l0, l0 ≠ cur → snapshot H' l0 = snapshot H l0.
Proof.
  intros Hwf Hal Hfresh Hvalid H'.
  split; [by apply aligned_apply_move_at|].
  destruct (aligned_lookup h H cur Hwf Hal Hvalid) as (o & b & Ho & Hb & Hr).
  subst H'. unfold apply_move_at. rewrite Ho.
  assert (board_of H cur = b) as Hbo.
  { unfold board_of. rewrite Ho. cbn. by rewrite Hb. }
  rewrite (snapshot_lookup H cur o b) by done. cbn [grid to_move]. rewrite Hbo.
  destruct (apply_move b move player) as [ok b']. cbn [snd].
  split; [done|]. split.
  - apply snapshot_lookup; cbn [games arrays]; [done|]. by apply list_lookup_insert_eq.
  - intros l0 Hne. destruct (games H !! l0) as [o0|] eqn:Ho0.
    + unfold snapshot, board_of, player_of. cbn [games arrays]. rewrite Ho0. cbn.
      rewrite list_lookup_insert_ne; [done|].
      by apply (aligned_refs_differ h H cur l0).
    + by rewrite !snapshot_invalid.
Qed.

Lemma flip_player_spec h H cur :
  heap_wf h → aligned h H →
  (length (games h) ≤ cur)%nat → (cur < length (games H))%nat →
  let H' := (flip_player cur H).2 in
  aligned h H' ∧ length (games H') = length (games H) ∧
  snapshot H' cur = {| grid := grid (snapshot H cur);
                       to_move := to_move (snapshot H cur) * -1 |} ∧
  ∀ l0, l0 ≠ cur → snapshot H' l0 = snapshot H l0.
Proof.
  intros Hwf Hal Hfresh Hvalid H'.
  split; [by apply aligned_flip_player|].
  destruct (aligned_lookup h H cur Hwf Hal Hvalid) as (o & b & Ho & Hb & Hr).
  subst H'. unfold flip_player. cbn [snd].
  split; [cbn [games]; by rewrite length_alter|].
  rewrite (snapshot_lookup H cur o b) by done. cbn [grid to_move]. split.
  - apply (snapshot_lookup _ _ {| board_ref := board_ref o;
                                  current_player := current_player o * -1 |} b);
      cbn [games arrays board_ref]; [|done].
    rewrite list_lookup_alter, decide_True by done. by rewrite Ho.
  - intros l0 Hne. unfold snapshot, board_of, player_of. cbn [games arrays].
    by rewrite list_lookup_alter, decide_False by done.
Qed.


(** ** Steps of the tree search that always return *)

Lemma mm_bind_done {A B} (m : MM A) (k : A → MM B) w a w1 :
  m w = Done a w1 → mm_bind m k w = k a w1.
Proof. intros H. unfold mm_bind. by rewrite H. Qed.

Lemma lift_get_eq {A} (f : Heap → A) w : lift (st_get f) w = Done (f (heap w)) w.
Proof. by destruct w. Qed.

Lemma key_of_eq l w : key_of l w = Done (get_node_key (snapshot (heap w) l)) w.
Proof. apply lift_get_eq. Qed.

Lemma lift_copy_eq l w :
  lift (copy l) w = Done (length (games (heap w))) (with_heap (copy l (heap w)).2 w).
Proof. done. Qed.

Lemma lift_apply_move_at_eq l move player w :
  lift (apply_move_at l move player) w =
  Done (apply_move_at l move player (heap w)).1
       (with_heap (apply_move_at l move player (heap w)).2 w).
Proof. unfold lift. by destruct (apply_move_at l move player (heap w)). Qed.

Lemma lift_flip_player_eq l w :
  lift (flip_player l) w = Done tt (with_heap (flip_player l (heap w)).2 w).
Proof. done. Qed.

Lemma keeps_states_refl w : keeps_states w w.
Proof. by split. Qed.

Lemma keeps_states_trans w1 w2 w3 :
  keeps_states w1 w2 → keeps_states w2 w3 → keeps_states w1 w3.
Proof.
  intros [Hl1 Hs1] [Hl2 Hs2]. split; [lia|]. intros l Hl.
  rewrite Hs2 by lia. by apply Hs1.
Qed.

Lemma same_tree_refl w : same_tree w w.
Proof. by split. Qed.

Lemma same_tree_trans w1 w2 w3 : same_tree w1 w2 → same_tree w2 w3 → same_tree w1 w3.
Proof. intros [? ?] [? ?]. split; congruence. Qed.

Lemma tree_inv_same s0 w w' : same_tree w w' → tree_inv s0 w → tree_inv s0 w'.
Proof.
  intros [Hc Hn] [H1 H2 H3 H4 H5]. split; rewrite ?Hc, ?Hn; auto.
Qed.

Lemma kids_visited_but_same s0 k w w' :
  same_tree w w' → kids_visited_but s0 k w → kids_visited_but s0 k w'.
Proof.
  intros [Hc Hn] H kids c. unfold visits_of. rewrite Hc, Hn. apply H.
Qed.

Section Steps.
Context (h : Heap) (Hwf : heap_wf h).

Lemma copy_total l w :
  aligned h (heap w) →
  ∃ new w', lift (copy l) w = Done new w' ∧
    aligned h (heap w') ∧ same_tree w w' ∧ keeps_states w w' ∧
    (new < length (games (heap w')))%nat ∧
    snapshot (heap w') new = snapshot (heap w) l.
Proof.
  intros Hal. eexists _, _. split; [apply lift_copy_eq|].
  destruct (copy_spec h (heap w) l Hwf Hal) as (Hnew & Hold & Hlen).
  cbn [heap with_heap]. split; [by apply aligned_copy|]. split; [done|].
  unfold keeps_states. cbn [heap with_heap].
  split; [split; [lia|done]|]. split; [lia|done].
Qed.

Lemma succ_heap_spec l move H :
  aligned h H →
  aligned h (succ_heap l move H) ∧
  length (games (succ_heap l move H)) = S (length (games H)) ∧
  snapshot (succ_heap l move H) (length (games H)) = succ_state (snapshot H l) move ∧
  ∀ l0, (l0 < length (games H))%nat → snapshot (succ_heap l move H) l0 = snapshot H l0.
Proof.
  intros Hal. unfold succ_heap. cbv zeta.
  pose proof (copy_spec h H l Hwf Hal) as (Hnew & Hold & Hlen).
  pose proof (aligned_copy h H l Hal) as Hal1.
  generalize dependent (copy l H).2. intros H1 Hnew Hold Hlen Hal1.
  assert (length (games h) ≤ length (games H))%nat as Hfresh.
  { destruct Hal as (objs & arrs & Hg & _). rewrite Hg, length_app. lia. }
  assert (player_of H1 (length (games H)) = to_move (snapshot H l)) as -> by by rewrite <- Hnew.
  destruct (apply_move_at_spec h H1 (length (games H)) move (to_move (snapshot H l))
              Hwf Hal1 Hfresh ltac:(lia)) as (Hal2 & Hlen2 & Hcur2 & Hoth2).
  generalize dependent (apply_move_at (length (games H)) move (to_move (snapshot H l)) H1).2.
  intros H2 Hal2 Hlen2 Hcur2 Hoth2.
  destruct (flip_player_spec h H2 (length (games H)) Hwf Hal2 Hfresh ltac:(lia))
    as (Hal3 & Hlen3 & Hcur3 & Hoth3).
  generalize dependent (flip_player (length (games H)) H2).2.
  intros H3 Hal3 Hlen3 Hcur3 Hoth3.
  split; [done|]. split; [lia|]. split.
  - rewrite Hcur3, Hcur2, Hnew. done.
  - intros l0 Hl0. rewrite Hoth3, Hoth2 by lia. by apply Hold.
Qed.

Lemma successor_eq l move w :
  successor l move w =
  Done (length (games (heap w))) (with_heap (succ_heap l move (heap w)) w).
Proof.
  unfold successor.
  rewrite (mm_bind_done _ _ _ _ _ (lift_copy_eq l w)).
  rewrite (mm_bind_done _ _ _ _ _ (lift_get_eq _ _)).
  rewrite (mm_bind_done _ _ _ _ _ (lift_apply_move_at_eq _ _ _ _)).
  rewrite (mm_bind_done _ _ _ _ _ (lift_flip_player_eq _ _)).
  unfold mm_ret, succ_heap, with_heap. cbn [heap children node_info rng]. done.
Qed.

Lemma successor_total l move w :
  aligned h (heap w) →
  ∃ new w', successor l move w = Done new w' ∧
    aligned h (heap w') ∧ same_tree w w' ∧ keeps_states w w' ∧
    (new < length (games (heap w')))%nat ∧
    snapshot (heap w') new = succ_state (snapshot (heap w) l) move.
Proof.
  intros Hal. eexists _, _. split; [apply successor_eq|].
  destruct (succ_heap_spec l move (heap w) Hal) as (Hal' & Hlen & Hnew & Hold).
  unfold keeps_states, same_tree. cbn [heap children node_info with_heap].
  split; [done|]. split; [done|]. split; [split; [lia|done]|]. split; [lia|done].
Qed.
End Steps.


(** ** Rollouts end *)

Lemma foldr_indicator_bound (f : Move → Z) (l : list Move) :
  (∀ q, 0 ≤ f q ≤ 1) →
  0 ≤ foldr (λ q acc, f q + acc) 0 l ≤ Z.of_nat (length l).
Proof.
  intros Hf. induction l as [|q l IH]; cbn [foldr length]; [lia|].
  pose proof (Hf q). lia.
Qed.

Lemma disks_bound b : wf_board b → 0 ≤ disks b ≤ 64.
Proof.
  intros Hwf. rewrite (disks_cells b Hwf).
  change 64 with (Z.of_nat (length all_cells)).
  apply (foldr_indicator_bound
           (λ q, (if cell b q.1 q.2 =? 1 then 1 else 0) +
                 (if cell b q.1 q.2 =? -1 then 1 else 0))).
  intros q. destruct (cell b q.1 q.2 =? 1) eqn:E1, (cell b q.1 q.2 =? -1) eqn:E2; lia.
Qed.

Lemma apply_move_wf_disks b p m :
  wf_board b → p = 1 ∨ p = -1 → m ∈ valid_moves b p →
  wf_board (apply_move b m p).2 ∧ disks (apply_move b m p).2 = disks b + 1.
Proof.
  intros Hwf Hp Hm.
  destruct (apply_move_flips_and_counts b p m Hwf Hp Hm) as (b' & Heq & _ & Hd).
  destruct (proj2 (apply_move_spec b m p Hwf) Hm) as (b'' & Heq' & Hwf' & _).
  rewrite Heq. cbn [snd]. split; [congruence|done].
Qed.

Lemma not_game_over b :
  is_game_over b = false → valid_moves b 1 ≠ ∅ ∨ valid_moves b (-1) ≠ ∅.
Proof.
  unfold is_game_over. intros H.
  destruct (decide (valid_moves b 1 = ∅)) as [E1|E1]; [|by left].
  destruct (decide (valid_moves b (-1) = ∅)) as [E2|E2]; [|by right].
  rewrite (bool_decide_eq_true_2 _ E1), (bool_decide_eq_true_2 _ E2) in H.
  discriminate H.
Qed.

Lemma list_of_set_nil (R : Runtime) (s : gset Move) :
  runtime_ok R → list_of_set R s = [] ↔ s = ∅.
Proof.
  intros [Hl _]. split.
  - intros Hnil. apply set_eq. intros x. rewrite <- Hl, Hnil.
    split; [by intros ?%elem_of_nil|by intros ?%elem_of_empty].
  - intros ->. destruct (list_of_set R ∅) as [|x l] eqn:E; [done|].
    assert (x ∈ (∅ : gset Move)) as H; [|by apply elem_of_empty in H].
    apply Hl. rewrite E. left.
Qed.

Lemma random_choice_total {A} (l : list A) w :
  l ≠ [] →
  ∃ x w', random_choice l w = Done x w' ∧ x ∈ l ∧
          heap w' = heap w ∧ same_tree w w'.
Proof.
  intros Hl. destruct l as [|x0 l]; [done|]. unfold random_choice.
  eexists _, _. split; [done|]. split; [|by split].
  apply list_elem_of_In, nth_In. apply Nat.mod_upper_bound. done.
Qed.

Section Rollout.
Context (h : Heap) (Hwf : heap_wf h) (R : Runtime) (HR : runtime_ok R).

Lemma rollout_total fuel cur w s :
  aligned h (heap w) →
  (length (games h) ≤ cur)%nat → (cur < length (games (heap w)))%nat →
  snapshot (heap w) cur = s → wf_board (grid s) →
  to_move s = 1 ∨ to_move s = -1 →
  2 * (64 - disks (grid s)) +
    (if decide (valid_moves (grid s) (to_move s) = ∅) then 2 else 1) ≤ Z.of_nat fuel →
  ∃ w', rollout fuel R cur w = Done tt w' ∧
    aligned h (heap w') ∧ same_tree w w' ∧
    length (games (heap w')) = length (games (heap w)) ∧
    ∀ l0, l0 ≠ cur → snapshot (heap w') l0 = snapshot (heap w) l0.
Proof.
  revert w s. induction fuel as [|fuel IH]; intros w s Hal Hfresh Hvalid Hs Hb Hp Hfuel.
  { pose proof (disks_bound _ Hb). destruct (decide _); lia. }
  cbn [rollout]. rewrite (mm_bind_done _ _ _ _ _ (lift_get_eq _ _)). rewrite Hs.
  destruct (is_game_over (grid s)) eqn:Hover.
  { exists w. split; [done|]. split; [done|]. split; [apply same_tree_refl|]. by split. }
  destruct (list_of_set R (valid_moves (grid s) (to_move s))) as [|m0 ms] eqn:Hmoves.
  - (* the side to move passes *)
    apply (list_of_set_nil R _ HR) in Hmoves.
    rewrite decide_True in Hfuel by done.
    rewrite (mm_bind_done _ _ _ tt w) by done.
    rewrite (mm_bind_done _ _ _ _ _ (lift_flip_player_eq _ _)).
    destruct (flip_player_spec h (heap w) cur Hwf Hal Hfresh Hvalid)
      as (Hal' & Hlen' & Hcur' & Hoth').
    rewrite Hs in Hcur'. cbn [grid to_move] in Hcur'.
    destruct (IH (with_heap (flip_player cur (heap w)).2 w) _ Hal' Hfresh
                ltac:(cbn [heap with_heap]; lia) Hcur' Hb) as (w' & Hrun & Hal2 & Ht2 & Hlen2 & Hoth2).
    + cbn [to_move]. lia.
    + cbn [grid to_move]. rewrite decide_False; [lia|].
      destruct (not_game_over _ Hover) as [H1|H1], Hp as [Hp|Hp]; rewrite Hp in *;
        change (1 * -1) with (-1); change (-1 * -1) with 1; congruence.
    + exists w'. split; [done|]. split; [done|]. split; [done|].
      cbn [heap with_heap] in *. split; [lia|].
      intros l0 Hne. by rewrite Hoth2, Hoth'.
  - (* a random legal move *)
    assert (valid_moves (grid s) (to_move s) ≠ ∅) as Hne.
    { intros Hem. apply (list_of_set_nil R _ HR) in Hem. congruence. }
    rewrite decide_False in Hfuel by done.
    destruct (random_choice_total (m0 :: ms) w ltac:(done)) as (move & w1 & Hrc & Hin & Hh1 & Ht1).
    assert (move ∈ valid_moves (grid s) (to_move s)) as Hlegal.
    { apply (proj1 HR). by rewrite Hmoves. }
    destruct (apply_move_wf_disks _ _ _ Hb Hp Hlegal) as [Hb' Hd'].
    rewrite <- Hh1 in Hal, Hvalid, Hs.
    destruct (apply_move_at_spec h (heap w1) cur move (to_move s) Hwf Hal Hfresh Hvalid)
      as (Hal2 & Hlen2 & Hcur2 & Hoth2).
    rewrite Hs in Hcur2. cbn [grid to_move] in Hcur2.
    set (w2 := with_heap (apply_move_at cur move (to_move s) (heap w1)).2 w1) in *.
    destruct (flip_player_spec h (heap w2) cur Hwf Hal2 Hfresh
                ltac:(cbn [heap with_heap w2]; lia)) as (Hal3 & Hlen3 & Hcur3 & Hoth3).
    cbn [heap with_heap w2] in Hcur3, Hlen3. rewrite Hcur2 in Hcur3. cbn [grid to_move] in Hcur3.
    set (w3 := with_heap (flip_player cur (heap w2)).2 w2) in *.
    destruct (IH w3 _ Hal3 Hfresh ltac:(cbn [heap with_heap w3 w2] in *; lia) Hcur3 Hb')
      as (w' & Hrun & Hal4 & Ht4 & Hlen4 & Hoth4).
    + cbn [to_move]. lia.
    + cbn [grid to_move]. pose proof (disks_bound _ Hb'). destruct (decide _); lia.
    + exists w'. split.
      * erewrite mm_bind_done; [|
          erewrite mm_bind_done by exact Hrc;
          erewrite mm_bind_done by apply lift_apply_move_at_eq; done].
        rewrite (mm_bind_done _ _ _ _ _ (lift_flip_player_eq _ _)). exact Hrun.
      * split; [done|]. split.
        { eapply same_tree_trans; [exact Ht1|]. exact Ht4. }
        cbn [heap with_heap w3 w2] in *. rewrite <- Hh1. split; [lia|].
        intros l0 Hne0. by rewrite Hoth4, Hoth3, Hoth2 by done.
Qed.

Lemma simulation_total fuel l w s :
  aligned h (heap w) → snapshot (heap w) l = s → wf_board (grid s) →
  to_move s = 1 ∨ to_move s = -1 → (130 ≤ fuel)%nat →
  ∃ q w', simulation fuel R l w = Done q w' ∧
    aligned h (heap w') ∧ same_tree w w' ∧ keeps_states w w'.
Proof.
  intros Hal Hs Hb Hp Hfuel. unfold simulation.
  destruct (copy_total h Hwf l w Hal) as (cur & w1 & Hrun1 & Hal1 & Ht1 & Hk1 & Hv1 & Hs1).
  rewrite (mm_bind_done _ _ _ _ _ Hrun1).
  rewrite (mm_bind_done _ _ _ _ _ (lift_get_eq _ _)).
  assert (length (games h) ≤ cur)%nat as Hfresh.
  { rewrite lift_copy_eq in Hrun1. injection Hrun1 as <- _.
    destruct Hal as (objs & arrs & Hg & _). rewrite Hg, length_app. lia. }
  assert (cur = length (games (heap w))) as Hcur.
  { rewrite lift_copy_eq in Hrun1. by injection Hrun1 as <- _. }
  rewrite Hs in Hs1.
  destruct (rollout_total fuel cur w1 s Hal1 Hfresh Hv1 Hs1 Hb Hp)
    as (w2 & Hrun2 & Hal2 & Ht2 & Hlen2 & Hoth2).
  { pose proof (disks_bound _ Hb). destruct (decide _); lia. }
  rewrite (mm_bind_done _ _ _ _ _ Hrun2).
  rewrite (mm_bind_done _ _ _ _ _ (lift_get_eq _ _)).
  eexists _, w2. split; [done|]. split; [done|].
  split; [by eapply same_tree_trans|].
  destruct Hk1 as [Hl1 Hk1]. split; [lia|].
  intros l0 Hl0. rewrite Hoth2 by lia. by apply Hk1.
Qed.
End Rollout.


(** ** The two dictionaries of the agent *)

Lemma dict_get_elem_of {V} k (v : V) d : dict_get k d = Some v → (k, v) ∈ d.
Proof.
  induction d as [|[k0 v0] d IH]; cbn [dict_get]; [done|].
  destruct (decide (k0 = k)) as [->|Hne].
  - intros [= ->]. left.
  - intros H. right. by apply IH.
Qed.

Lemma elem_of_dict_set {V} k (v : V) d k' v' :
  (k', v') ∈ dict_set k v d → (k', v') ∈ d ∨ (k' = k ∧ v' = v).
Proof.
  induction d as [|[k0 v0] d IH]; cbn [dict_set].
  - intros [= -> ->]%list_elem_of_singleton. by right.
  - destruct (decide (k0 = k)) as [->|Hne].
    + intros [[= -> ->]|H]%elem_of_cons; [by right|]. left. by right.
    + intros [[= -> ->]|H]%elem_of_cons; [left; left|].
      destruct (IH H) as [?|?]; [left; by right|by right].
Qed.

Lemma dict_get_set {V} k (v : V) d : dict_get k (dict_set k v d) = Some v.
Proof.
  induction d as [|[k0 v0] d IH]; cbn [dict_set dict_get].
  - by rewrite decide_True.
  - destruct (decide (k0 = k)) as [->|Hne]; cbn [dict_get].
    + by rewrite decide_True.
    + by rewrite decide_False.
Qed.

Lemma find_parent_Some c cs k :
  find_parent c cs = Some k → ∃ kids, (k, kids) ∈ cs ∧ c ∈ kids.
Proof.
  induction cs as [|[k0 kids0] cs IH]; cbn [find_parent]; [done|].
  destruct (bool_decide (c ∈ kids0)) eqn:E.
  - intros [= <-]. apply bool_decide_eq_true in E. exists kids0. split; [left|done].
  - intros H. destruct (IH H) as (kids & Hin & Hc). exists kids. split; [by right|done].
Qed.

Lemma mm_bind_ret {A B} (a : A) (k : A → MM B) w : mm_bind (mm_ret a) k w = k a w.
Proof. done. Qed.

Lemma info_read_known k w info :
  node_info w !! k = Some info → info_read k w = Done info w.
Proof. intros H. unfold info_read. by rewrite H. Qed.

Lemma info_read_unknown k w :
  node_info w !! k = None →
  info_read k w = Done empty_info (with_info (<[k := empty_info]> (node_info w)) w).
Proof. intros H. unfold info_read. by rewrite H. Qed.

Lemma info_write_eq k info w :
  info_write k info w = Done tt (with_info (<[k := info]> (node_info w)) w).
Proof. done. Qed.

Lemma backpropagation_None fuel result w : backpropagation fuel None result w = Done tt w.
Proof. by destruct fuel. Qed.

Lemma backpropagation_step fuel key result w info v q :
  node_info w !! key = Some info → visits info = Some v → wins info = Some q →
  backpropagation (S fuel) (Some key) result w =
  backpropagation fuel (find_parent key (children w)) (1 - result)%Qc
    (with_info (<[key := {| visits := Some (v + 1); wins := Some (q + result)%Qc;
                            untried_moves := untried_moves info |}]> (node_info w)) w).
Proof.
  intros Hinfo Hv Hq. cbn [backpropagation].
  rewrite (mm_bind_done _ _ _ _ _ (info_read_known _ _ _ Hinfo)).
  rewrite Hv. cbn [require]. rewrite mm_bind_ret.
  rewrite (mm_bind_done _ _ _ _ _ (info_write_eq _ _ _)).
  erewrite mm_bind_done; [|apply info_read_known; cbn [node_info with_info];
                            apply lookup_insert_eq].
  cbn [wins visits untried_moves]. rewrite Hq. cbn [require]. rewrite mm_bind_ret.
  rewrite (mm_bind_done _ _ _ _ _ (info_write_eq _ _ _)).
  unfold mm_bind. cbn [node_info children with_info].
  rewrite insert_insert_eq. done.
Qed.

(** ** Successors of the root *)

Lemma is_succ_disks s0 c :
  wf_board (grid s0) → to_move s0 = 1 ∨ to_move s0 = -1 → is_succ s0 c →
  wf_board c ∧ disks c = disks (grid s0) + 1.
Proof.
  intros Hb Hp (m & Hm & ->). unfold get_node_key, succ_state. cbn [grid].
  by apply apply_move_wf_disks.
Qed.

Lemma is_succ_ne_root s0 c :
  wf_board (grid s0) → to_move s0 = 1 ∨ to_move s0 = -1 → is_succ s0 c →
  c ≠ get_node_key s0.
Proof.
  intros Hb Hp Hs Heq. destruct (is_succ_disks s0 c Hb Hp Hs) as [_ Hd].
  rewrite Heq in Hd. unfold get_node_key in Hd. lia.
Qed.

Lemma visits_of_insert w w' key info c :
  node_info w' = <[key := info]> (node_info w) →
  visits_of w' c = if decide (key = c) then default 0 (visits info) else visits_of w c.
Proof.
  intros Hn. unfold visits_of. rewrite Hn, lookup_insert. by destruct (decide (key = c)).
Qed.

Section Tree.
Context (s0 : State) (Hb : wf_board (grid s0)) (Hp : to_move s0 = 1 ∨ to_move s0 = -1).

(** Writing the statistics of one node. *)
Lemma tree_inv_info w w' key info :
  tree_inv s0 w → children w' = children w →
  node_info w' = <[key := info]> (node_info w) →
  (key = get_node_key s0 → root_info_ok s0 info) →
  (key ≠ get_node_key s0 → other_info_ok info) →
  tree_inv s0 w'.
Proof.
  intros [H1 H2 H3 H4 H5] Hc Hn Hroot Hother. split; rewrite ?Hc, ?Hn.
  - done.
  - intros kids c Hk Hin. destruct (H2 kids c Hk Hin) as [Hs Hknown].
    split; [done|]. apply lookup_insert_is_Some'. by right.
  - intros kids Hk Hne. apply lookup_insert_is_Some'. right. by eapply H3.
  - intros info1 [[Hk Hi]|[Hne Hl]]%lookup_insert_Some; [|by apply H4].
    rewrite <- Hi. by apply Hroot.
  - intros c info1 Hc1 [[Hk Hi]|[Hne Hl]]%lookup_insert_Some; [|by eapply H5].
    rewrite <- Hi. apply Hother. congruence.
Qed.

(** Touching an entry of [children], and giving the root one more child. *)
Lemma tree_inv_children w w' :
  tree_inv s0 w → node_info w' = node_info w →
  (∀ k kids, (k, kids) ∈ children w' →
     (k, kids) ∈ children w ∨ kids = [] ∨
     k = get_node_key s0 ∧ is_Some (node_info w !! get_node_key s0) ∧
       ∀ c, c ∈ kids → is_succ s0 c ∧ is_Some (node_info w !! c)) →
  tree_inv s0 w'.
Proof.
  intros [H1 H2 H3 H4 H5] Hn Hc. split; rewrite ?Hn; [| | |done|done].
  - intros k kids Hk Hne. destruct (Hc k kids Hk) as [Hold|[->|[-> _]]]; [|done|done].
    by eapply H1.
  - intros kids c Hk Hin. destruct (Hc _ kids Hk) as [Hold|[->|(_ & _ & Hnew)]].
    + by eapply H2.
    + by apply elem_of_nil in Hin.
    + by apply Hnew.
  - intros kids Hk Hne. destruct (Hc _ kids Hk) as [Hold|[->|(_ & Hknown & _)]];
      [by eapply H3|done|done].
Qed.

Lemma tree_inv_find_parent w key :
  tree_inv s0 w →
  find_parent key (children w) = None ∨
  find_parent key (children w) = Some (get_node_key s0) ∧ key ≠ get_node_key s0 ∧
    is_Some (node_info w !! get_node_key s0).
Proof.
  intros [H1 H2 H3 H4 H5]. destruct (find_parent key (children w)) as [k|] eqn:E; [|by left].
  right. destruct (find_parent_Some _ _ _ E) as (kids & Hk & Hin).
  destruct (decide (k = get_node_key s0)) as [->|Hne].
  - split; [done|]. split.
    + apply is_succ_ne_root; [done|done|]. by eapply H2.
    + eapply H3; [done|]. intros ->. by apply elem_of_nil in Hin.
  - rewrite (H1 k kids Hk Hne) in Hin. by apply elem_of_nil in Hin.
Qed.

Lemma tree_inv_known w key info :
  tree_inv s0 w → node_info w !! key = Some info →
  ∃ v q, visits info = Some v ∧ 0 ≤ v ∧ wins info = Some q ∧
         ((key = get_node_key s0 ∧ root_info_ok s0 info) ∨
          (key ≠ get_node_key s0 ∧ other_info_ok info)).
Proof.
  intros [H1 H2 H3 H4 H5] Hinfo.
  destruct (decide (key = get_node_key s0)) as [->|Hne].
  - pose proof (H4 info Hinfo) as Hok. pose proof Hok as (_ & (v & Hv & Hv0) & [q Hq]).
    exists v, q. split; [done|]. split; [done|]. split; [done|]. by left.
  - pose proof (H5 key info Hne Hinfo) as Hok.
    pose proof Hok as (_ & (v & Hv & Hv0) & [q Hq]).
    exists v, q. split; [done|]. split; [done|]. split; [done|]. by right.
Qed.

(** One more visit. *)
Lemma bump_spec w key info v q q' kb :
  tree_inv s0 w → kids_visited_but s0 kb w →
  node_info w !! key = Some info → visits info = Some v → 0 ≤ v → wins info = Some q →
  let w' := with_info (<[key := {| visits := Some (v + 1); wins := Some q';
                                  untried_moves := untried_moves info |}]> (node_info w)) w in
  tree_inv s0 w' ∧ kids_visited_but s0 kb w' ∧ 1 ≤ visits_of w' key ∧
  (∀ c, visits_of w c ≤ visits_of w' c) ∧
  (∀ c, is_Some (node_info w !! c) → is_Some (node_info w' !! c)).
Proof.
  intros Hinv Hvis Hinfo Hv Hv0 Hq w'.
  assert (∀ c, visits_of w c ≤ visits_of w' c) as Hmono.
  { intros c. rewrite (visits_of_insert w w' key _ c eq_refl).
    destruct (decide (key = c)) as [<-|Hne]; [|lia].
    unfold visits_of. rewrite Hinfo. cbn. rewrite Hv. cbn. lia. }
  destruct (tree_inv_known w key info Hinv Hinfo) as (v1 & q1 & Hv1 & _ & _ & Hok).
  split; [|split; [|split; [|split]]].
  - apply (tree_inv_info w w' key _ Hinv eq_refl eq_refl).
    + intros Hk. destruct Hok as [[_ (Hl & _ & _)]|[Hne _]]; [|done].
      split; [done|]. split; [|by eexists]. exists (v + 1). split; [done|lia].
    + intros Hk. destruct Hok as [[Heq _]|[_ (Hl & _ & _)]]; [done|].
      split; [done|]. split; [|by eexists]. exists (v + 1). split; [done|lia].
  - intros kids c Hk Hin Hne. pose proof (Hvis kids c Hk Hin Hne). pose proof (Hmono c). lia.
  - rewrite (visits_of_insert w w' key _ key eq_refl), decide_True by done. cbn. lia.
  - done.
  - intros c Hc. cbn [node_info with_info w']. apply lookup_insert_is_Some'. by right.
Qed.

Lemma backpropagation_total fuel key result w :
  (2 ≤ fuel)%nat → tree_inv s0 w → kids_visited_but s0 (Some key) w →
  is_Some (node_info w !! key) →
  ∃ w', backpropagation fuel (Some key) result w = Done tt w' ∧
    heap w' = heap w ∧ children w' = children w ∧
    tree_inv s0 w' ∧ kids_visited_but s0 None w' ∧
    (∀ c, is_Some (node_info w !! c) → is_Some (node_info w' !! c)).
Proof.
  intros Hfuel Hinv Hvis [info Hinfo].
  destruct fuel as [|[|fuel]]; [lia|lia|].
  destruct (tree_inv_known w key info Hinv Hinfo) as (v & q & Hv & Hv0 & Hq & _).
  rewrite (backpropagation_step _ key result w info v q Hinfo Hv Hq).
  destruct (bump_spec w key info v q (q + result)%Qc (Some key) Hinv Hvis Hinfo Hv Hv0 Hq)
    as (Hinv1 & Hvis1 & Hone & Hmono & Hknown).
  set (w1 := with_info _ w) in *.
  assert (kids_visited_but s0 None w1) as Hvis1'.
  { intros kids c Hk Hin _. destruct (decide (c = key)) as [->|Hne]; [done|].
    apply (Hvis1 kids c Hk Hin). congruence. }
  change (children w) with (children w1).
  destruct (tree_inv_find_parent w1 key Hinv1) as [->|(-> & Hne & [rinfo Hrinfo])].
  { rewrite backpropagation_None. by exists w1. }
  destruct (tree_inv_known w1 _ rinfo Hinv1 Hrinfo) as (rv & rq & Hrv & Hrv0 & Hrq & _).
  rewrite (backpropagation_step _ _ _ w1 rinfo rv rq Hrinfo Hrv Hrq).
  destruct (bump_spec w1 _ rinfo rv rq (rq + (1 - result))%Qc None
              Hinv1 Hvis1' Hrinfo Hrv Hrv0 Hrq) as (Hinv2 & Hvis2 & _ & _ & Hknown2).
  set (w2 := with_info _ w1) in *.
  change (children w1) with (children w2).
  destruct (tree_inv_find_parent w2 (get_node_key s0) Hinv2) as [->|(_ & Hcontra & _)];
    [|done].
  rewrite backpropagation_None. exists w2. repeat (split; [done|]). auto.
Qed.
End Tree.


(** ** One pass of the search *)

Lemma mm_map_pure {A B} (f : A → MM B) (g : A → B) (l : list A) w :
  (∀ x, x ∈ l → f x w = Done (g x) w) → mm_map f l w = Done (g <$> l) w.
Proof.
  induction l as [|x l IH]; intros Hf; cbn [mm_map fmap list_fmap]; [done|].
  rewrite (mm_bind_done _ _ _ _ _ (Hf x ltac:(left))).
  rewrite (mm_bind_done _ _ _ _ _ (IH (λ y Hy, Hf y ltac:(by right)))).
  done.
Qed.

Lemma kids_visited_weaken s0 kb w :
  kids_visited_but s0 None w → kids_visited_but s0 kb w.
Proof. intros H kids c Hk Hin _. by apply (H kids c). Qed.

Lemma mm_bind_pure {A B} (f : World → A) (k : A → MM B) w :
  mm_bind (λ w0, Done (f w0) w0) k w = k (f w) w.
Proof. done. Qed.

Lemma dict_get_set_ne {V} k k' (v : V) d :
  k' ≠ k → dict_get k' (dict_set k v d) = dict_get k' d.
Proof.
  intros Hne. induction d as [|[k0 v0] d IH]; cbn [dict_set dict_get].
  - by rewrite decide_False.
  - destruct (decide (k0 = k)) as [->|Hne0]; cbn [dict_get].
    + by rewrite !decide_False.
    + by rewrite IH.
Qed.

Lemma kids_of_elem w k c : c ∈ kids_of w k → (k, kids_of w k) ∈ children w.
Proof.
  unfold kids_of. destruct (dict_get k (children w)) as [kids|] eqn:E; cbn.
  - intros _. by apply dict_get_elem_of.
  - by intros ?%elem_of_nil.
Qed.

Lemma keeps_states_heap w1 w2 w2' :
  heap w2' = heap w2 → keeps_states w1 w2 → keeps_states w1 w2'.
Proof. unfold keeps_states. by intros ->. Qed.

Section Search.
Context (h : Heap) (Hwf : heap_wf h) (R : Runtime) (HR : runtime_ok R).
Context (s0 : State) (Hb : wf_board (grid s0)) (Hp : to_move s0 = 1 ∨ to_move s0 = -1).

Lemma children_read_tree k w kb :
  tree_inv s0 w → kids_visited_but s0 kb w →
  ∃ kids w', children_read k w = Done kids w' ∧
    heap w' = heap w ∧ node_info w' = node_info w ∧ (k, kids) ∈ children w' ∧
    (∀ k' v, (k', v) ∈ children w' → (k', v) ∈ children w ∨ v = []) ∧
    tree_inv s0 w' ∧ kids_visited_but s0 kb w'.
Proof.
  intros Hinv Hvis. unfold children_read.
  destruct (dict_get k (children w)) as [kids|] eqn:E.
  - exists kids, w. split; [done|]. split; [done|]. split; [done|].
    split; [by apply dict_get_elem_of|]. split; [by left|]. done.
  - eexists [], _. split; [done|]. cbn [heap node_info children].
    split; [done|]. split; [done|].
    split; [apply dict_get_elem_of, dict_get_set|].
    assert (∀ k' v, (k', v) ∈ dict_set k [] (children w) → (k', v) ∈ children w ∨ v = [])
      as Hentries.
    { intros k' v [?|[_ ->]]%elem_of_dict_set; [by left|by right]. }
    split; [done|]. split.
    + apply (tree_inv_children s0 w); [done|done|]. cbn [children].
      intros k' v Hin. destruct (Hentries k' v Hin) as [?|?]; [by left|right; by left].
    + intros kids c Hk Hin Hne. cbn [children] in Hk.
      destruct (Hentries _ _ Hk) as [Hold| ->]; [|by apply elem_of_nil in Hin].
      apply (Hvis kids c Hold Hin Hne).
Qed.

Lemma rollouts_total n fuel e key w :
  (130 ≤ fuel)%nat → aligned h (heap w) → (e < length (games (heap w)))%nat →
  wf_board (grid (snapshot (heap w) e)) →
  to_move (snapshot (heap w) e) = 1 ∨ to_move (snapshot (heap w) e) = -1 →
  is_Some (node_info w !! key) → tree_inv s0 w → kids_visited_but s0 (Some key) w →
  ∃ w', rollouts n fuel R e key w = Done tt w' ∧
    aligned h (heap w') ∧ keeps_states w w' ∧ children w' = children w ∧
    tree_inv s0 w' ∧ kids_visited_but s0 (Some key) w' ∧
    ((1 ≤ n)%nat ∨ kids_visited_but s0 None w → kids_visited_but s0 None w').
Proof.
  intros Hfuel. revert w.
  induction n as [|n IH]; intros w Hal He Hwb Hwp Hknown Hinv Hvis; cbn [rollouts].
  { exists w. split; [done|]. split; [done|]. split; [apply keeps_states_refl|].
    split; [done|]. split; [done|]. split; [done|]. intros [?|?]; [lia|done]. }
  destruct (copy_total h Hwf e w Hal) as (g1 & w1 & Hrun1 & Hal1 & Ht1 & Hk1 & Hv1 & Hs1).
  rewrite (mm_bind_done _ _ _ _ _ Hrun1).
  rewrite <- Hs1 in Hwb, Hwp.
  destruct (simulation_total h Hwf R HR fuel g1 w1 _ Hal1 eq_refl Hwb Hwp Hfuel)
    as (q & w2 & Hrun2 & Hal2 & Ht2 & Hk2).
  rewrite (mm_bind_done _ _ _ _ _ Hrun2).
  pose proof (same_tree_trans _ _ _ Ht1 Ht2) as Ht.
  pose proof (keeps_states_trans _ _ _ Hk1 Hk2) as Hk.
  destruct (backpropagation_total s0 Hb Hp fuel key q w2 ltac:(lia)
              (tree_inv_same _ _ _ Ht Hinv) (kids_visited_but_same _ _ _ _ Ht Hvis))
    as (w3 & Hrun3 & Hh3 & Hc3 & Hinv3 & Hvis3 & Hknown3).
  { destruct Ht as [_ ->]. done. }
  rewrite (mm_bind_done _ _ _ _ _ Hrun3).
  assert (keeps_states w w3) as Hk3 by by apply (keeps_states_heap _ w2).
  destruct Hk3 as [Hlen3 Hsnap3].
  destruct (IH w3) as (w' & Hrun & Hal' & Hk' & Hc' & Hinv' & Hvis' & Hnone).
  - by rewrite Hh3.
  - lia.
  - rewrite Hsnap3 by done. by rewrite <- Hs1.
  - rewrite Hsnap3 by done. by rewrite <- Hs1.
  - apply Hknown3. destruct Ht as [_ ->]. done.
  - done.
  - by apply kids_visited_weaken.
  - exists w'. split; [done|]. split; [done|].
    split; [by apply (keeps_states_trans _ w3)|].
    split; [rewrite Hc', Hc3; by destruct Ht|]. split; [done|]. split; [done|].
    intros _. apply Hnone. by right.
Qed.

Lemma children_read_spec k w kb :
  tree_inv s0 w → kids_visited_but s0 kb w →
  ∃ w', children_read k w = Done (kids_of w k) w' ∧
    heap w' = heap w ∧ node_info w' = node_info w ∧
    (∀ k0, kids_of w' k0 = kids_of w k0) ∧
    tree_inv s0 w' ∧ kids_visited_but s0 kb w'.
Proof.
  intros Hinv Hvis.
  destruct (children_read_tree k w kb Hinv Hvis)
    as (kids & w' & Hrun & Hh & Hn & Hin & Hent & Hinv' & Hvis').
  exists w'. revert Hrun. unfold children_read, kids_of.
  destruct (dict_get k (children w)) as [kids0|] eqn:E; intros [= <- <-]; cbn [default].
  - done.
  - split; [done|]. cbn [heap node_info children] in *. split; [done|]. split; [done|].
    split; [|done]. intros k0. destruct (decide (k0 = k)) as [->|Hne].
    + by rewrite dict_get_set, E.
    + by rewrite dict_get_set_ne.
Qed.

Lemma child_stats_known c w info v q :
  node_info w !! c = Some info → visits info = Some v → wins info = Some q → 1 ≤ v →
  child_stats c w = Done (c, (q, v)) w.
Proof.
  intros Hinfo Hv Hq Hpos. unfold child_stats.
  rewrite (mm_bind_done _ _ _ _ _ (info_read_known _ _ _ Hinfo)).
  rewrite Hq, Hv. cbn [require]. rewrite !mm_bind_ret.
  destruct (v =? 0) eqn:E; [lia|done].
Qed.

Lemma kids_stats w kids :
  tree_inv s0 w → kids_visited_but s0 None w → (get_node_key s0, kids) ∈ children w →
  ∃ stats, mm_map child_stats kids w = Done stats w ∧ stats.*1 = kids.
Proof.
  intros Hinv Hvis Hk.
  exists ((λ c, (c, (default 0%Qc (node_info w !! c ≫= wins), visits_of w c))) <$> kids).
  split.
  - apply mm_map_pure. intros c Hc.
    destruct (inv_kids _ _ Hinv kids c Hk Hc) as [Hs [info Hinfo]].
    destruct (tree_inv_known s0 w c info Hinv Hinfo) as (v & q & Hv & _ & Hq & _).
    pose proof (Hvis kids c Hk Hc ltac:(done)) as Hone.
    unfold visits_of in *. rewrite Hinfo in *. cbn in *. rewrite Hv, Hq in *. cbn in *.
    by apply (child_stats_known c w info).
  - rewrite <- list_fmap_compose. clear. induction kids as [|c kids IH]; [done|].
    cbn. by rewrite IH.
Qed.

Section Selection.
Context (A : MCTSAgent).

Lemma selection_leaf fuel new w m :
  aligned h (heap w) → (new < length (games (heap w)))%nat →
  snapshot (heap w) new = succ_state s0 m →
  m ∈ valid_moves (grid s0) (to_move s0) →
  is_Some (node_info w !! get_node_key (succ_state s0 m)) →
  tree_inv s0 w → kids_visited_but s0 None w →
  ∃ loc w', selection (S fuel) R A new w = Done loc w' ∧ selection_post h s0 w loc w' ∧
    snapshot (heap w') loc = succ_state s0 m.
Proof.
  intros Hal Hnew Hs Hm Hknown Hinv Hvis. cbn [selection].
  rewrite (mm_bind_done _ _ _ _ _ (lift_get_eq _ _)). rewrite Hs.
  rewrite mm_bind_pure. rewrite (bool_decide_eq_true_2 _ Hknown).
  destruct (children_read_spec (get_node_key (succ_state s0 m)) w None Hinv Hvis)
    as (w1 & Hrun1 & Hh1 & Hn1 & Hk1 & Hinv1 & Hvis1).
  rewrite (mm_bind_done _ _ _ _ _ Hrun1).
  assert (kids_of w (get_node_key (succ_state s0 m)) = []) as ->.
  { destruct (kids_of w (get_node_key (succ_state s0 m))) as [|c kids] eqn:E; [done|].
    assert (c ∈ kids_of w (get_node_key (succ_state s0 m))) as Hc by (rewrite E; left).
    apply kids_of_elem in Hc. rewrite E in Hc.
    apply (inv_leaf _ _ Hinv) in Hc; [done|].
    apply is_succ_ne_root; [done|done|]. by exists m. }
  rewrite (bool_decide_eq_true_2 _ eq_refl). cbn [negb orb].
  rewrite <- Hh1 in Hal, Hnew, Hs.
  destruct (copy_total h Hwf new w1 Hal) as (loc & w2 & Hrun2 & Hal2 & Ht2 & Hk2 & Hv2 & Hs2).
  exists loc, w2. split; [done|]. split; [|by rewrite Hs2].
  split; [done|]. split.
  { destruct Hk2 as [Hl2 Hsn2]. split; rewrite <- Hh1; [done|]. done. }
  split; [done|]. split; [by apply (tree_inv_same _ w1)|].
  split; [by apply (kids_visited_but_same _ _ w1)|].
  destruct Ht2 as [Hc2 Hn2]. split; [by rewrite Hn2|].
  intros k. rewrite <- Hk1. unfold kids_of. by rewrite Hc2.
Qed.

Lemma selection_post_trans w1 w2 w3 loc loc' :
  selection_post h s0 w1 loc w2 → selection_post h s0 w2 loc' w3 →
  selection_post h s0 w1 loc' w3.
Proof.
  intros (_ & Hk1 & _ & _ & _ & Hn1 & Hc1) (Hal & Hk2 & Hl & Hinv & Hvis & Hn2 & Hc2).
  split; [done|]. split; [by apply (keeps_states_trans _ w2)|]. split; [done|].
  split; [done|]. split; [done|]. split; [congruence|].
  intros k. by rewrite Hc2, Hc1.
Qed.

Lemma find_child_total fuel best moves g w :
  aligned h (heap w) → (g < length (games (heap w)))%nat → snapshot (heap w) g = s0 →
  tree_inv s0 w → kids_visited_but s0 None w →
  (∀ m, m ∈ moves → m ∈ valid_moves (grid s0) (to_move s0)) →
  is_Some (node_info w !! best) →
  (∃ m, m ∈ moves ∧ get_node_key (succ_state s0 m) = best) →
  ∃ loc w', find_child (selection (S fuel) R A) g best moves w = Done loc w' ∧
    selection_post h s0 w loc w' ∧
    ∃ m, m ∈ valid_moves (grid s0) (to_move s0) ∧
         snapshot (heap w') loc = succ_state s0 m ∧
         get_node_key (succ_state s0 m) = best.
Proof.
  revert w. induction moves as [|m moves IH];
    intros w Hal Hg Hs Hinv Hvis Hmoves Hknown Hex.
  { destruct Hex as (m & Hm & _). by apply elem_of_nil in Hm. }
  cbn [find_child].
  destruct (successor_total h Hwf g m w Hal)
    as (new & w1 & Hrun1 & Hal1 & Ht1 & Hk1 & Hv1 & Hs1).
  rewrite (mm_bind_done _ _ _ _ _ Hrun1).
  rewrite (mm_bind_done _ _ _ _ _ (key_of_eq _ _)).
  rewrite Hs1, Hs.
  assert (selection_post h s0 w new w1) as Hpost1.
  { split; [done|]. split; [done|]. split; [done|].
    split; [by apply (tree_inv_same _ w)|].
    split; [by apply (kids_visited_but_same _ _ w)|].
    destruct Ht1 as [Hc1 Hn1]. split; [done|]. intros k. unfold kids_of. by rewrite Hc1. }
  pose proof Hpost1 as (_ & _ & _ & Hinv1 & Hvis1 & Hn1 & _).
  destruct (decide (get_node_key (succ_state s0 m) = best)) as [Heq|Hne].
  - destruct (selection_leaf fuel new w1 m Hal1 Hv1) as (loc & w2 & Hrun2 & Hpost2 & Hs2).
    + by rewrite Hs1, Hs.
    + apply Hmoves. left.
    + by rewrite Hn1, Heq.
    + done.
    + done.
    + exists loc, w2. split; [done|]. split; [by eapply selection_post_trans|].
      exists m. split; [apply Hmoves; left|done].
  - destruct Hk1 as [Hl1 Hsn1].
    destruct (IH w1 Hal1 ltac:(lia)) as (loc & w2 & Hrun2 & Hpost2 & Hres).
    + by rewrite Hsn1.
    + done.
    + done.
    + intros m' Hm'. apply Hmoves. by right.
    + by rewrite Hn1.
    + destruct Hex as (m' & [->|Hm']%elem_of_cons & Hkey); [done|]. by exists m'.
    + exists loc, w2. split; [done|]. split; [by eapply selection_post_trans|done].
Qed.

Lemma selection_total fuel g w :
  (2 ≤ fuel)%nat → aligned h (heap w) → (g < length (games (heap w)))%nat →
  snapshot (heap w) g = s0 → tree_inv s0 w → kids_visited_but s0 None w →
  ∃ loc w', selection fuel R A g w = Done loc w' ∧ selection_post h s0 w loc w' ∧
    ((snapshot (heap w') loc = s0 ∧ kids_of w (get_node_key s0) = []) ∨
     (∃ m, m ∈ valid_moves (grid s0) (to_move s0) ∧
           snapshot (heap w') loc = succ_state s0 m ∧
           get_node_key (succ_state s0 m) ∈ kids_of w (get_node_key s0))).
Proof.
  intros Hfuel Hal Hg Hs Hinv Hvis.
  destruct fuel as [|[|fuel]]; [lia|lia|]. cbn [selection].
  rewrite (mm_bind_done _ _ _ _ _ (lift_get_eq _ _)). rewrite Hs.
  rewrite mm_bind_pure.
  assert (∀ w1, heap w1 = heap w → tree_inv s0 w1 → kids_visited_but s0 None w1 →
                node_info w1 = node_info w → (∀ k, kids_of w1 k = kids_of w k) →
                kids_of w (get_node_key s0) = [] →
    ∃ loc w', lift (copy g) w1 = Done loc w' ∧ selection_post h s0 w loc w' ∧
      ((snapshot (heap w') loc = s0 ∧ kids_of w (get_node_key s0) = []) ∨
       (∃ m, m ∈ valid_moves (grid s0) (to_move s0) ∧
             snapshot (heap w') loc = succ_state s0 m ∧
             get_node_key (succ_state s0 m) ∈ kids_of w (get_node_key s0)))) as Hcopy.
  { intros w1 Hh1 Hinv1 Hvis1 Hn1 Hk1 Hnone.
    rewrite <- Hh1 in Hal, Hg, Hs.
    destruct (copy_total h Hwf g w1 Hal) as (loc & w2 & Hrun2 & Hal2 & Ht2 & Hk2 & Hv2 & Hs2).
    exists loc, w2. split; [done|]. split; [|left; split; [by rewrite Hs2|done]].
    split; [done|]. split.
    { destruct Hk2 as [Hl2 Hsn2]. split; rewrite <- Hh1; done. }
    split; [done|]. split; [by apply (tree_inv_same _ w1)|].
    split; [by apply (kids_visited_but_same _ _ w1)|].
    destruct Ht2 as [Hc2 Hn2]. split; [by rewrite Hn2|].
    intros k. rewrite <- Hk1. unfold kids_of. by rewrite Hc2. }
  destruct (decide (is_Some (node_info w !! get_node_key s0))) as [Hknown|Hunknown].
  2:{ rewrite (bool_decide_eq_false_2 _ Hunknown). rewrite mm_bind_ret. cbn [negb orb].
      apply Hcopy; try done.
      destruct (kids_of w (get_node_key s0)) as [|c kids] eqn:E; [done|].
      assert (c ∈ kids_of w (get_node_key s0)) as Hc by (rewrite E; left).
      apply kids_of_elem in Hc. rewrite E in Hc.
      destruct Hunknown. by apply (inv_root_known _ _ Hinv (c :: kids)). }
  rewrite (bool_decide_eq_true_2 _ Hknown).
  destruct (children_read_spec (get_node_key s0) w None Hinv Hvis)
    as (w1 & Hrun1 & Hh1 & Hn1 & Hk1 & Hinv1 & Hvis1).
  rewrite (mm_bind_done _ _ _ _ _ Hrun1).
  destruct (kids_of w (get_node_key s0)) as [|c kids] eqn:E.
  { rewrite (bool_decide_eq_true_2 _ eq_refl). cbn [negb orb]. by apply Hcopy. }
  rewrite bool_decide_eq_false_2 by done. cbn [negb orb].
  destruct Hknown as [info Hinfo].
  rewrite <- Hn1 in Hinfo.
  rewrite (mm_bind_done _ _ _ _ _ (info_read_known _ _ _ Hinfo)).
  destruct (tree_inv_known s0 w1 _ info Hinv1 Hinfo) as (v & q & Hv & _ & _ & _).
  rewrite Hv. cbn [require]. rewrite mm_bind_ret.
  assert ((get_node_key s0, c :: kids) ∈ children w1) as Hentry.
  { rewrite <- E, <- Hk1. apply (kids_of_elem w1 _ c). rewrite Hk1, E. left. }
  destruct (kids_stats w1 (c :: kids) Hinv1 Hvis1 Hentry) as (stats & Hrun2 & Hstats).
  rewrite (mm_bind_done _ _ _ _ _ Hrun2).
  assert (ucb1_best R (c_param A) v stats ∈ c :: kids) as Hbest.
  { rewrite <- Hstats. apply (proj2 HR). intros ->. done. }
  destruct (inv_kids _ _ Hinv1 _ _ Hentry Hbest) as [(mb & Hmb & Hkey) Hbknown].
  rewrite <- Hh1 in Hal, Hg, Hs.
  destruct (find_child_total fuel (ucb1_best R (c_param A) v stats)
              (list_of_set R (valid_moves (grid s0) (to_move s0))) g w1
              Hal Hg Hs Hinv1 Hvis1) as (loc & w2 & Hrun3 & Hpost3 & m & Hm & Hsm & Hkm).
  - intros m Hm. by apply (proj1 HR).
  - done.
  - exists mb. split; [by apply (proj1 HR)|done].
  - exists loc, w2. split; [done|]. split.
    + destruct Hpost3 as (Hal3 & [Hl3 Hsn3] & Hloc3 & Hinv3 & Hvis3 & Hn3 & Hk3).
      split; [done|]. split; [split; rewrite <- Hh1; done|]. split; [done|].
      split; [done|]. split; [done|]. split; [congruence|].
      intros k. by rewrite Hk3, Hk1.
    + right. exists m. split; [done|]. split; [done|]. by rewrite Hkm.
Qed.
End Selection.
End Search.


(** ** Expansion *)

Lemma children_append_eq k c w kids w' :
  children_read k w = Done kids w' →
  children_append k c w =
  Done tt (with_children (dict_set k (kids ++ [c]) (children w')) w').
Proof. intros H. unfold children_append. by rewrite (mm_bind_done _ _ _ _ _ H). Qed.

Lemma info_init_eq {B} k info (kont : MM B) w :
  mm_bind (info_read k) (λ _, mm_bind (info_write k info) (λ _, kont)) w =
  kont (with_info (<[k := info]> (node_info w)) w).
Proof.
  destruct (node_info w !! k) as [old|] eqn:E.
  - rewrite (mm_bind_done _ _ _ _ _ (info_read_known _ _ _ E)).
    by rewrite (mm_bind_done _ _ _ _ _ (info_write_eq _ _ _)).
  - rewrite (mm_bind_done _ _ _ _ _ (info_read_unknown _ _ E)).
    rewrite (mm_bind_done _ _ _ _ _ (info_write_eq _ _ _)).
    unfold with_info. cbn [heap children node_info rng]. by rewrite insert_insert_eq.
Qed.

Lemma expansion_unknown R g w :
  node_info w !! get_node_key (snapshot (heap w) g) = None →
  expansion R g w =
  expansion R g
    (with_info (<[get_node_key (snapshot (heap w) g) :=
                  {| visits := Some 0; wins := Some 0%Qc;
                     untried_moves :=
                       Some (Some (list_of_set R
                         (valid_moves (grid (snapshot (heap w) g))
                                      (to_move (snapshot (heap w) g))))) |}]>
                  (node_info w)) w).
Proof.
  intros Hunknown. unfold expansion.
  rewrite !(mm_bind_done _ _ _ _ _ (lift_get_eq _ _)).
  cbn [heap with_info].
  rewrite (mm_bind_done _ _ _ _ _ (info_read_unknown _ _ Hunknown)).
  cbn [untried_moves empty_info].
  rewrite (mm_bind_done _ _ _ _ _ (info_write_eq _ _ _)).
  erewrite (mm_bind_done _ _ (with_info _ w));
    [|apply info_read_known; cbn [node_info with_info]; apply lookup_insert_eq].
  cbn [untried_moves]. rewrite mm_bind_ret.
  unfold with_info at 1 2. cbn [heap children node_info rng].
  by rewrite insert_insert_eq.
Qed.

Lemma expansion_stay R g w info :
  node_info w !! get_node_key (snapshot (heap w) g) = Some info →
  untried_moves info = Some None ∨ untried_moves info = Some (Some []) →
  expansion R g w = lift (copy g) w.
Proof.
  intros Hinfo Hunt. unfold expansion.
  rewrite (mm_bind_done _ _ _ _ _ (lift_get_eq _ _)).
  rewrite (mm_bind_done _ _ _ _ _ (info_read_known _ _ _ Hinfo)).
  destruct Hunt as [Hunt|Hunt]; rewrite Hunt; rewrite mm_bind_ret;
    rewrite (mm_bind_done _ _ _ _ _ (info_read_known _ _ _ Hinfo)); by rewrite Hunt.
Qed.

Lemma elem_of_remove_first x y l : y ∈ remove_first x l → y ∈ l.
Proof.
  induction l as [|z l IH]; cbn [remove_first]; [done|].
  destruct (decide (z = x)); [by right|].
  intros [->|H]%elem_of_cons; [left|right; by apply IH].
Qed.

Section Expansion.
Context (h : Heap) (Hwf : heap_wf h) (R : Runtime) (HR : runtime_ok R).
Context (s0 : State) (Hb : wf_board (grid s0)) (Hp : to_move s0 = 1 ∨ to_move s0 = -1).

Lemma kids_visited_info w w' kb info :
  tree_inv s0 w → kids_visited_but s0 kb w → children w' = children w →
  node_info w' = <[get_node_key s0 := info]> (node_info w) →
  kids_visited_but s0 kb w'.
Proof.
  intros Hinv Hvis Hc Hn kids c Hk Hin Hne. rewrite Hc in Hk.
  rewrite (visits_of_insert w w' _ _ c Hn), decide_False; [by apply (Hvis kids)|].
  intros Heq. destruct (inv_kids _ _ Hinv kids c Hk Hin) as [Hs _].
  by apply (is_succ_ne_root s0 c Hb Hp).
Qed.

(** At the root, with a move left to try. *)
Lemma expansion_add g w info m0 ms :
  aligned h (heap w) → (g < length (games (heap w)))%nat → snapshot (heap w) g = s0 →
  tree_inv s0 w → kids_visited_but s0 None w →
  node_info w !! get_node_key s0 = Some info →
  untried_moves info = Some (Some (m0 :: ms)) →
  ∃ e w' c, expansion R g w = Done e w' ∧
    aligned h (heap w') ∧ keeps_states w w' ∧ (e < length (games (heap w')))%nat ∧
    is_succ s0 c ∧ get_node_key (snapshot (heap w') e) = c ∧
    to_move (snapshot (heap w') e) = to_move s0 * -1 ∧
    is_Some (node_info w' !! c) ∧ visits_of w' c = 0 ∧
    tree_inv s0 w' ∧ kids_visited_but s0 (Some c) w' ∧
    kids_of w' (get_node_key s0) = kids_of w (get_node_key s0) ++ [c].
Proof.
  intros Hal Hg Hs Hinv Hvis Hinfo Hunt.
  destruct (inv_root _ _ Hinv info Hinfo) as ((l & Hl & Hlegal) & (v & Hv & Hv0) & Hwins).
  rewrite Hunt in Hl. injection Hl as <-.
  unfold expansion.
  rewrite (mm_bind_done _ _ _ _ _ (lift_get_eq _ _)). rewrite Hs.
  rewrite (mm_bind_done _ _ _ _ _ (info_read_known _ _ _ Hinfo)).
  rewrite Hunt. rewrite mm_bind_ret.
  rewrite (mm_bind_done _ _ _ _ _ (info_read_known _ _ _ Hinfo)).
  rewrite Hunt.
  destruct (random_choice_total (m0 :: ms) w ltac:(done)) as (move & w1 & Hrc & Hin & Hh1 & Ht1).
  rewrite (mm_bind_done _ _ _ _ _ Hrc).
  rewrite (mm_bind_done _ _ _ _ _ (info_write_eq _ _ _)).
  set (info' := {| visits := visits info; wins := wins info;
                   untried_moves := Some (Some (remove_first move (m0 :: ms))) |}).
  set (w2 := with_info (<[get_node_key s0 := info']> (node_info w1)) w1).
  pose proof (tree_inv_same _ _ _ Ht1 Hinv) as Hinv1.
  pose proof (kids_visited_but_same _ _ _ _ Ht1 Hvis) as Hvis1.
  assert (tree_inv s0 w2) as Hinv2.
  { apply (tree_inv_info s0 w1 w2 (get_node_key s0) info' Hinv1 eq_refl eq_refl); [|done].
    intros _. split; [|split; [by exists v|done]].
    eexists. split; [done|]. intros m Hm. by apply Hlegal, (elem_of_remove_first move). }
  pose proof (kids_visited_info w1 w2 None info' Hinv1 Hvis1 eq_refl eq_refl) as Hvis2.
  assert (aligned h (heap w2)) as Hal2 by (cbn [heap with_info w2]; by rewrite Hh1).
  destruct (successor_total h Hwf g move w2 Hal2)
    as (new & w3 & Hrun3 & Hal3 & Ht3 & Hk3 & Hv3 & Hs3).
  rewrite (mm_bind_done _ _ _ _ _ Hrun3).
  rewrite (mm_bind_done _ _ _ _ _ (key_of_eq _ _)).
  cbn [heap with_info w2] in Hs3. rewrite Hh1, Hs in Hs3. rewrite Hs3.
  set (c := get_node_key (succ_state s0 move)).
  assert (is_succ s0 c) as Hsucc by (exists move; split; [by apply Hlegal|done]).
  pose proof (is_succ_ne_root s0 c Hb Hp Hsucc) as Hcne.
  pose proof (tree_inv_same _ _ _ Ht3 Hinv2) as Hinv3.
  pose proof (kids_visited_but_same _ _ _ _ Ht3 Hvis2) as Hvis3.
  destruct (children_read_spec s0 (get_node_key s0) w3 None Hinv3 Hvis3)
    as (w4 & Hrun4 & Hh4 & Hn4 & Hk4 & Hinv4 & Hvis4).
  rewrite (mm_bind_done _ _ _ _ _ (children_append_eq _ c _ _ _ Hrun4)).
  rewrite info_init_eq. unfold mm_ret.
  set (kids := kids_of w3 (get_node_key s0)) in *.
  set (inew := {| visits := Some 0; wins := Some 0%Qc; untried_moves := Some None |}).
  set (wx := with_info (<[c := inew]> (node_info w4)) w4).
  set (w7 := with_info _ (with_children _ w4)).
  assert (node_info w4 = <[get_node_key s0 := info']> (node_info w)) as Hni4.
  { rewrite Hn4. destruct Ht3 as [_ ->]. cbn [node_info with_info w2].
    by destruct Ht1 as [_ ->]. }
  assert (children w4 = children w ∨ kids_of w4 (get_node_key s0) = kids) as _ by (by right).
  assert (kids_of w4 (get_node_key s0) = kids) as Hkids4 by apply Hk4.
  assert (kids = kids_of w (get_node_key s0)) as Hkids.
  { unfold kids, kids_of. destruct Ht3 as [-> _]. cbn [children with_info w2].
    by destruct Ht1 as [-> _]. }
  assert (tree_inv s0 wx) as Hinvx.
  { apply (tree_inv_info s0 w4 wx c inew Hinv4 eq_refl eq_refl); [done|].
    intros _. split; [done|]. split; [by exists 0|done]. }
  assert (tree_inv s0 w7) as Hinv7.
  { apply (tree_inv_children s0 wx w7 Hinvx eq_refl).
    intros k kv [Hold|[-> ->]]%elem_of_dict_set; [by left|]. right. right.
    split; [done|]. split.
    { cbn [node_info with_info wx]. apply lookup_insert_is_Some'. right.
      rewrite Hni4. rewrite lookup_insert_eq. done. }
    intros c' [Hc'|Hc'%list_elem_of_singleton]%elem_of_app; [|subst c'].
    - rewrite <- Hkids4 in Hc'. pose proof (kids_of_elem _ _ _ Hc') as Hentry.
      apply (inv_kids _ _ Hinvx _ c' Hentry Hc').
    - split; [done|]. cbn [node_info with_info wx]. by rewrite lookup_insert_eq. }
  exists new, w7, c.
  split; [done|].
  split; [cbn [heap with_info with_children w7]; by rewrite Hh4|]. split.
  { destruct Hk3 as [Hl3 Hsn3]. unfold keeps_states.
    cbn [heap with_info with_children w7 w2] in *.
    rewrite Hh4. rewrite Hh1 in Hl3, Hsn3. by split. }
  split; [cbn [heap with_info with_children w7]; by rewrite Hh4|].
  assert (snapshot (heap w7) new = succ_state s0 move) as Hs7.
  { cbn [heap with_info with_children w7]. by rewrite Hh4. }
  split; [done|]. split; [by rewrite Hs7|]. split; [by rewrite Hs7|].
  split; [cbn [node_info with_info with_children w7]; by rewrite lookup_insert_eq|].
  split.
  { rewrite (visits_of_insert (with_children (dict_set (get_node_key s0) (kids ++ [c])
               (children w4)) w4) w7 c inew c eq_refl). by rewrite decide_True. }
  split; [done|]. split.
  - intros v' c' Hentry Hc' Hne.
    rewrite (visits_of_insert (with_children (dict_set (get_node_key s0) (kids ++ [c])
               (children w4)) w4) w7 c inew c' eq_refl).
    rewrite decide_False by congruence.
    change (1 ≤ visits_of w4 c').
    cbn [children with_info with_children w7] in Hentry.
    apply elem_of_dict_set in Hentry as [Hold|[_ ->]].
    + by apply (Hvis4 v' c' Hold Hc').
    + apply elem_of_app in Hc' as [Hc'|Hc'%list_elem_of_singleton]; [|by subst c'].
      rewrite <- Hkids4 in Hc'. pose proof (kids_of_elem _ _ _ Hc') as Hentry.
      by apply (Hvis4 _ c' Hentry Hc').
  - unfold kids_of at 1. cbn [children with_info with_children w7].
    rewrite dict_get_set. cbn [default]. by rewrite Hkids.
Qed.
End Expansion.


Section Cycle.
Context (h : Heap) (Hwf : heap_wf h) (R : Runtime) (HR : runtime_ok R).
Context (s0 : State) (Hb : wf_board (grid s0)) (Hp : to_move s0 = 1 ∨ to_move s0 = -1).

Lemma expansion_total g w :
  aligned h (heap w) → (g < length (games (heap w)))%nat →
  tree_inv s0 w → kids_visited_but s0 None w →
  (snapshot (heap w) g = s0 ∧ kids_of w (get_node_key s0) = []) ∨
  (∃ m, m ∈ valid_moves (grid s0) (to_move s0) ∧
        snapshot (heap w) g = succ_state s0 m ∧
        get_node_key (succ_state s0 m) ∈ kids_of w (get_node_key s0)) →
  ∃ e w', expansion R g w = Done e w' ∧
    aligned h (heap w') ∧ keeps_states w w' ∧ (e < length (games (heap w')))%nat ∧
    wf_board (grid (snapshot (heap w') e)) ∧
    (to_move (snapshot (heap w') e) = 1 ∨ to_move (snapshot (heap w') e) = -1) ∧
    is_Some (node_info w' !! get_node_key (snapshot (heap w') e)) ∧
    tree_inv s0 w' ∧
    kids_visited_but s0 (Some (get_node_key (snapshot (heap w') e))) w' ∧
    ∃ added, kids_of w' (get_node_key s0) = kids_of w (get_node_key s0) ++ added ∧
      (length added ≤ 1)%nat ∧
      (added ≠ [] → kids_of w (get_node_key s0) = []) ∧
      (∀ c, c ∈ added → visits_of w' c = 0) ∧
      (valid_moves (grid s0) (to_move s0) ≠ ∅ → node_info w !! get_node_key s0 = None →
       kids_of w (get_node_key s0) = [] → added ≠ []).
Proof.
  intros Hal Hg Hinv Hvis Hcase.
  (* the node stays as it is *)
  assert (∀ w0 info, heap w0 = heap w → children w0 = children w →
            tree_inv s0 w0 → kids_visited_but s0 None w0 →
            node_info w0 !! get_node_key (snapshot (heap w0) g) = Some info →
            untried_moves info = Some None ∨ untried_moves info = Some (Some []) →
            wf_board (grid (snapshot (heap w) g)) →
            (to_move (snapshot (heap w) g) = 1 ∨ to_move (snapshot (heap w) g) = -1) →
            (valid_moves (grid s0) (to_move s0) ≠ ∅ →
             node_info w !! get_node_key s0 = None →
             kids_of w (get_node_key s0) = [] → False) →
    ∃ e w', expansion R g w0 = Done e w' ∧
      aligned h (heap w') ∧ keeps_states w w' ∧ (e < length (games (heap w')))%nat ∧
      wf_board (grid (snapshot (heap w') e)) ∧
      (to_move (snapshot (heap w') e) = 1 ∨ to_move (snapshot (heap w') e) = -1) ∧
      is_Some (node_info w' !! get_node_key (snapshot (heap w') e)) ∧
      tree_inv s0 w' ∧
      kids_visited_but s0 (Some (get_node_key (snapshot (heap w') e))) w' ∧
      ∃ added, kids_of w' (get_node_key s0) = kids_of w (get_node_key s0) ++ added ∧
        (length added ≤ 1)%nat ∧
        (added ≠ [] → kids_of w (get_node_key s0) = []) ∧
        (∀ c, c ∈ added → visits_of w' c = 0) ∧
        (valid_moves (grid s0) (to_move s0) ≠ ∅ →
         node_info w !! get_node_key s0 = None →
         kids_of w (get_node_key s0) = [] → added ≠ [])) as Hstay.
  { intros w0 info Hh0 Hc0 Hinv0 Hvis0 Hinfo Hunt Hwb Hwp Hnot.
    rewrite (expansion_stay R g w0 info Hinfo Hunt).
    rewrite <- Hh0 in Hal.
    destruct (copy_total h Hwf g w0 Hal) as (e & w1 & Hrun1 & Hal1 & Ht1 & Hk1 & Hv1 & Hs1).
    exists e, w1. split; [done|]. split; [done|].
    split; [unfold keeps_states in *; by rewrite <- Hh0|]. split; [done|].
    rewrite Hs1, Hh0. split; [done|]. split; [done|].
    split. { destruct Ht1 as [_ ->]. rewrite <- Hh0. by eexists. }
    split; [by apply (tree_inv_same _ w0)|].
    split. { apply (kids_visited_but_same _ _ w0); [done|]. by apply kids_visited_weaken. }
    exists []. rewrite app_nil_r. split.
    { unfold kids_of. destruct Ht1 as [-> _]. by rewrite Hc0. }
    split; [cbn; lia|]. split; [done|]. split; [by intros c ?%elem_of_nil|].
    intros H1 H2 H3. destruct (Hnot H1 H2 H3). }
  destruct Hcase as [[Hs Hnokids]|(m & Hm & Hs & Hkid)].
  - (* at the root *)
    assert (∀ w0 info, heap w0 = heap w → children w0 = children w →
              tree_inv s0 w0 → kids_visited_but s0 None w0 →
              node_info w0 !! get_node_key s0 = Some info →
              (∀ l, untried_moves info = Some (Some l) →
                    valid_moves (grid s0) (to_move s0) ≠ ∅ →
                    node_info w !! get_node_key s0 = None → l ≠ []) →
      ∃ e w', expansion R g w0 = Done e w' ∧
        aligned h (heap w') ∧ keeps_states w w' ∧ (e < length (games (heap w')))%nat ∧
        wf_board (grid (snapshot (heap w') e)) ∧
        (to_move (snapshot (heap w') e) = 1 ∨ to_move (snapshot (heap w') e) = -1) ∧
        is_Some (node_info w' !! get_node_key (snapshot (heap w') e)) ∧
        tree_inv s0 w' ∧
        kids_visited_but s0 (Some (get_node_key (snapshot (heap w') e))) w' ∧
        ∃ added, kids_of w' (get_node_key s0) = kids_of w (get_node_key s0) ++ added ∧
          (length added ≤ 1)%nat ∧
          (added ≠ [] → kids_of w (get_node_key s0) = []) ∧
          (∀ c, c ∈ added → visits_of w' c = 0) ∧
          (valid_moves (grid s0) (to_move s0) ≠ ∅ →
           node_info w !! get_node_key s0 = None →
           kids_of w (get_node_key s0) = [] → added ≠ [])) as Hknown.
    { intros w0 info Hh0 Hc0 Hinv0 Hvis0 Hinfo Hfull.
      destruct (inv_root _ _ Hinv0 info Hinfo) as ((l & Hl & Hlegal) & _).
      destruct l as [|m0 ms].
      - apply (Hstay w0 info); try done.
        + by rewrite Hh0, Hs.
        + by right.
        + by rewrite Hs.
        + by rewrite Hs.
        + intros H1 H2 _. by apply (Hfull [] Hl H1 H2).
      - rewrite <- Hh0 in Hal, Hg, Hs.
        destruct (expansion_add h Hwf R s0 Hb Hp g w0 info m0 ms Hal Hg Hs Hinv0 Hvis0 Hinfo Hl)
          as (e & w' & c & Hrun & Hal' & Hk' & He & Hsucc & Hkey & Hmover & Hcknown & Hcvis
              & Hinv' & Hvis' & Hkids').
        exists e, w'. split; [done|]. split; [done|].
        split; [unfold keeps_states in *; by rewrite <- Hh0|]. split; [done|].
        destruct (is_succ_disks s0 c Hb Hp Hsucc) as [Hcwf _].
        split; [by rewrite <- Hkey in Hcwf|].
        split; [rewrite Hmover; lia|].
        rewrite Hkey. split; [done|]. split; [done|]. split; [done|].
        exists [c]. split.
        { rewrite Hkids'. unfold kids_of. by rewrite Hc0. }
        split; [cbn; lia|]. split; [done|].
        split; [by intros c' ->%list_elem_of_singleton|done]. }
    destruct (node_info w !! get_node_key s0) as [info|] eqn:Hinfo.
    + by apply (Hknown w info).
    + rewrite expansion_unknown by by rewrite Hs.
      rewrite Hs.
      set (i0 := {| visits := Some 0; wins := Some 0%Qc;
                    untried_moves := Some (Some (list_of_set R
                      (valid_moves (grid s0) (to_move s0)))) |}).
      set (w0 := with_info (<[get_node_key s0 := i0]> (node_info w)) w).
      assert (tree_inv s0 w0) as Hinv0.
      { apply (tree_inv_info s0 w w0 (get_node_key s0) i0 Hinv eq_refl eq_refl); [|done].
        intros _. split; [|split; [by exists 0|done]].
        eexists. split; [done|]. intros m Hm. by apply (proj1 HR). }
      apply (Hknown w0 i0); try done.
      * by apply (kids_visited_info s0 Hb Hp w w0 None i0).
      * cbn [node_info with_info w0]. by rewrite lookup_insert_eq.
      * intros l [= <-] Hne _ Hnil. by apply (list_of_set_nil R _ HR) in Hnil.
  - (* at a child of the root *)
    pose proof (kids_of_elem _ _ _ Hkid) as Hentry.
    destruct (inv_kids _ _ Hinv _ _ Hentry Hkid) as [Hsucc [info Hinfo]].
    pose proof (is_succ_ne_root s0 _ Hb Hp Hsucc) as Hne.
    destruct (inv_other _ _ Hinv _ info Hne Hinfo) as (Hunt & _).
    destruct (is_succ_disks s0 _ Hb Hp Hsucc) as [Hcwf _].
    apply (Hstay w info); try done.
    + by rewrite Hs.
    + by left.
    + by rewrite Hs.
    + rewrite Hs. cbn [to_move succ_state]. lia.
    + intros _ _ Hnil. rewrite Hnil in Hkid. by apply elem_of_nil in Hkid.
Qed.

Context (A : MCTSAgent) (g : nat) (Hg : (g < length (games h))%nat).
Context (Hs0 : snapshot h g = s0).

Lemma root_snapshot w : aligned h (heap w) → snapshot (heap w) g = s0.
Proof.
  intros Hal. rewrite <- Hs0. apply snapshot_extends; [done|done|].
  by apply aligned_extends.
Qed.

Lemma root_valid w : aligned h (heap w) → (g < length (games (heap w)))%nat.
Proof. intros (objs & arrs & -> & _). rewrite length_app. lia. Qed.

Lemma select_expand_total fuel w :
  (130 ≤ fuel)%nat → search_inv h s0 w →
  ∃ e w', (∀ B (rest : nat → MM B),
             (let* g1 := lift (copy g) in
              let* selected_state := selection fuel R A g1 in
              let* g' := lift (copy selected_state) in
              let* expanded_state := expansion R g' in
              rest expanded_state) w = rest e w') ∧
    aligned h (heap w') ∧ (e < length (games (heap w')))%nat ∧
    wf_board (grid (snapshot (heap w') e)) ∧
    (to_move (snapshot (heap w') e) = 1 ∨ to_move (snapshot (heap w') e) = -1) ∧
    is_Some (node_info w' !! get_node_key (snapshot (heap w') e)) ∧
    tree_inv s0 w' ∧
    kids_visited_but s0 (Some (get_node_key (snapshot (heap w') e))) w' ∧
    ∃ added, kids_of w' (get_node_key s0) = kids_of w (get_node_key s0) ++ added ∧
      (length added ≤ 1)%nat ∧
      (added ≠ [] → kids_of w (get_node_key s0) = []) ∧
      (∀ c, c ∈ added → visits_of w' c = 0) ∧
      (valid_moves (grid s0) (to_move s0) ≠ ∅ → node_info w !! get_node_key s0 = None →
       added ≠ []).
Proof.
  intros Hfuel (Hal & Hinv & Hvis).
  destruct (copy_total h Hwf g w Hal) as (g1 & w1 & Hrun1 & Hal1 & Ht1 & Hk1 & Hv1 & Hs1).
  rewrite (root_snapshot w Hal) in Hs1.
  destruct (selection_total h Hwf R HR s0 Hb Hp A fuel g1 w1 ltac:(lia) Hal1 Hv1 Hs1
              (tree_inv_same _ _ _ Ht1 Hinv) (kids_visited_but_same _ _ _ _ Ht1 Hvis))
    as (sel & w2 & Hrun2 & (Hal2 & Hk2 & Hv2 & Hinv2 & Hvis2 & Hn2 & Hkids2) & Hcase2).
  destruct (copy_total h Hwf sel w2 Hal2) as (g3 & w3 & Hrun3 & Hal3 & Ht3 & Hk3 & Hv3 & Hs3).
  assert (∀ k, kids_of w3 k = kids_of w k) as Hkids3.
  { intros k. unfold kids_of at 1. destruct Ht3 as [-> _].
    change (kids_of w2 k = kids_of w k). rewrite Hkids2. unfold kids_of.
    by destruct Ht1 as [-> _]. }
  assert (node_info w3 = node_info w) as Hn3.
  { destruct Ht3 as [_ ->]. rewrite Hn2. by destruct Ht1 as [_ ->]. }
  destruct (expansion_total g3 w3 Hal3 Hv3 (tree_inv_same _ _ _ Ht3 Hinv2)
              (kids_visited_but_same _ _ _ _ Ht3 Hvis2))
    as (e & w4 & Hrun4 & Hal4 & Hk4 & Hv4 & Hwb & Hwp & Hknown & Hinv4 & Hvis4
        & added & Hadd & Hlen & Hfirst & Hzero & Hsome).
  { rewrite Hs3, !Hkids3.
    assert (kids_of w1 (get_node_key s0) = kids_of w (get_node_key s0)) as <-; [|done].
    unfold kids_of. by destruct Ht1 as [-> _]. }
  exists e, w4. split.
  { intros B rest. rewrite (mm_bind_done _ _ _ _ _ Hrun1).
    rewrite (mm_bind_done _ _ _ _ _ Hrun2). rewrite (mm_bind_done _ _ _ _ _ Hrun3).
    by rewrite (mm_bind_done _ _ _ _ _ Hrun4). }
  split; [done|]. split; [done|]. split; [done|].
  split; [done|]. split; [done|]. split; [done|]. split; [done|].
  exists added. rewrite Hadd, !Hkids3, Hn3 in *. split; [done|]. split; [done|].
  split; [done|]. split; [done|].
  intros Hne Hunknown. apply Hsome; [done|done|].
  destruct (kids_of w (get_node_key s0)) as [|c kids] eqn:E; [done|].
  assert (c ∈ kids_of w (get_node_key s0)) as Hc by (rewrite E; left).
  apply kids_of_elem in Hc. rewrite E in Hc.
  destruct (inv_root_known _ _ Hinv _ Hc ltac:(done)) as [? ?]. congruence.
Qed.

Lemma search_cycle_total fuel w :
  (130 ≤ fuel)%nat → (1 ≤ nb_rollouts A)%nat → search_inv h s0 w →
  ∃ w', search_cycle fuel R A g w = Done tt w' ∧ search_inv h s0 w' ∧
    ∃ added, kids_of w' (get_node_key s0) = kids_of w (get_node_key s0) ++ added ∧
      (length added ≤ 1)%nat ∧
      (added ≠ [] → kids_of w (get_node_key s0) = []) ∧
      (valid_moves (grid s0) (to_move s0) ≠ ∅ → node_info w !! get_node_key s0 = None →
       added ≠ []).
Proof.
  intros Hfuel Hroll Hsinv.
  destruct (select_expand_total fuel w Hfuel Hsinv)
    as (e & w4 & Hrun4 & Hal4 & Hv4 & Hwb & Hwp & Hknown & Hinv4 & Hvis4
        & added & Hadd & Hlen & Hfirst & Hzero & Hsome).
  unfold search_cycle. rewrite Hrun4.
  rewrite (mm_bind_done _ _ _ _ _ (key_of_eq _ _)).
  destruct (rollouts_total h Hwf R HR s0 Hb Hp (nb_rollouts A) fuel e _ w4
              Hfuel Hal4 Hv4 Hwb Hwp Hknown Hinv4 Hvis4)
    as (w5 & Hrun5 & Hal5 & Hk5 & Hc5 & Hinv5 & _ & Hvis5).
  exists w5. split; [done|]. split.
  { split; [done|]. split; [done|]. apply Hvis5. by left. }
  exists added. split; [|done]. rewrite <- Hadd. unfold kids_of. by rewrite Hc5.
Qed.

Lemma search_cycles_total n fuel w :
  (130 ≤ fuel)%nat → (1 ≤ nb_rollouts A)%nat → search_inv h s0 w →
  ∃ w', search_cycles n fuel R A g w = Done tt w' ∧ search_inv h s0 w' ∧
    ((length (kids_of w (get_node_key s0)) ≤ 1)%nat →
     (length (kids_of w' (get_node_key s0)) ≤ 1)%nat) ∧
    (kids_of w (get_node_key s0) ≠ [] → kids_of w' (get_node_key s0) ≠ []) ∧
    ((1 ≤ n)%nat → valid_moves (grid s0) (to_move s0) ≠ ∅ →
     node_info w !! get_node_key s0 = None → kids_of w' (get_node_key s0) ≠ []).
Proof.
  intros Hfuel Hroll. revert w. induction n as [|n IH]; intros w Hsinv; cbn [search_cycles].
  { exists w. split; [done|]. split; [done|]. split; [done|]. split; [done|]. lia. }
  destruct (search_cycle_total fuel w Hfuel Hroll Hsinv)
    as (w1 & Hrun1 & Hsinv1 & added & Hadd & Hlen & Hfirst & Hsome).
  rewrite (mm_bind_done _ _ _ _ _ Hrun1).
  destruct (IH w1 Hsinv1) as (w2 & Hrun2 & Hsinv2 & Hone & Hkeep & _).
  exists w2. split; [done|]. split; [done|]. split; [|split].
  - intros Hle. apply Hone. rewrite Hadd, length_app.
    destruct added as [|c added]; [cbn [length]; lia|].
    rewrite Hfirst by done. cbn [length] in *. lia.
  - intros Hne. apply Hkeep. rewrite Hadd. by destruct (kids_of w (get_node_key s0)).
  - intros _ Hmoves Hunknown. apply Hkeep. rewrite Hadd.
    pose proof (Hsome Hmoves Hunknown).
    destruct (kids_of w (get_node_key s0)), added; done.
Qed.
End Cycle.


(** ** The choice of the move *)

Lemma first_max_spec best l :
  first_max best l ∈ best :: l ∧ ∀ x, x ∈ best :: l → x.2 ≤ (first_max best l).2.
Proof.
  revert best. induction l as [|y l IH]; intros best; cbn [first_max].
  { split; [left|]. by intros x ->%list_elem_of_singleton. }
  destruct (IH (if best.2 <? y.2 then y else best)) as [Hin Hmax]. split.
  - apply elem_of_cons in Hin as [->|Hin].
    + destruct (best.2 <? y.2); [right; left|left].
    + right. by right.
  - intros x Hx. pose proof (Hmax _ ltac:(left)) as Hfirst.
    apply elem_of_cons in Hx as [->|[->|Hx]%elem_of_cons].
    + destruct (best.2 <? y.2) eqn:E; lia.
    + destruct (best.2 <? y.2) eqn:E; lia.
    + apply Hmax. by right.
Qed.

Lemma visit_count_known k w info v :
  node_info w !! k = Some info → visits info = Some v →
  visit_count k w = Done (k, visits_of w k) w.
Proof.
  intros Hinfo Hv. unfold visit_count, visits_of.
  rewrite (mm_bind_done _ _ _ _ _ (info_read_known _ _ _ Hinfo)).
  rewrite Hinfo. cbn. rewrite Hv. done.
Qed.

Lemma mcts_get_move_eq cycles fuel R A g :
  mcts_get_move cycles fuel R A g =
  (let* root_key := key_of g in
   let* _ := search_cycles (passes cycles A) fuel R A g in
   most_visited_move R g root_key).
Proof. unfold mcts_get_move, passes, timed_search. by destruct (time_limit A). Qed.

Section Choice.
Context (h : Heap) (Hwf : heap_wf h) (R : Runtime) (HR : runtime_ok R).
Context (s0 : State) (Hb : wf_board (grid s0)) (Hp : to_move s0 = 1 ∨ to_move s0 = -1).
Context (A : MCTSAgent) (g : nat) (Hg : (g < length (games h))%nat).
Context (Hs0 : snapshot h g = s0).

Lemma find_move_total best moves w :
  aligned h (heap w) →
  ∃ result w', find_move g best moves w = Done result w' ∧
    aligned h (heap w') ∧ same_tree w w' ∧
    ((result = None ∧ ∀ m, m ∈ moves → get_node_key (succ_state s0 m) ≠ best) ∨
     (∃ m, result = Some m ∧ m ∈ moves ∧ get_node_key (succ_state s0 m) = best)).
Proof.
  revert w. induction moves as [|m moves IH]; intros w Hal; cbn [find_move].
  { exists None, w. split; [done|]. split; [done|]. split; [apply same_tree_refl|].
    left. split; [done|]. by intros m ?%elem_of_nil. }
  destruct (successor_total h Hwf g m w Hal)
    as (new & w1 & Hrun1 & Hal1 & Ht1 & Hk1 & Hv1 & Hs1).
  rewrite (mm_bind_done _ _ _ _ _ Hrun1).
  rewrite (mm_bind_done _ _ _ _ _ (key_of_eq _ _)).
  rewrite Hs1, (root_snapshot h Hwf s0 g Hg Hs0 w Hal).
  destruct (decide (get_node_key (succ_state s0 m) = best)) as [Heq|Hne].
  - exists (Some m), w1. split; [done|]. split; [done|]. split; [done|].
    right. exists m. split; [done|]. split; [left|done].
  - destruct (IH w1 Hal1) as (result & w2 & Hrun2 & Hal2 & Ht2 & Hres).
    exists result, w2. split; [done|]. split; [done|].
    split; [by apply (same_tree_trans _ w1)|].
    destruct Hres as [[-> Hnone]|(m' & -> & Hm' & Hkey)].
    + left. split; [done|]. intros m' [->|Hm']%elem_of_cons; [done|by apply Hnone].
    + right. exists m'. split; [done|]. split; [by right|done].
Qed.

Lemma most_visited_move_total w :
  aligned h (heap w) → tree_inv s0 w →
  ∃ result w', most_visited_move R g (get_node_key s0) w = Done result w' ∧
    aligned h (heap w') ∧ same_tree w w' ∧
    (result = None ↔ kids_of w (get_node_key s0) = []) ∧
    ∀ move, result = Some move →
      move ∈ valid_moves (grid s0) (to_move s0) ∧
      get_node_key (succ_state s0 move) ∈ kids_of w (get_node_key s0) ∧
      ∀ k, k ∈ kids_of w (get_node_key s0) →
           visits_of w k ≤ visits_of w (get_node_key (succ_state s0 move)).
Proof.
  intros Hal Hinv. unfold most_visited_move. rewrite mm_bind_pure.
  unfold kids_of.
  destruct (dict_get (get_node_key s0) (children w)) as [[|k kids]|] eqn:E; cbn [default].
  1,3: exists None, w; split; [done|]; split; [done|]; split; [apply same_tree_refl|];
       split; [done|]; by intros move [=].
  apply dict_get_elem_of in E.
  assert (∀ c, c ∈ k :: kids → visit_count c w = Done (c, visits_of w c) w) as Hcount.
  { intros c Hc. destruct (inv_kids _ _ Hinv _ c E Hc) as [_ [info Hinfo]].
    destruct (tree_inv_known s0 w c info Hinv Hinfo) as (v & q & Hv & _).
    by apply (visit_count_known c w info v). }
  rewrite (mm_bind_done _ _ _ _ _ (Hcount k ltac:(left))).
  rewrite (mm_bind_done _ _ _ _ _
             (mm_map_pure visit_count (λ c, (c, visits_of w c)) kids w
                (λ c Hc, Hcount c ltac:(by right)))).
  rewrite (mm_bind_done _ _ _ _ _ (lift_get_eq _ _)).
  rewrite (root_snapshot h Hwf s0 g Hg Hs0 w Hal).
  destruct (first_max_spec (k, visits_of w k) ((λ c, (c, visits_of w c)) <$> kids))
    as [Hin Hmax].
  change ((k, visits_of w k) :: ((λ c, (c, visits_of w c)) <$> kids))
    with ((λ c, (c, visits_of w c)) <$> (k :: kids)) in Hin, Hmax.
  apply list_elem_of_fmap in Hin as (best & Hbest & Hbin).
  rewrite Hbest in *. cbn [fst snd] in *.
  destruct (inv_kids _ _ Hinv _ best E Hbin) as [(mb & Hmb & Hkey) _].
  destruct (find_move_total best (list_of_set R (valid_moves (grid s0) (to_move s0))) w Hal)
    as (result & w' & Hrun & Hal' & Ht' & Hres).
  exists result, w'. split; [done|]. split; [done|]. split; [done|].
  destruct Hres as [[-> Hnone]|(m & -> & Hm & Hkm)].
  { destruct (Hnone mb); [by apply (proj1 HR)|done]. }
  split; [done|]. intros move [= <-]. split; [by apply (proj1 HR)|].
  rewrite Hkm. split; [done|].
  intros c Hc. apply (Hmax (c, visits_of w c)). apply list_elem_of_fmap. by exists c.
Qed.

Lemma mcts_get_move_total cycles fuel w :
  (130 ≤ fuel)%nat → (1 ≤ nb_rollouts A)%nat → search_inv h s0 w →
  ∃ result w', mcts_get_move cycles fuel R A g w = Done result w' ∧
    aligned h (heap w') ∧ tree_inv s0 w' ∧
    (result = None ↔ kids_of w' (get_node_key s0) = []) ∧
    (∀ move, result = Some move →
       move ∈ valid_moves (grid s0) (to_move s0) ∧
       get_node_key (succ_state s0 move) ∈ kids_of w' (get_node_key s0) ∧
       ∀ k, k ∈ kids_of w' (get_node_key s0) →
            visits_of w' k ≤ visits_of w' (get_node_key (succ_state s0 move))) ∧
    ((length (kids_of w (get_node_key s0)) ≤ 1)%nat →
     (length (kids_of w' (get_node_key s0)) ≤ 1)%nat) ∧
    ((1 ≤ passes cycles A)%nat → valid_moves (grid s0) (to_move s0) ≠ ∅ →
     node_info w !! get_node_key s0 = None → kids_of w' (get_node_key s0) ≠ []).
Proof.
  intros Hfuel Hroll Hsinv. rewrite mcts_get_move_eq.
  rewrite (mm_bind_done _ _ _ _ _ (key_of_eq _ _)).
  rewrite (root_snapshot h Hwf s0 g Hg Hs0 w (proj1 Hsinv)).
  destruct (search_cycles_total h Hwf R HR s0 Hb Hp A g Hg Hs0 (passes cycles A) fuel w
              Hfuel Hroll Hsinv) as (w1 & Hrun1 & (Hal1 & Hinv1 & _) & Hone & _ & Hsome).
  rewrite (mm_bind_done _ _ _ _ _ Hrun1).
  destruct (most_visited_move_total w1 Hal1 Hinv1)
    as (result & w2 & Hrun2 & Hal2 & Ht2 & Hnone & Hbest).
  assert (∀ k, kids_of w2 k = kids_of w1 k) as Hkids.
  { intros k. unfold kids_of. by destruct Ht2 as [-> _]. }
  assert (∀ k, visits_of w2 k = visits_of w1 k) as Hvisits.
  { intros k. unfold visits_of. by destruct Ht2 as [_ ->]. }
  exists result, w2. split; [done|]. split; [done|].
  split; [by apply (tree_inv_same _ w1)|].
  rewrite !Hkids. split; [done|]. split; [|by split].
  intros move Hmove. destruct (Hbest move Hmove) as (H1 & H2 & H3).
  split; [done|]. split; [done|]. intros k Hk. rewrite !Hvisits. by apply H3.
Qed.
End Choice.


(** ** A search by a new agent *)

Lemma search_inv_fresh h s0 numbers : search_inv h s0 (fresh_world h numbers).
Proof.
  split; [apply aligned_refl|]. split.
  - split; cbn [children node_info fresh_world].
    + by intros k kids ?%elem_of_nil.
    + by intros kids c ?%elem_of_nil.
    + by intros kids ?%elem_of_nil.
    + intros info. by rewrite lookup_empty.
    + intros c info _. by rewrite lookup_empty.
  - intros kids c Hk. cbn [children fresh_world] in Hk. by apply elem_of_nil in Hk.
Qed.

(** When the budget of a new agent ends, [get_move] returns: [None] exactly
    when the root has no child in [children], and otherwise a legal move whose
    successor has the key of a child of the root that no other child exceeds
    in visits. *)
Theorem mcts_returns_most_visited_child R A cycles fuel h g numbers :
  runtime_ok R → heap_wf h → (g < length (games h))%nat →
  wf_board (board_of h g) → player_of h g = 1 ∨ player_of h g = -1 →
  (1 ≤ nb_rollouts A)%nat → (130 ≤ fuel)%nat →
  ∃ result w',
    mcts_get_move cycles fuel R A g (fresh_world h numbers) = Done result w' ∧
    (result = None ↔ kids_of w' (get_node_key (snapshot h g)) = []) ∧
    ∀ move, result = Some move →
      move ∈ valid_moves (board_of h g) (player_of h g) ∧
      get_node_key (succ_state (snapshot h g) move)
        ∈ kids_of w' (get_node_key (snapshot h g)) ∧
      ∀ k, k ∈ kids_of w' (get_node_key (snapshot h g)) →
           visits_of w' k ≤ visits_of w' (get_node_key (succ_state (snapshot h g) move)).
Proof.
  intros HR Hwf Hg Hb Hp Hroll Hfuel.
  destruct (mcts_get_move_total h Hwf R HR (snapshot h g) Hb Hp A g Hg eq_refl cycles fuel
              (fresh_world h numbers) Hfuel Hroll (search_inv_fresh _ _ _))
    as (result & w' & Hrun & _ & _ & Hnone & Hbest & _).
  exists result, w'. split; [done|]. split; [done|]. done.
Qed.

Lemma mcts_returns_most_visited_child_witness :
  ∃ result w',
    mcts_get_move 2 200 simple_runtime black_mcts 0 (fresh_world opening_heap [1%nat]) =
      Done result w' ∧
    (result = None ↔ kids_of w' (get_node_key (snapshot opening_heap 0)) = []) ∧
    ∀ move, result = Some move →
      move ∈ valid_moves (board_of opening_heap 0) (player_of opening_heap 0) ∧
      get_node_key (succ_state (snapshot opening_heap 0) move)
        ∈ kids_of w' (get_node_key (snapshot opening_heap 0)) ∧
      ∀ k, k ∈ kids_of w' (get_node_key (snapshot opening_heap 0)) →
           visits_of w' k ≤
           visits_of w' (get_node_key (succ_state (snapshot opening_heap 0) move)).
Proof.
  apply (mcts_returns_most_visited_child simple_runtime black_mcts 2 200 opening_heap 0
           [1%nat]).
  - apply runtime_ok_simple.
  - apply heap_wf_opening.
  - cbn. lia.
  - apply wf_init_board.
  - by left.
  - cbn. lia.
  - lia.
Defined.

(** A new agent that makes at least one pass returns [None] exactly when the
    side to move has no legal move. *)
Theorem mcts_none_iff_no_legal_move R A cycles fuel h g numbers :
  runtime_ok R → heap_wf h → (g < length (games h))%nat →
  wf_board (board_of h g) → player_of h g = 1 ∨ player_of h g = -1 →
  (1 ≤ nb_rollouts A)%nat → (130 ≤ fuel)%nat → (1 ≤ passes cycles A)%nat →
  ∃ result w',
    mcts_get_move cycles fuel R A g (fresh_world h numbers) = Done result w' ∧
    (result = None ↔ valid_moves (board_of h g) (player_of h g) = ∅).
Proof.
  intros HR Hwf Hg Hb Hp Hroll Hfuel Hpass.
  destruct (mcts_get_move_total h Hwf R HR (snapshot h g) Hb Hp A g Hg eq_refl cycles fuel
              (fresh_world h numbers) Hfuel Hroll (search_inv_fresh _ _ _))
    as (result & w' & Hrun & _ & Hinv & Hnone & _ & _ & Hsome).
  exists result, w'. split; [done|]. rewrite Hnone. split.
  - intros Hnil. destruct (decide (valid_moves (board_of h g) (player_of h g) = ∅)); [done|].
    destruct (Hsome Hpass); [done| |done]. cbn [node_info fresh_world]. apply lookup_empty.
  - intros Hempty.
    destruct (kids_of w' (get_node_key (snapshot h g))) as [|c kids] eqn:E; [done|].
    assert (c ∈ kids_of w' (get_node_key (snapshot h g))) as Hc by (rewrite E; left).
    pose proof (kids_of_elem _ _ _ Hc) as Hentry.
    destruct (inv_kids _ _ Hinv _ c Hentry Hc) as [(m & Hm & _) _].
    cbn [grid to_move snapshot] in Hm. rewrite Hempty in Hm. by apply elem_of_empty in Hm.
Qed.

Lemma mcts_none_iff_no_legal_move_witness :
  ∃ result w',
    mcts_get_move 2 200 simple_runtime black_mcts 0 (fresh_world opening_heap [1%nat]) =
      Done result w' ∧
    (result = None ↔ valid_moves (board_of opening_heap 0) (player_of opening_heap 0) = ∅).
Proof.
  apply (mcts_none_iff_no_legal_move simple_runtime black_mcts 2 200 opening_heap 0
           [1%nat]).
  - apply runtime_ok_simple.
  - apply heap_wf_opening.
  - cbn. lia.
  - apply wf_init_board.
  - by left.
  - cbn. lia.
  - lia.
  - cbn. lia.
Defined.




(** ** The move of the minimax player *)

Lemma max_loop_val_top rec s player moves a b bm :
  max_loop_val rec false s player moves a b PosInf bm = (PosInf, bm).
Proof.
  revert a. induction moves as [|m ms IH]; intros a; cbn [max_loop_val andb]; [done|].
  by rewrite IH.
Qed.

Lemma min_loop_val_bottom rec s player moves a b bm :
  min_loop_val rec false s player moves a b NegInf bm = (NegInf, bm).
Proof.
  revert b. induction moves as [|m ms IH]; intros b; cbn [min_loop_val andb]; [done|].
  assert (∀ e, score_ltb e NegInf = false) as -> by by intros [].
  by rewrite IH.
Qed.

Lemma score_le_antisym a b : score_le a b → score_le b a → a = b.
Proof. intros. sorder. Qed.

Section SameMove.
Context (R : Runtime) (P : MinMaxPlayer).

(** At the root the running best of the maximizing loop is its [alpha]. *)
Lemma max_loop_same rec_p rec_f s player moves M bm af bf :
  (∀ c x y x' y', rec_f c x y = rec_f c x' y') →
  (∀ c x y, score_lt x y → window_sound x y (rec_p c x y) (rec_f c x y)) →
  score_lt M PosInf →
  max_loop_val rec_p true s player moves M PosInf M bm =
  max_loop_val rec_f false s player moves af bf M bm.
Proof.
  intros Hindep Hsound. revert M bm af.
  induction moves as [|m ms IH]; intros M bm af HM; [done|].
  cbn [max_loop_val andb]. rewrite (Hindep _ af bf M PosInf).
  pose proof (Hsound (play s m player) M PosInf HM) as Hs.
  set (e := rec_p (play s m player) M PosInf) in *.
  set (v := rec_f (play s m player) M PosInf) in *.
  unfold score_geb, score_max.
  destruct Hs as (Hlo & Hhi & Hin).
  destruct (score_ltb M v) eqn:E1.
  - change (score_lt M v) in E1.
    destruct (score_ltb v PosInf) eqn:E2.
    + change (score_lt v PosInf) in E2. rewrite (Hin E1 E2).
      change (score_ltb M v) with (score_ltb M v). rewrite E1, E2. cbn [negb].
      by apply IH.
    + change (score_le PosInf v) in E2.
      assert (v = PosInf) as Hv by (apply score_le_antisym; [apply le_PosInf|done]).
      assert (e = PosInf) as He.
      { apply score_le_antisym; [apply le_PosInf|]. by apply Hhi. }
      rewrite He, Hv. change (score_ltb M PosInf) with (score_ltb M PosInf).
      rewrite HM. cbn [score_ltb negb]. by rewrite max_loop_val_top.
  - change (score_le v M) in E1. specialize (Hlo E1).
    change (score_ltb M e = false) in Hlo. rewrite Hlo, HM. cbn [negb]. by apply IH.
Qed.

Lemma min_loop_same rec_p rec_f s player moves M bm af bf :
  (∀ c x y x' y', rec_f c x y = rec_f c x' y') →
  (∀ c x y, score_lt x y → window_sound x y (rec_p c x y) (rec_f c x y)) →
  score_lt NegInf M →
  min_loop_val rec_p true s player moves NegInf M M bm =
  min_loop_val rec_f false s player moves af bf M bm.
Proof.
  intros Hindep Hsound. revert M bm bf.
  induction moves as [|m ms IH]; intros M bm bf HM; [done|].
  cbn [min_loop_val andb]. rewrite (Hindep _ af bf NegInf M).
  pose proof (Hsound (play s m player) NegInf M HM) as Hs.
  set (e := rec_p (play s m player) NegInf M) in *.
  set (v := rec_f (play s m player) NegInf M) in *.
  unfold score_leb, score_min.
  destruct Hs as (Hlo & Hhi & Hin).
  destruct (score_ltb v M) eqn:E1.
  - change (score_lt v M) in E1.
    destruct (score_ltb NegInf v) eqn:E2.
    + change (score_lt NegInf v) in E2. rewrite (Hin E2 E1).
      change (score_ltb v M) with (score_ltb v M). rewrite E1, E2. cbn [negb].
      by apply IH.
    + change (score_le v NegInf) in E2.
      assert (v = NegInf) as Hv by (apply score_le_antisym; [done|apply NegInf_le]).
      assert (e = NegInf) as He.
      { apply score_le_antisym; [by apply Hlo|apply NegInf_le]. }
      rewrite He, Hv. change (score_ltb NegInf M) with (score_ltb NegInf M).
      rewrite HM. cbn [score_ltb negb]. by rewrite min_loop_val_bottom.
  - change (score_le M v) in E1. specialize (Hhi E1).
    change (score_ltb e M = false) in Hhi. rewrite Hhi, HM. cbn [negb]. by apply IH.
Qed.

Lemma minimax_val_same_move d s mx :
  minimax_val R P true d s NegInf PosInf mx = minimax_val R P false d s NegInf PosInf mx.
Proof.
  destruct d as [|d]; [done|]. cbn [minimax_val].
  destruct (is_game_over (grid s)); [done|].
  destruct (list_of_set R _) as [|m ms].
  { by rewrite (minimax_val_root R P d s (negb mx)). }
  destruct mx.
  - apply max_loop_same; [|intros; by apply minimax_val_sound|done].
    intros. by rewrite (minimax_val_window R P d c x y x' y').
  - apply min_loop_same; [|intros; by apply minimax_val_sound|done].
    intros. by rewrite (minimax_val_window R P d c x y x' y').
Qed.
End SameMove.

Lemma game_over_no_moves b :
  is_game_over b = true → valid_moves b 1 = ∅ ∧ valid_moves b (-1) = ∅.
Proof.
  unfold is_game_over. intros H.
  destruct (decide (valid_moves b 1 = ∅)) as [E1|E1].
  - destruct (decide (valid_moves b (-1) = ∅)) as [E2|E2]; [exact (conj E1 E2)|].
    rewrite (bool_decide_eq_true_2 _ E1), (bool_decide_eq_false_2 _ E2) in H.
    discriminate H.
  - rewrite (bool_decide_eq_false_2 _ E1) in H. discriminate H.
Qed.

Section Finite.
Context (R : Runtime) (HR : runtime_ok R) (P : MinMaxPlayer).
Context (Hfin : ∀ s p, ∃ x, heuristic_function P s p = Fin x).

Lemma max_loop_val_some rec prune s player moves a b M bm (ok : Move → Prop) :
  (∀ c x y, ∃ q, rec c x y = Fin q) → (∀ m, m ∈ moves → ok m) →
  (M = NegInf ∧ moves ≠ []) ∨ ((∃ q, M = Fin q) ∧ ∃ m, bm = Some m ∧ ok m) →
  (∃ q, (max_loop_val rec prune s player moves a b M bm).1 = Fin q) ∧
  ∃ m, (max_loop_val rec prune s player moves a b M bm).2 = Some m ∧ ok m.
Proof.
  intros Hrec. revert a M bm. induction moves as [|m ms IH]; intros a M bm Hok Hstate.
  { destruct Hstate as [[_ ?]|?]; done. }
  cbn [max_loop_val]. destruct (Hrec (play s m player) a b) as [q ->].
  set (M' := if score_ltb M (Fin q) then Fin q else M).
  set (bm' := if score_ltb M (Fin q) then Some m else bm).
  assert ((∃ q', M' = Fin q') ∧ ∃ m', bm' = Some m' ∧ ok m') as Hnew.
  { subst M' bm'. destruct Hstate as [[-> _]|[[q0 ->] Hbm]].
    - cbn [score_ltb]. split; [by exists q|]. exists m. split; [done|]. apply Hok. left.
    - destruct (score_ltb (Fin q0) (Fin q)).
      + split; [by exists q|]. exists m. split; [done|]. apply Hok. left.
      + split; [by exists q0|done]. }
  destruct (prune && score_geb (score_max a (Fin q)) b); [done|].
  apply IH; [|by right]. intros m' Hm'. apply Hok. by right.
Qed.

Lemma min_loop_val_some rec prune s player moves a b M bm (ok : Move → Prop) :
  (∀ c x y, ∃ q, rec c x y = Fin q) → (∀ m, m ∈ moves → ok m) →
  (M = PosInf ∧ moves ≠ []) ∨ ((∃ q, M = Fin q) ∧ ∃ m, bm = Some m ∧ ok m) →
  (∃ q, (min_loop_val rec prune s player moves a b M bm).1 = Fin q) ∧
  ∃ m, (min_loop_val rec prune s player moves a b M bm).2 = Some m ∧ ok m.
Proof.
  intros Hrec. revert b M bm. induction moves as [|m ms IH]; intros b M bm Hok Hstate.
  { destruct Hstate as [[_ ?]|?]; done. }
  cbn [min_loop_val]. destruct (Hrec (play s m player) a b) as [q ->].
  set (M' := if score_ltb (Fin q) M then Fin q else M).
  set (bm' := if score_ltb (Fin q) M then Some m else bm).
  assert ((∃ q', M' = Fin q') ∧ ∃ m', bm' = Some m' ∧ ok m') as Hnew.
  { subst M' bm'. destruct Hstate as [[-> _]|[[q0 ->] Hbm]].
    - cbn [score_ltb]. split; [by exists q|]. exists m. split; [done|]. apply Hok. left.
    - destruct (score_ltb (Fin q) (Fin q0)).
      + split; [by exists q|]. exists m. split; [done|]. apply Hok. left.
      + split; [by exists q0|done]. }
  destruct (prune && score_leb (score_min b (Fin q)) a); [done|].
  apply IH; [|by right]. intros m' Hm'. apply Hok. by right.
Qed.

(** A finite evaluator gives finite scores at every node. *)
Lemma minimax_val_fin prune d s a b mx :
  ∃ q, (minimax_val R P prune d s a b mx).1 = Fin q.
Proof.
  revert s a b mx. induction d as [|d IH]; intros s a b mx; cbn [minimax_val].
  { apply Hfin. }
  destruct (is_game_over (grid s)); [apply Hfin|].
  destruct (list_of_set R _) as [|m ms]; [apply IH|].
  destruct mx.
  - apply (max_loop_val_some _ _ _ _ _ _ _ _ _ (λ _, True)); [|done|by left].
    intros c x y. apply IH.
  - apply (min_loop_val_some _ _ _ _ _ _ _ _ _ (λ _, True)); [|done|by left].
    intros c x y. apply IH.
Qed.

Lemma minimax_val_move prune d s a b :
  color P = 1 ∨ color P = -1 →
  ((minimax_val R P prune d s a b true).2 = None ↔
     d = 0%nat ∨ valid_moves (grid s) (color P) = ∅) ∧
  ∀ m, (minimax_val R P prune d s a b true).2 = Some m →
       m ∈ valid_moves (grid s) (color P).
Proof.
  intros Hcolor. destruct d as [|d]; cbn [minimax_val].
  { cbn [snd]. split; [split; [by left|done]|by intros m [=]]. }
  destruct (is_game_over (grid s)) eqn:Hover.
  { cbn [snd]. apply game_over_no_moves in Hover as [H1 H2].
    split; [|by intros m [=]]. split; [|done]. intros _. right.
    destruct Hcolor as [Hc|Hc]; rewrite Hc; assumption. }
  destruct (list_of_set R (valid_moves (grid s) (color P))) as [|m ms] eqn:E.
  { cbn [snd]. split; [|by intros m [=]]. split; [|done]. intros _. right.
    by apply (list_of_set_nil R _ HR). }
  destruct (max_loop_val_some
              (λ s' x y, (minimax_val R P prune d s' x y false).1) prune s (color P)
              (m :: ms) a b NegInf None (λ m', m' ∈ valid_moves (grid s) (color P)))
    as [_ (m' & Hm' & Hok)].
  - intros c x y. apply minimax_val_fin.
  - intros m' Hm'. apply (proj1 HR). by rewrite E.
  - by left.
  - rewrite Hm'. split.
    + split; [done|]. intros [?|Hempty]; [done|].
      apply (list_of_set_nil R _ HR) in Hempty. congruence.
    + by intros m0 [= <-].
Qed.
End Finite.

(** [get_move] of the minimax player returns a legal move of its colour, and
    returns [None] only at depth 0 or when its colour has no legal move. *)
Theorem minmax_get_move_legal (R : Runtime) (P : MinMaxPlayer) (g : nat) (h : Heap) :
  runtime_ok R → heap_wf h → (g < length (games h))%nat →
  color P = 1 ∨ color P = -1 →
  (∀ s p, ∃ x, heuristic_function P s p = Fin x) →
  ((minmax_get_move R P g h).1 = None ↔
     depth P = 0%nat ∨ valid_moves (board_of h g) (color P) = ∅) ∧
  ∀ m, (minmax_get_move R P g h).1 = Some m → m ∈ valid_moves (board_of h g) (color P).
Proof.
  intros HR Hwf Hg Hcolor Hfin. unfold minmax_get_move, st_bind.
  destruct (minimax_refines R P true (depth P) g NegInf PosInf true h Hwf Hg)
    as (h1 & -> & _).
  cbn [fst st_ret].
  apply (minimax_val_move R HR P Hfin true (depth P) (snapshot h g) NegInf PosInf Hcolor).
Qed.

Lemma minmax_get_move_legal_witness :
  ((minmax_get_move simple_runtime black_minmax 0 opening_heap).1 = None ↔
     depth black_minmax = 0%nat ∨
     valid_moves (board_of opening_heap 0) (color black_minmax) = ∅) ∧
  ∀ m, (minmax_get_move simple_runtime black_minmax 0 opening_heap).1 = Some m →
       m ∈ valid_moves (board_of opening_heap 0) (color black_minmax).
Proof.
  apply (minmax_get_move_legal simple_runtime black_minmax 0 opening_heap).
  - apply runtime_ok_simple.
  - apply heap_wf_opening.
  - cbn. lia.
  - by left.
  - intros s p. by eexists.
Defined.

(** The two pruning [break]s never change the move [get_move] returns. *)
Theorem alpha_beta_same_move (R : Runtime) (P : MinMaxPlayer) (g : nat) (h : Heap) :
  heap_wf h → (g < length (games h))%nat →
  (minmax_get_move R P g h).1 =
  (minimax R P false (depth P) g NegInf PosInf true h).1.2.
Proof.
  intros Hwf Hg. unfold minmax_get_move, st_bind.
  destruct (minimax_refines R P true (depth P) g NegInf PosInf true h Hwf Hg)
    as (h1 & -> & _).
  destruct (minimax_refines R P false (depth P) g NegInf PosInf true h Hwf Hg)
    as (h2 & -> & _).
  cbn [fst st_ret]. by rewrite minimax_val_same_move.
Qed.

Lemma alpha_beta_same_move_witness :
  (minmax_get_move simple_runtime black_minmax 0 opening_heap).1 =
  (minimax simple_runtime black_minmax false (depth black_minmax) 0 NegInf PosInf true
     opening_heap).1.2.
Proof.
  apply (alpha_beta_same_move simple_runtime black_minmax 0 opening_heap).
  - apply heap_wf_opening.
  - cbn. lia.
Defined.


(** ** More on the rules *)

(** [valid_moves] returns exactly the legal moves: the empty cells of the
    board from which, in some direction, a run of at least one opposing disk
    ends at a disk of the player.  (No move is legal for player 0.) *)
Theorem valid_moves_exactly_legal (b : Board) (player : Z) (m : Move) :
  m ∈ valid_moves b player ↔
  player ≠ 0 ∧ in_bounds m.1 m.2 = true ∧ cell b m.1 m.2 = 0 ∧
  ∃ d n, d ∈ directions ∧ 1 ≤ n ∧
    (∀ j, 1 ≤ j ≤ n → in_bounds (m.1 + j * d.1) (m.2 + j * d.2) = true ∧
                       cell b (m.1 + j * d.1) (m.2 + j * d.2) = - player) ∧
    in_bounds (m.1 + (n + 1) * d.1) (m.2 + (n + 1) * d.2) = true ∧
    cell b (m.1 + (n + 1) * d.1) (m.2 + (n + 1) * d.2) = player.
Proof. apply valid_moves_legal. Qed.

Lemma flipped_was_opponent b p m q :
  flipped b p m q → in_bounds q.1 q.2 = true ∧ cell b q.1 q.2 = - p.
Proof.
  intros (d & n & j & _ & (_ & Hrun & _) & Hj & ->). cbn [fst snd]. by apply Hrun.
Qed.

Lemma apply_move_illegal b m p : m ∉ valid_moves b p → apply_move b m p = (false, b).
Proof. intros H. unfold apply_move. by rewrite decide_False. Qed.

Lemma apply_move_cases b m p :
  wf_board b →
  apply_move b m p = (false, b) ∨
  legal b p m ∧ ∃ b', apply_move b m p = (true, b') ∧ placed_and_flipped directions b p m b'.
Proof.
  intros Hwf. destruct (decide (m ∈ valid_moves b p)) as [Hin|Hout].
  - right. apply valid_moves_legal in Hin. split; [done|]. by apply apply_move_legal.
  - left. by apply apply_move_illegal.
Qed.

Lemma apply_move_cells (b : Board) (m : Move) (player : Z) :
  wf_board b →
  wf_board (apply_move b m player).2 ∧
  ∀ x y, in_bounds x y = true →
    (cell b x y ≠ 0 → cell (apply_move b m player).2 x y ≠ 0) ∧
    ((x, y) ≠ m → cell b x y = 0 → cell (apply_move b m player).2 x y = 0) ∧
    (cell (apply_move b m player).2 x y ≠ cell b x y →
     cell (apply_move b m player).2 x y = player).
Proof.
  intros Hwf. destruct (apply_move_cases b m player Hwf)
    as [->|[(Hp & _ & Hzero & _) (b' & -> & Hwf' & Hcells)]]; cbn [snd].
  { split; [done|]. intros x y _. split; [done|]. split; [done|]. done. }
  split; [done|]. intros x y [Hx Hy]%in_bounds_iff.
  destruct (Hcells x y ltac:(lia) ltac:(lia)) as (Hplaced & Hflipped & Hrest).
  assert (flipped_in directions b player m (x, y) → cell b x y = - player) as Hopp.
  { intros Hf. by apply (flipped_was_opponent b player m (x, y)) in Hf as [_ ?]. }
  split; [|split].
  - intros Hocc Hempty. destruct (decide ((x, y) = m)) as [Heq|Hne].
    { rewrite (Hplaced Heq) in Hempty. done. }
    apply Hocc. rewrite <- Hrest; [done|done|].
    intros Hf. rewrite (Hflipped Hf) in Hempty. done.
  - intros Hne Hempty. rewrite Hrest; [done|done|].
    intros Hf. apply Hopp in Hf. lia.
  - intros Hchanged. destruct (decide ((x, y) = m)) as [Heq|Hne]; [by apply Hplaced|].
    destruct (decide (cell b' x y = player)) as [?|Hnp]; [done|].
    destruct Hchanged. apply Hrest; [done|]. intros Hf. by apply Hflipped in Hf.
Qed.

(** Whatever the move and the player, [apply_move] keeps the board 8x8, never
    empties a cell, leaves every empty cell other than the move empty, and
    whatever it changes becomes a disk of the player. *)
Theorem apply_move_only_adds_and_flips (b : Board) (m : Move) (player : Z) :
  wf_board b →
  wf_board (apply_move b m player).2 ∧
  ∀ x y, in_bounds x y = true →
    (cell b x y ≠ 0 → cell (apply_move b m player).2 x y ≠ 0) ∧
    ((x, y) ≠ m → cell b x y = 0 → cell (apply_move b m player).2 x y = 0) ∧
    (cell (apply_move b m player).2 x y ≠ cell b x y →
     cell (apply_move b m player).2 x y = player).
Proof. apply apply_move_cells. Qed.

Lemma apply_move_only_adds_and_flips_witness :
  wf_board (apply_move init_board (2, 3) 1).2 ∧
  ∀ x y, in_bounds x y = true →
    (cell init_board x y ≠ 0 → cell (apply_move init_board (2, 3) 1).2 x y ≠ 0) ∧
    ((x, y) ≠ (2, 3) → cell init_board x y = 0 →
     cell (apply_move init_board (2, 3) 1).2 x y = 0) ∧
    (cell (apply_move init_board (2, 3) 1).2 x y ≠ cell init_board x y →
     cell (apply_move init_board (2, 3) 1).2 x y = 1).
Proof. apply (apply_move_only_adds_and_flips init_board (2, 3) 1), wf_init_board. Defined.

(** Two different legal moves of the same player never lead to the same
    board: the cell of the first move holds the player's disk after the
    first and is still empty after the second. *)
Theorem legal_moves_give_distinct_boards (b : Board) (player : Z) (m1 m2 : Move) :
  wf_board b → m1 ∈ valid_moves b player → m2 ∈ valid_moves b player → m1 ≠ m2 →
  player ≠ 0 ∧
  cell (apply_move b m1 player).2 m1.1 m1.2 = player ∧
  cell (apply_move b m2 player).2 m1.1 m1.2 = 0.
Proof.
  intros Hwf H1 H2 Hne.
  apply valid_moves_legal in H1, H2.
  pose proof H1 as (Hp & Hin1 & Hz1 & _).
  destruct (apply_move_legal b m1 player Hwf H1) as (b1 & -> & _ & Hc1).
  destruct (apply_move_legal b m2 player Hwf H2) as (b2 & -> & _ & Hc2).
  cbn [snd].
  apply in_bounds_iff in Hin1 as [Hr Hc]. destruct m1 as [r c]. cbn [fst snd] in *.
  destruct (Hc1 r c ltac:(lia) ltac:(lia)) as (Hplaced & _).
  destruct (Hc2 r c ltac:(lia) ltac:(lia)) as (_ & _ & Hrest).
  split; [done|]. split; [by apply Hplaced|].
  rewrite Hrest; [done|done|].
  intros Hf. apply (flipped_was_opponent b player m2 (r, c)) in Hf as [_ Hf].
  cbn [fst snd] in Hf. lia.
Qed.

Lemma legal_moves_give_distinct_boards_witness :
  (1 : Z) ≠ 0 ∧
  cell (apply_move init_board (2, 3) 1).2 2 3 = 1 ∧
  cell (apply_move init_board (3, 2) 1).2 2 3 = 0.
Proof.
  apply (legal_moves_give_distinct_boards init_board 1 (2, 3) (3, 2) wf_init_board).
  - vm_compute. reflexivity.
  - vm_compute. reflexivity.
  - by intros [=].
Defined.

(** ** Boards of a game *)

Lemma init_board_cells x y :
  in_bounds x y = true →
  cell init_board x y = 0 ∨ cell init_board x y = 1 ∨ cell init_board x y = -1.
Proof.
  intros Hin.
  assert (forallb (λ q : Move, (cell init_board q.1 q.2 =? 0) ||
            (cell init_board q.1 q.2 =? 1) || (cell init_board q.1 q.2 =? -1))
            all_cells = true) as Hall by (vm_compute; reflexivity).
  rewrite forallb_forall in Hall.
  specialize (Hall (x, y) ltac:(by apply list_elem_of_In, elem_of_all_cells)).
  cbn [fst snd] in Hall. lia.
Qed.

Lemma reachable_invariant b :
  reachable b →
  wf_board b ∧
  (∀ x y, in_bounds x y = true → cell b x y = 0 ∨ cell b x y = 1 ∨ cell b x y = -1) ∧
  4 ≤ disks b ≤ 64.
Proof.
  induction 1 as [|b p m b' Hr (Hwf & Hcells & Hd) Hp Hm Hap].
  { split; [apply wf_init_board|]. split; [apply init_board_cells|].
    assert (disks init_board = 4) as -> by (vm_compute; reflexivity). lia. }
  destruct (apply_move_wf_disks b p m Hwf Hp Hm) as [Hwf' Hd'].
  destruct (apply_move_cells b m p Hwf) as [_ Hchange].
  rewrite Hap in Hwf', Hd', Hchange. cbn [snd] in *.
  split; [done|]. split.
  - intros x y Hin. destruct (Hchange x y Hin) as (_ & _ & Hnew).
    destruct (decide (cell b' x y = cell b x y)) as [->|Hne]; [by apply Hcells|].
    rewrite (Hnew Hne). destruct Hp as [-> | ->]; auto.
  - pose proof (disks_bound b' Hwf'). lia.
Qed.

(** Every board of a game (the opening and what legal moves of either colour
    lead to) is 8x8, holds only 0, 1 and -1, and has between 4 and 64
    disks. *)
Theorem reachable_board_invariant (b : Board) :
  reachable b →
  wf_board b ∧
  (∀ x y, in_bounds x y = true → cell b x y = 0 ∨ cell b x y = 1 ∨ cell b x y = -1) ∧
  4 ≤ count_eq b 1 + count_eq b (-1) ≤ 64.
Proof. apply reachable_invariant. Qed.

Lemma reachable_board_invariant_witness :
  wf_board init_board ∧
  (∀ x y, in_bounds x y = true →
     cell init_board x y = 0 ∨ cell init_board x y = 1 ∨ cell init_board x y = -1) ∧
  4 ≤ count_eq init_board 1 + count_eq init_board (-1) ≤ 64.
Proof. apply (reachable_board_invariant init_board), reachable_init. Defined.

(** ** Copies of a game *)

Lemma apply_move_at_here H g m p o :
  heap_wf H → games H !! g = Some o →
  (∀ g' o', games H !! g' = Some o' → g' ≠ g → board_ref o' ≠ board_ref o) →
  board_of (apply_move_at g m p H).2 g = (apply_move (board_of H g) m p).2 ∧
  player_of (apply_move_at g m p H).2 g = player_of H g ∧
  ∀ g', g' ≠ g → snapshot (apply_move_at g m p H).2 g' = snapshot H g'.
Proof.
  intros Hwf Ho Hsep. unfold apply_move_at. rewrite Ho.
  destruct (apply_move (board_of H g) m p) as [ok b'] eqn:E. cbn [snd].
  pose proof (Hwf g o Ho) as Hlt.
  split; [|split].
  - unfold board_of. cbn [games arrays]. rewrite Ho. cbn.
    by rewrite list_lookup_insert_eq.
  - done.
  - intros g' Hne. unfold snapshot, board_of, player_of. cbn [games arrays].
    destruct (games H !! g') as [o'|] eqn:Ho'; [|done]. cbn.
    rewrite list_lookup_insert_ne; [done|]. intros Heq. by apply (Hsep g' o' Ho' Hne).
Qed.

(** [copy] makes a game of its own: it starts as the original, and moves
    played on it, or a change of its side to move, leave the original as it
    was. *)
Theorem copy_is_independent (h : Heap) (g : nat) (m : Move) (p : Z) :
  heap_wf h → (g < length (games h))%nat →
  let new := (copy g h).1 in
  let h1 := (copy g h).2 in
  snapshot h1 new = snapshot h g ∧ snapshot h1 g = snapshot h g ∧
  snapshot (apply_move_at new m p h1).2 g = snapshot h g ∧
  board_of (apply_move_at new m p h1).2 new = (apply_move (board_of h g) m p).2 ∧
  snapshot (flip_player new h1).2 g = snapshot h g ∧
  player_of (flip_player new h1).2 new = player_of h g * -1.
Proof.
  intros Hwf Hg new h1. subst new h1.
  destruct (copy_spec h h g Hwf (aligned_refl h)) as (Hnew & Hold & Hlen).
  pose proof (aligned_copy h h g (aligned_refl h)) as Hal.
  change (copy g h).1 with (length (games h)).
  destruct (apply_move_at_spec h (copy g h).2 (length (games h)) m p Hwf Hal
              ltac:(done) ltac:(lia)) as (_ & _ & Hcur & Hoth).
  destruct (flip_player_spec h (copy g h).2 (length (games h)) Hwf Hal
              ltac:(done) ltac:(lia)) as (_ & _ & Hcur' & Hoth').
  split; [done|]. split; [by apply Hold|].
  split; [rewrite Hoth by lia; by apply Hold|].
  split.
  { change (grid (snapshot (apply_move_at (length (games h)) m p (copy g h).2).2
                    (length (games h))) = (apply_move (grid (snapshot h g)) m p).2).
    by rewrite Hcur, Hnew. }
  split; [rewrite Hoth' by lia; by apply Hold|].
  change (to_move (snapshot (flip_player (length (games h)) (copy g h).2).2
                     (length (games h))) = to_move (snapshot h g) * -1).
  by rewrite Hcur', Hnew.
Qed.

Lemma copy_is_independent_witness :
  let new := (copy 0 opening_heap).1 in
  let h1 := (copy 0 opening_heap).2 in
  snapshot h1 new = snapshot opening_heap 0 ∧ snapshot h1 0 = snapshot opening_heap 0 ∧
  snapshot (apply_move_at new (2, 3) 1 h1).2 0 = snapshot opening_heap 0 ∧
  board_of (apply_move_at new (2, 3) 1 h1).2 new =
    (apply_move (board_of opening_heap 0) (2, 3) 1).2 ∧
  snapshot (flip_player new h1).2 0 = snapshot opening_heap 0 ∧
  player_of (flip_player new h1).2 new = player_of opening_heap 0 * -1.
Proof.
  apply (copy_is_independent opening_heap 0 (2, 3) 1).
  - apply heap_wf_opening.
  - cbn. lia.
Defined.


(** ** The players of [player.py] and the loop of [play] *)

Lemma player_get_move_some R color s pick :
  runtime_ok R → valid_moves (grid s) color ≠ ∅ →
  ∃ m, player_get_move R true color s pick = Some m ∧ m ∈ valid_moves (grid s) color.
Proof.
  intros HR Hne. unfold player_get_move.
  destruct (list_of_set R (valid_moves (grid s) color)) as [|x l] eqn:E.
  { by apply (list_of_set_nil R _ HR) in E. }
  eexists. split; [done|]. apply (proj1 HR). rewrite E.
  apply list_elem_of_In, nth_In. apply Nat.mod_upper_bound. done.
Qed.



Lemma no_moves_game_over b :
  valid_moves b 1 = ∅ → valid_moves b (-1) = ∅ → is_game_over b = true.
Proof.
  intros E1 E2. unfold is_game_over.
  by rewrite (bool_decide_eq_true_2 _ E1), (bool_decide_eq_true_2 _ E2).
Qed.

Lemma turn_spec s m :
  wf_board (grid s) → to_move s = 1 ∨ to_move s = -1 →
  m ∈ valid_moves (grid s) (to_move s) →
  wf_board (grid (turn (Some m) s)) ∧
  disks (grid (turn (Some m) s)) = disks (grid s) + 1 ∧
  (to_move (turn (Some m) s) = 1 ∨ to_move (turn (Some m) s) = -1) ∧
  (is_game_over (grid (turn (Some m) s)) = true ∨
   valid_moves (grid (turn (Some m) s)) (to_move (turn (Some m) s)) ≠ ∅).
Proof.
  intros Hwf Hp Hm. cbn [turn grid to_move].
  destruct (apply_move_wf_disks _ _ _ Hwf Hp Hm) as [Hwf' Hd'].
  set (b' := (apply_move (grid s) m (to_move s)).2) in *.
  split; [done|]. split; [done|].
  destruct (decide (valid_moves b' (- to_move s) = ∅)) as [Hempty|Hne].
  - rewrite (bool_decide_eq_true_2 _ Hempty). split; [done|].
    destruct (decide (valid_moves b' (to_move s) = ∅)) as [Hempty'|Hne']; [|by right].
    left. destruct Hp as [Hp|Hp]; rewrite Hp in Hempty, Hempty'.
    + exact (no_moves_game_over b' Hempty' Hempty).
    + exact (no_moves_game_over b' Hempty Hempty').
  - rewrite (bool_decide_eq_false_2 _ Hne). split; [lia|]. right.
    by replace (to_move s * -1) with (- to_move s) by lia.
Qed.

Lemma play_loop_ends agent fuel n s :
  (∀ k s', valid_moves (grid s') (to_move s') ≠ ∅ →
     ∃ m, agent k s' = Some m ∧ m ∈ valid_moves (grid s') (to_move s')) →
  wf_board (grid s) → to_move s = 1 ∨ to_move s = -1 →
  valid_moves (grid s) (to_move s) ≠ ∅ →
  64 - disks (grid s) ≤ Z.of_nat fuel →
  ∃ s_end, play_loop fuel agent n s = Some s_end ∧
    is_game_over (grid s_end) = true ∧ wf_board (grid s_end) ∧
    disks (grid s) < disks (grid s_end).
Proof.
  intros Hagent. revert n s.
  induction fuel as [|fuel IH]; intros n s Hwf Hp Hne Hfuel.
  { destruct (Hagent n s Hne) as (m & _ & Hm).
    destruct (turn_spec s m Hwf Hp Hm) as (Hwf' & Hd' & _).
    pose proof (disks_bound _ Hwf'). lia. }
  cbn [play_loop]. destruct (Hagent n s Hne) as (m & -> & Hm).
  destruct (turn_spec s m Hwf Hp Hm) as (Hwf' & Hd' & Hp' & Hnext).
  destruct (is_game_over (grid (turn (Some m) s))) eqn:Hover.
  { eexists. split; [done|]. split; [done|]. split; [done|]. lia. }
  destruct Hnext as [?|Hne']; [done|].
  destruct (IH (S n) _ Hwf' Hp' Hne' ltac:(lia)) as (s_end & Hrun & Hend & Hwfe & Hde).
  exists s_end. split; [done|]. split; [done|]. split; [done|]. lia.
Qed.

(** Between agents that return a legal move whenever the side to move has
    one, the loop of [play] ends: started with a side to move that has a
    move, it reaches a position where the game is over after at most as many
    turns as there are empty cells. *)
Theorem play_ends (agent : nat → State → option Move) (fuel : nat) (s : State) :
  (∀ k s', valid_moves (grid s') (to_move s') ≠ ∅ →
     ∃ m, agent k s' = Some m ∧ m ∈ valid_moves (grid s') (to_move s')) →
  wf_board (grid s) → to_move s = 1 ∨ to_move s = -1 →
  valid_moves (grid s) (to_move s) ≠ ∅ →
  64 - (count_eq (grid s) 1 + count_eq (grid s) (-1)) ≤ Z.of_nat fuel →
  ∃ s_end, play_loop fuel agent 0 s = Some s_end ∧
    is_game_over (grid s_end) = true ∧
    (play_result s_end = 0 ∨ play_result s_end = 1 ∨ play_result s_end = -1).
Proof.
  intros Hagent Hwf Hp Hne Hfuel.
  destruct (play_loop_ends agent fuel 0 s Hagent Hwf Hp Hne Hfuel)
    as (s_end & Hrun & Hover & _).
  exists s_end. split; [done|]. split; [done|]. unfold play_result.
  destruct (_ =? _); [by left|]. destruct (_ <? _); auto.
Qed.

Lemma opening_has_move : valid_moves (grid opening) (to_move opening) ≠ ∅.
Proof.
  assert (((2, 3) : Move) ∈ valid_moves (grid opening) (to_move opening)) as Hin
    by (vm_compute; reflexivity).
  intros Hempty. rewrite Hempty in Hin. by apply elem_of_empty in Hin.
Qed.

Lemma play_ends_witness :
  ∃ s_end, play_loop 60 (random_players simple_runtime (λ _, 0%nat)) 0 opening = Some s_end ∧
    is_game_over (grid s_end) = true ∧
    (play_result s_end = 0 ∨ play_result s_end = 1 ∨ play_result s_end = -1).
Proof.
  apply (play_ends (random_players simple_runtime (λ _, 0%nat)) 60 opening).
  - intros k s' Hne. apply player_get_move_some; [apply runtime_ok_simple|done].
  - apply wf_init_board.
  - by left.
  - apply opening_has_move.
  - vm_compute. discriminate.
Defined.

(** An agent that answers [None] where the game is not over stalls the loop
    of [play]: the position stays as it is, and the loop never ends. *)
Theorem play_stalls (agent : nat → State → option Move) (fuel n : nat) (s : State) :
  is_game_over (grid s) = false → (∀ k, agent k s = None) →
  play_loop fuel agent n s = None.
Proof.
  intros Hover Hnone. revert n. induction fuel as [|fuel IH]; intros n; [done|].
  cbn [play_loop]. rewrite Hnone. cbn [turn]. rewrite Hover. apply IH.
Qed.

Lemma play_stalls_witness : play_loop 100 (λ _ _, None) 0 opening = None.
Proof.
  apply (play_stalls (λ _ _, None) 100 0 opening).
  - vm_compute. reflexivity.
  - done.
Defined.
